(** * etable: indexed table views, verified against their description

    A shallow embedding of [etable/idxtable.go] (the [IdxTable] view: sort,
    filter, clone, materialisation and aggregation) and of the
    nearest-row helpers [ClosestRow32] / [ClosestRow64] of package
    [metric].

    Conventions.
    - Go [int] values that come from data (row numbers stored in [Idxs],
      column indexes) are [Z]; products and sums of such values wrap at 64
      bits ([wrap64]).  Positions produced by [range] loops and slice
      lengths are [nat].
    - [float32] / [float64] are IEEE 754 values, taken from the
      specification of binary floating point of the standard library
      ([spec_float]), so that NaN and the order on floats are the real ones.
    - A run-time panic is a value of [Panic]; fallible code returns a
      [Result].
    - [[]int] slices are headers (array, offset, length, capacity) into a
      store of backing arrays; views and tables are reached through
      pointers into the same store, so that aliasing is visible. *)

From Stdlib Require Import ZArith List Bool Lia String Ascii.
From Stdlib Require Import Floats.SpecFloat.
From stdpp Require Import base list.

Local Open Scope Z_scope.

(** ** Panics and results *)

Inductive Panic : Type :=
| IndexOutOfRange          (* runtime error: index out of range *)
| SliceBounds              (* runtime error: slice bounds out of range *)
| NilDereference           (* runtime error: invalid memory address or nil pointer dereference *)
| DivideByZero             (* runtime error: integer divide by zero *)
| PanicMsg (msg : string). (* panic("...") *)

Inductive Result (A : Type) : Type :=
| Ok (a : A)
| Err (p : Panic).
Arguments Ok {A} a.
Arguments Err {A} p.

Definition rbind {A B} (r : Result A) (k : A -> Result B) : Result B :=
  match r with
  | Ok a => k a
  | Err p => Err p
  end.

Declare Scope result_scope.
Delimit Scope result_scope with res.
Notation "x <- c ;; k" := (rbind c (fun x => k))
  (at level 100, c at next level, right associativity) : result_scope.

(** ** Machine integers *)

(** Two's complement wrap-around of a 64-bit [int]. *)
Definition wrap64 (z : Z) : Z := (z + 2 ^ 63) mod 2 ^ 64 - 2 ^ 63.

Definition in_int64 (z : Z) : Prop := - 2 ^ 63 <= z < 2 ^ 63.

(** [l[i]] for a Go [int] index: bounds-checked. *)
Definition index {A} (l : list A) (i : Z) : Result A :=
  if (i <? 0) then Err IndexOutOfRange
  else match l !! Z.to_nat i with
       | Some a => Ok a
       | None => Err IndexOutOfRange
       end.

(** [l[a:b]] on a slice whose capacity is its length. *)
Definition subslice {A} (l : list A) (a b : nat) : Result (list A) :=
  if ((a <=? b) && (b <=? length l))%nat
  then Ok (take (b - a) (drop a l))
  else Err SliceBounds.

(** ** Floating point *)

Definition float64 : Type := spec_float.
Definition float32 : Type := spec_float.

Module F64.
Definition prec : Z := 53.
Definition emax : Z := 1024.
Definition ltb (x y : float64) : bool := SFltb x y.
Definition gtb (x y : float64) : bool := SFltb y x.
Definition add (x y : float64) : float64 := SFadd prec emax x y.
(** [math.IsNaN]. *)
Definition IsNaN (x : float64) : bool :=
  match x with S754_nan => true | _ => false end.
Definition NaN : float64 := S754_nan.
Definition zero : float64 := S754_zero false.
(** The float64 nearest to an integer. *)
Definition of_Z (z : Z) : float64 := binary_normalize prec emax z 0 false.
(** [math.MaxFloat64]. *)
Definition MaxFloat64 : float64 := SFmax_float prec emax.
End F64.

Module F32.
Definition prec : Z := 24.
Definition emax : Z := 128.
Definition ltb (x y : float32) : bool := SFltb x y.
Definition of_Z (z : Z) : float32 := binary_normalize prec emax z 0 false.
(** [float32(math.MaxFloat32)]. *)
Definition MaxFloat32 : float32 := SFmax_float prec emax.
End F32.

(** ** Package metric: nearest row *)

Module Metric.

(** Modelled from the spec: the tensor storage of package [etensor] is
    missing.  A tensor has a shape [[rows, d1, ...]] and its flat
    elements; [Dim] is the bounds-checked access to one dimension and
    [Len] is the total flat element count. *)
Record Float32 : Type := {
  Shp32 : list nat;
  Values32 : list float32
}.

Definition Dim32 (t : Float32) (i : Z) : Result nat := index (Shp32 t) i.
Definition Len32 (t : Float32) : nat := length (Values32 t).

(** Modelled from the spec: [etensor.Tensor] is an interface; its
    dynamic type is either [*etensor.Float64] or some other tensor
    type.  [Floats] is the conversion of all the elements to float64;
    for a [Float64] tensor it is its [Values]. *)
Inductive TensorType : Type := IsFloat64 | IsOther.

Record Tensor : Type := {
  DynType : TensorType;
  Shp : list nat;
  Floats : list float64
}.

Definition Dim (t : Tensor) (i : Z) : Result nat := index (Shp t) i.
Definition Len (t : Tensor) : nat := length (Floats t).
(** The [Values] field after a successful type assertion to [*Float64]. *)
Definition Values (t : Tensor) : list float64 := Floats t.
Definition is_Float64 (t : Tensor) : bool :=
  match DynType t with IsFloat64 => true | IsOther => false end.

Section Closest.
Context {F : Type} (ltb : F -> F -> bool).
Variable mfun : list F -> list F -> F.

(** The outcome of a call, with the rows whose cells were handed to
    [mfun] before it ended (a ghost log, in order of examination). *)
Record Run : Type := { outcome : Result (Z * F); examined : list nat }.

(** [for ri := 0; ri < rows; ri++ { ... }] with [n = rows - ri]
    iterations left; [ci], [minv] are the loop's variables. *)
Fixpoint row_loop (pvals cvals : list F) (csz : nat) (n ri : nat)
    (ci : Z) (minv : F) (log : list nat) : Run :=
  match n with
  | O => {| outcome := Ok (ci, minv); examined := log |}
  | S n' =>
      let st := (ri * csz)%nat in
      match subslice cvals st (st + csz) with
      | Err p => {| outcome := Err p; examined := log |}
      | Ok rvals =>
          let v := mfun pvals rvals in
          if ltb v minv
          then row_loop pvals cvals csz n' (S ri) (Z.of_nat ri) v (log ++ [ri])
          else row_loop pvals cvals csz n' (S ri) ci minv (log ++ [ri])
      end
  end.

Definition panics (p : Panic) : Run := {| outcome := Err p; examined := [] |}.
End Closest.
Arguments outcome {F} r.
Arguments examined {F} r.

Definition newline : string := String (ascii_of_nat 10) EmptyString.
Definition mismatch32 : string :=
  "metric.ClosestRow32: probe size != cell size of tensor column!" ++ newline.
Definition mismatch64 : string :=
  "metric.ClosestRow64: probe size != cell size of tensor column!" ++ newline.

(** [csz := col.Len() / rows]: integer division panics on a zero divisor. *)
Definition int_div (a b : nat) : Result nat :=
  if (b =? 0)%nat then Err DivideByZero else Ok (a / b)%nat.

(** [ClosestRow32], lines 19-37. *)
Definition ClosestRow32 (probe col : Float32)
    (mfun : list float32 -> list float32 -> float32) : Run (F:=float32) :=
  match Dim32 col 0 with
  | Err p => panics p
  | Ok rows =>
      match int_div (Len32 col) rows with
      | Err p => panics p
      | Ok csz =>
          if negb (csz =? Len32 probe)%nat then panics (PanicMsg mismatch32)
          else
            row_loop F32.ltb mfun (Values32 probe) (Values32 col) csz rows 0%nat
              (-1) F32.MaxFloat32 []
      end
  end.

(** [ClosestRow64], lines 46-93. *)
Definition ClosestRow64 (probe col : Tensor)
    (mfun : list float64 -> list float64 -> float64) : Run (F:=float64) :=
  match Dim col 0 with
  | Err p => panics p
  | Ok rows =>
      match int_div (Len col) rows with
      | Err p => panics p
      | Ok csz =>
          if negb (csz =? Len probe)%nat then panics (PanicMsg mismatch64)
          else
            let pok := is_Float64 probe in
            let cok := is_Float64 col in
            if pok && cok then
              row_loop F64.ltb mfun (Values probe) (Values col) csz rows 0%nat
                (-1) F64.MaxFloat64 []
            else if cok then
              let fpv := Floats probe in
              row_loop F64.ltb mfun fpv (Values col) csz rows 0%nat
                (-1) F64.MaxFloat64 []
            else
              let fpv := Floats probe in
              let fcv := Floats col in
              row_loop F64.ltb mfun fpv fcv csz rows 0%nat
                (-1) F64.MaxFloat64 []
      end
  end.

End Metric.

(** ** Column storage and tables *)

(** Modelled from the spec: the column storage of package [etensor] and
    the [Table] type with [Schema] and [New] are missing.  A column has a
    shape [[rows, d1, ..., dn]] and [rows * csz] flat elements, where
    [csz = d1 * ... * dn]; every flat element has a float view and a
    string view, and a null bit that is kept beside the elements.  The
    bulk copy primitive copies elements, not null bits. *)
Inductive DataType : Type := STRING | NUMERIC.

Record Elem : Type := { fval : float64; sval : string }.

Record Column : Type := {
  ColName : string;
  ColType : DataType;
  ColRows : nat;            (* Dim(0) *)
  CellShape : list nat;     (* d1, ..., dn *)
  elems : list Elem;        (* flat elements, row after row *)
  nulls : list bool         (* null bits by flat index; none recorded: not null *)
}.

Definition product (ds : list nat) : nat := fold_right Nat.mul 1%nat ds.

(** [cl.RowCellSize()]. *)
Definition RowCellSize (cl : Column) : nat * nat :=
  (ColRows cl, product (CellShape cl)).

(** [cl.FloatVal1D(i)], [cl.StringVal1D(i)]: bounds-checked access to the
    flat element [i]. *)
Definition FloatVal1D (cl : Column) (i : Z) : Result float64 :=
  (e <- index (elems cl) i ;; Ok (fval e))%res.

Definition StringVal1D (cl : Column) (i : Z) : Result string :=
  (e <- index (elems cl) i ;; Ok (sval e))%res.

(** [cl.IsNull1D(i)]. *)
Definition IsNull1D (cl : Column) (i : Z) : bool :=
  if i <? 0 then false else default false (nulls cl !! Z.to_nat i).

(** One call [tcl.CopyCellsFrom(scl, to, start, n)], as logged. *)
Record CopyCall : Type := { cc_col : nat; cc_to : Z; cc_start : Z; cc_n : Z }.

(** [tcl.CopyCellsFrom(scl, to, start, n)]: copies the [n] flat elements
    of [scl] that start at [start] over those of [tcl] that start at
    [to]; both ranges are bounds-checked. *)
Definition CopyCellsFrom (tcl scl : Column) (to start n : Z) : Result Column :=
  if (0 <=? n) && (0 <=? start) && (start + n <=? Z.of_nat (length (elems scl)))
     && (0 <=? to) && (to + n <=? Z.of_nat (length (elems tcl)))
  then Ok {| ColName := ColName tcl; ColType := ColType tcl;
             ColRows := ColRows tcl; CellShape := CellShape tcl;
             elems := take (Z.to_nat to) (elems tcl)
                      ++ take (Z.to_nat n) (drop (Z.to_nat start) (elems scl))
                      ++ drop (Z.to_nat (to + n)) (elems tcl);
             nulls := nulls tcl |}
  else Err IndexOutOfRange.

Record Table : Type := {
  Cols : list Column;
  Rows : nat
}.

(** One entry of a schema: name, element kind, cell shape. *)
Record SchemaCol : Type := {
  sc_Name : string;
  sc_Type : DataType;
  sc_CellShape : list nat
}.

Definition col_schema (cl : Column) : SchemaCol :=
  {| sc_Name := ColName cl; sc_Type := ColType cl; sc_CellShape := CellShape cl |}.

(** [et.Schema()]. *)
Definition Schema (et : Table) : list SchemaCol := map col_schema (Cols et).

Definition zero_elem (k : DataType) : Elem :=
  match k with
  | STRING => {| fval := F64.zero; sval := "" |}
  | NUMERIC => {| fval := F64.zero; sval := "0" |}
  end.

Definition new_column (rows : nat) (sc : SchemaCol) : Column :=
  {| ColName := sc_Name sc; ColType := sc_Type sc;
     ColRows := rows; CellShape := sc_CellShape sc;
     elems := replicate (rows * product (sc_CellShape sc)) (zero_elem (sc_Type sc));
     nulls := [] |}.

(** [New(sc, rows)]: a table of the given schema with [rows] rows of
    zero elements. *)
Definition New (sc : list SchemaCol) (rows : nat) : Table :=
  {| Cols := map (new_column rows) sc; Rows := rows |}.

(** ** The store *)

(** Pointers are positions in the store. *)
Abbreviation ptr := nat (only parsing).

(** A [[]int] slice header. *)
Record slice : Type := {
  arr : ptr;     (* backing array *)
  off : nat;     (* position of element 0 in the backing array *)
  len : nat;
  cap : nat
}.

(** The [nil] slice. *)
Definition nil_slice : slice := {| arr := 0%nat; off := 0%nat; len := 0%nat; cap := 0%nat |}.

(** [LessFunc], line 18, and [FilterFunc], line 23.  The table pointer
    argument is passed dereferenced ([None] for a nil pointer).  The
    comparators that [SortCols] builds index columns and rows, so a
    [LessFunc] may panic. *)
Definition LessFunc : Type := option Table -> Z -> Z -> Result bool.
Definition FilterFunc : Type := option Table -> Z -> bool.

(** [etensor.AggFunc]: index of the element, its value, the aggregate so far. *)
Definition AggFunc : Type := Z -> float64 -> float64 -> float64.

(** [IdxTable], lines 33-37. *)
Record IdxTable : Type := {
  ix_Table : option ptr;
  ix_Idxs : slice;
  ix_lessFunc : option LessFunc
}.

Record Store : Type := {
  arrays : list (list Z);    (* backing arrays of [[]int] slices *)
  tables : list Table;       (* [*Table] *)
  views : list IdxTable      (* [*IdxTable] *)
}.

(** Computations on the store that may panic. *)
Definition M (A : Type) : Type := Store -> Result (A * Store).

Definition ret {A} (a : A) : M A := fun s => Ok (a, s).
Definition bind {A B} (m : M A) (k : A -> M B) : M B :=
  fun s => match m s with
           | Ok (a, s') => k a s'
           | Err p => Err p
           end.
Definition panic {A} (p : Panic) : M A := fun _ => Err p.
Definition lift {A} (r : Result A) : M A :=
  fun s => match r with Ok a => Ok (a, s) | Err p => Err p end.

Declare Scope m_scope.
Delimit Scope m_scope with M.
Notation "x <- c ;; k" := (bind c (fun x => k))
  (at level 100, c at next level, right associativity) : m_scope.
Notation "c ;;; k" := (bind c (fun _ => k))
  (at level 100, k at level 200, right associativity) : m_scope.

(** Pointer dereference. *)
Definition get_view (p : ptr) : M IdxTable :=
  fun s => match views s !! p with
           | Some ix => Ok (ix, s)
           | None => Err NilDereference
           end.

Definition set_view (p : ptr) (ix : IdxTable) : M unit :=
  fun s => match views s !! p with
           | Some _ => Ok (tt, {| arrays := arrays s; tables := tables s;
                                  views := <[p := ix]> (views s) |})
           | None => Err NilDereference
           end.

(** [&IdxTable{}]. *)
Definition new_view : M ptr :=
  fun s => Ok (length (views s),
               {| arrays := arrays s; tables := tables s;
                  views := views s ++ [ {| ix_Table := None; ix_Idxs := nil_slice;
                                           ix_lessFunc := None |} ] |}).

(** The table behind a table pointer, if any. *)
Definition table_at (s : Store) (et : option ptr) : option Table :=
  match et with
  | Some tp => tables s !! tp
  | None => None
  end.

Definition read_table (et : option ptr) : M (option Table) :=
  fun s => Ok (table_at s et, s).

(** [*et], for field access. *)
Definition deref_table (et : option ptr) : M Table :=
  fun s => match table_at s et with
           | Some t => Ok (t, s)
           | None => Err NilDereference
           end.

Definition alloc_table (t : Table) : M ptr :=
  fun s => Ok (length (tables s),
               {| arrays := arrays s; tables := tables s ++ [t]; views := views s |}).

(** [make([]int, n)]. *)
Definition make (n : nat) : M slice :=
  fun s => Ok ({| arr := length (arrays s); off := 0%nat; len := n; cap := n |},
               {| arrays := arrays s ++ [replicate n 0]; tables := tables s;
                  views := views s |}).

(** [sl[i]]. *)
Definition slice_get (sl : slice) (i : nat) : M Z :=
  fun s => if (i <? len sl)%nat
           then match arrays s !! arr sl with
                | Some a => match a !! (off sl + i)%nat with
                            | Some v => Ok (v, s)
                            | None => Err IndexOutOfRange
                            end
                | None => Err IndexOutOfRange
                end
           else Err IndexOutOfRange.

(** [sl[i] = v]. *)
Definition slice_set (sl : slice) (i : nat) (v : Z) : M unit :=
  fun s => if (i <? len sl)%nat
           then match arrays s !! arr sl with
                | Some a =>
                    if (off sl + i <? length a)%nat
                    then Ok (tt, {| arrays := <[arr sl := <[(off sl + i)%nat := v]> a]> (arrays s);
                                    tables := tables s; views := views s |})
                    else Err IndexOutOfRange
                | None => Err IndexOutOfRange
                end
           else Err IndexOutOfRange.

(** The elements of a slice, in order. *)
Definition slice_contents (s : Store) (sl : slice) : list Z :=
  match arrays s !! arr sl with
  | Some a => take (len sl) (drop (off sl) a)
  | None => []
  end.

Definition read_slice (sl : slice) : M (list Z) :=
  fun s => Ok (slice_contents s sl, s).

(** [sl[:j]] and [sl[i:]]. *)
Definition slice_to (sl : slice) (j : nat) : M slice :=
  if (j <=? cap sl)%nat
  then ret {| arr := arr sl; off := off sl; len := j; cap := cap sl |}
  else panic SliceBounds.

Definition slice_from (sl : slice) (i : nat) : M slice :=
  if (i <=? len sl)%nat
  then ret {| arr := arr sl; off := (off sl + i)%nat; len := (len sl - i)%nat;
              cap := (cap sl - i)%nat |}
  else panic SliceBounds.

(** Writing the list [vs] into a backing array from position [pos] on. *)
Definition write_at (a : list Z) (pos : nat) (vs : list Z) : list Z :=
  take pos a ++ vs ++ drop (pos + length vs) a.

(** [append(s1, vs...)]: in place when the capacity of [s1] suffices,
    otherwise into a new backing array (whose capacity the run time
    chooses; here the length needed). *)
Definition append_vals (s1 : slice) (vs : list Z) : M slice :=
  fun s =>
    let n := (len s1 + length vs)%nat in
    if (n <=? cap s1)%nat then
      match arrays s !! arr s1 with
      | Some a =>
          Ok ({| arr := arr s1; off := off s1; len := n; cap := cap s1 |},
              {| arrays := <[arr s1 := write_at a (off s1 + len s1) vs]> (arrays s);
                 tables := tables s; views := views s |})
      | None =>
          Ok ({| arr := arr s1; off := off s1; len := n; cap := cap s1 |}, s)
      end
    else
      Ok ({| arr := length (arrays s); off := 0%nat; len := n; cap := n |},
          {| arrays := arrays s ++ [slice_contents s s1 ++ vs];
             tables := tables s; views := views s |}).

(** [append(s1, s2...)]. *)
Definition append (s1 s2 : slice) : M slice :=
  (vs <- read_slice s2 ;; append_vals s1 vs)%M.

(** ** Package sort of the Go standard library

    [IdxTable.Sort] calls [sort.Sort], which belongs to the Go standard
    library and not to the repository.  The definitions below follow
    [sort/sort.go] as it was when the source was written (2019, Go 1.12
    and 1.13): quicksort with a median-of-three or ninther pivot, a pass
    of Shell sort with gap 6 followed by insertion sort on ranges of at
    most 12 elements, and heapsort when the recursion depth is exhausted.
    The documentation of [sort.Sort] says: "The sort is not guaranteed to
    be stable."  Positions are [nat]; every loop is written by recursion
    on the number of iterations it can still make. *)

Module sort.

(** [sort.Interface]. *)
Record Interface : Type := {
  Len : M nat;
  Less : nat -> nat -> M bool;
  Swap : nat -> nat -> M unit
}.

Section Algorithms.
Variable data : Interface.

Local Open Scope nat_scope.
Local Open Scope m_scope.

(** [for j := i; j > a && data.Less(j, j-1); j-- { data.Swap(j, j-1) }] *)
Fixpoint insert_down (a j : nat) : M unit :=
  match j with
  | O => ret tt
  | S j' =>
      if a <? j then
        lt <- Less data j j' ;;
        if lt then (Swap data j j' ;;; insert_down a j') else ret tt
      else ret tt
  end.

(** [for i := a + 1; i < b; i++ { ... }], [n = b - i] iterations left. *)
Fixpoint insertion_loop (a n i : nat) : M unit :=
  match n with
  | O => ret tt
  | S n' => insert_down a i ;;; insertion_loop a n' (S i)
  end.

Definition insertionSort (a b : nat) : M unit :=
  insertion_loop a (b - (a + 1)) (a + 1).

(** The loop of [siftDown]; [root] grows at every iteration and the loop
    ends when [2*root + 1 >= hi], so [fuel = hi - root + 1] suffices. *)
Fixpoint siftDown_loop (fuel root hi first : nat) : M unit :=
  match fuel with
  | O => ret tt
  | S fuel' =>
      let child := 2 * root + 1 in
      if hi <=? child then ret tt
      else
        lt <- (if child + 1 <? hi
               then Less data (first + child) (first + child + 1)
               else ret false) ;;
        let child := if lt then child + 1 else child in
        lt' <- Less data (first + root) (first + child) ;;
        if negb lt' then ret tt
        else (Swap data (first + root) (first + child) ;;;
              siftDown_loop fuel' child hi first)
  end.

Definition siftDown (lo hi first : nat) : M unit :=
  siftDown_loop (S (hi - lo)) lo hi first.

(** [for i := (hi - 1) / 2; i >= 0; i-- { siftDown(data, i, hi, first) }],
    [n = i + 1]. *)
Fixpoint heap_build (n hi first : nat) : M unit :=
  match n with
  | O => ret tt
  | S i => siftDown i hi first ;;; heap_build i hi first
  end.

(** [for i := hi - 1; i >= 0; i-- { data.Swap(first, first+i);
    siftDown(data, lo, i, first) }], [n = i + 1]. *)
Fixpoint heap_pop (n lo first : nat) : M unit :=
  match n with
  | O => ret tt
  | S i =>
      Swap data first (first + i) ;;;
      siftDown lo i first ;;;
      heap_pop i lo first
  end.

Definition heapSort (a b : nat) : M unit :=
  let first := a in
  let lo := 0 in
  let hi := b - a in
  heap_build (S ((hi - 1) / 2)) hi first ;;;
  heap_pop hi lo first.

(** [medianOfThree(data, m1, m0, m2)]. *)
Definition medianOfThree (m1 m0 m2 : nat) : M unit :=
  lt <- Less data m1 m0 ;;
  (if lt then Swap data m1 m0 else ret tt) ;;;
  lt2 <- Less data m2 m1 ;;
  if lt2 then
    Swap data m2 m1 ;;;
    lt3 <- Less data m1 m0 ;;
    if lt3 then Swap data m1 m0 else ret tt
  else ret tt.

(** [for ; a < c && data.Less(a, pivot); a++ {}], [n = c - a]; the result
    is the final [a]. *)
Fixpoint skip_less (pivot n a : nat) : M nat :=
  match n with
  | O => ret a
  | S n' =>
      lt <- Less data a pivot ;;
      if lt then skip_less pivot n' (S a) else ret a
  end.

(** [for ; b < c && !data.Less(pivot, b); b++ {}], [n = c - b]. *)
Fixpoint skip_not_greater (pivot n b : nat) : M nat :=
  match n with
  | O => ret b
  | S n' =>
      lt <- Less data pivot b ;;
      if negb lt then skip_not_greater pivot n' (S b) else ret b
  end.

(** [for ; b < c && data.Less(pivot, c-1); c-- {}], [n = c - b]; the
    result is the final [c]. *)
Fixpoint skip_greater (pivot n c : nat) : M nat :=
  match n with
  | O => ret c
  | S n' =>
      lt <- Less data pivot (c - 1) ;;
      if lt then skip_greater pivot n' (c - 1) else ret c
  end.

(** The partitioning loop of [doPivot]; every iteration but the last
    moves [b] and [c] towards each other, so [fuel = c - b] suffices
    (with none left, [b >= c] and the loop has ended). *)
Fixpoint partition_loop (fuel pivot b c : nat) : M (nat * nat) :=
  match fuel with
  | O => ret (b, c)
  | S fuel' =>
      b1 <- skip_not_greater pivot (c - b) b ;;
      c1 <- skip_greater pivot (c - b1) c ;;
      if c1 <=? b1 then ret (b1, c1)
      else (Swap data b1 (c1 - 1) ;;;
            partition_loop fuel' pivot (S b1) (c1 - 1))
  end.

(** [for ; a < b && !data.Less(b-1, pivot); b-- {}], [n = b - a]. *)
Fixpoint skip_equal_down (pivot n b : nat) : M nat :=
  match n with
  | O => ret b
  | S n' =>
      lt <- Less data (b - 1) pivot ;;
      if negb lt then skip_equal_down pivot n' (b - 1) else ret b
  end.

(** The loop that protects against many duplicates; [fuel = b - a]. *)
Fixpoint protect_loop (fuel pivot a b : nat) : M (nat * nat) :=
  match fuel with
  | O => ret (a, b)
  | S fuel' =>
      b1 <- skip_equal_down pivot (b - a) b ;;
      a1 <- skip_less pivot (b1 - a) a ;;
      if b1 <=? a1 then ret (a1, b1)
      else (Swap data a1 (b1 - 1) ;;;
            protect_loop fuel' pivot (S a1) (b1 - 1))
  end.

(** [doPivot(data, lo, hi)]. *)
Definition doPivot (lo hi : nat) : M (nat * nat) :=
  let m := (lo + hi) / 2 in
  (if 40 <? hi - lo then
     let s := (hi - lo) / 8 in
     medianOfThree lo (lo + s) (lo + 2 * s) ;;;
     medianOfThree m (m - s) (m + s) ;;;
     medianOfThree (hi - 1) (hi - 1 - s) (hi - 1 - 2 * s)
   else ret tt) ;;;
  medianOfThree lo m (hi - 1) ;;;
  let pivot := lo in
  let a := lo + 1 in
  let c := hi - 1 in
  a <- skip_less pivot (c - a) a ;;
  let b := a in
  bc <- partition_loop (S (c - b)) pivot b c ;;
  let b := fst bc in
  let c := snd bc in
  let protect := hi - c <? 5 in
  pbc <- (if negb protect && (hi - c <? (hi - lo) / 4) then
            (* Lets test some points for equality to pivot *)
            lt1 <- Less data pivot (hi - 1) ;;
            cd <- (if negb lt1
                   then (Swap data c (hi - 1) ;;; ret (c + 1, 1))
                   else ret (c, 0)) ;;
            let c := fst cd in
            let dups := snd cd in
            lt2 <- Less data (b - 1) pivot ;;
            let b' := if negb lt2 then b - 1 else b in
            let dups := if negb lt2 then dups + 1 else dups in
            lt3 <- Less data m pivot ;;
            bd <- (if negb lt3
                   then (Swap data m (b' - 1) ;;; ret (b' - 1, dups + 1))
                   else ret (b', dups)) ;;
            ret (1 <? snd bd, fst bd, c)
          else ret (protect, b, c)) ;;
  let protect := fst (fst pbc) in
  let b := snd (fst pbc) in
  let c := snd pbc in
  b <- (if protect then
          ab <- protect_loop (S (b - a)) pivot a b ;;
          ret (snd ab)
        else ret b) ;;
  (* Swap pivot into middle *)
  Swap data pivot (b - 1) ;;;
  ret (b - 1, c).

(** The Shell sort pass with gap 6:
    [for i := a + 6; i < b; i++ { if data.Less(i, i-6) { data.Swap(i, i-6) } }],
    [n = b - i]. *)
Fixpoint shell_pass (n i : nat) : M unit :=
  match n with
  | O => ret tt
  | S n' =>
      lt <- Less data i (i - 6) ;;
      (if lt then Swap data i (i - 6) else ret tt) ;;;
      shell_pass n' (S i)
  end.

(** [quickSort(data, a, b, maxDepth)].  The source loops
    [for b-a > 12 { ... }], sorting the smaller part by a recursive call
    and the larger one by going round the loop with the decremented
    [maxDepth]; going round the loop is the second call here. *)
Fixpoint quickSort (maxDepth a b : nat) : M unit :=
  if 12 <? b - a then
    match maxDepth with
    | O => heapSort a b
    | S maxDepth' =>
        mm <- doPivot a b ;;
        let mlo := fst mm in
        let mhi := snd mm in
        if mlo - a <? b - mhi then
          quickSort maxDepth' a mlo ;;;
          quickSort maxDepth' mhi b
        else
          quickSort maxDepth' mhi b ;;;
          quickSort maxDepth' a mlo
    end
  else if 1 <? b - a then
    shell_pass (b - (a + 6)) (a + 6) ;;;
    insertionSort a b
  else ret tt.

(** [for i := n; i > 0; i >>= 1 { depth++ }]; [i] halves, so [fuel = n]
    suffices. *)
Fixpoint maxDepth_loop (fuel i depth : nat) : nat :=
  match fuel with
  | O => depth
  | S fuel' => if 0 <? i then maxDepth_loop fuel' (i / 2) (S depth) else depth
  end.

Definition maxDepth (n : nat) : nat := maxDepth_loop n n 0 * 2.

(** [sort.Sort(data)]. *)
Definition Sort : M unit :=
  n <- Len data ;;
  quickSort (maxDepth n) 0 n.

End Algorithms.
End sort.

(** ** The indexed view, [etable/idxtable.go] *)

Local Open Scope m_scope.

Definition set_Table (p : ptr) (et : option ptr) : M unit :=
  ix <- get_view p ;;
  set_view p {| ix_Table := et; ix_Idxs := ix_Idxs ix; ix_lessFunc := ix_lessFunc ix |}.

Definition set_Idxs (p : ptr) (sl : slice) : M unit :=
  ix <- get_view p ;;
  set_view p {| ix_Table := ix_Table ix; ix_Idxs := sl; ix_lessFunc := ix_lessFunc ix |}.

Definition set_lessFunc (p : ptr) (f : LessFunc) : M unit :=
  ix <- get_view p ;;
  set_view p {| ix_Table := ix_Table ix; ix_Idxs := ix_Idxs ix; ix_lessFunc := Some f |}.

(** [for i := range ix.Idxs { ix.Idxs[i] = i }], [n] iterations left. *)
Fixpoint Sequential_loop (p : ptr) (n i : nat) : M unit :=
  match n with
  | O => ret tt
  | S n' =>
      ix <- get_view p ;;
      slice_set (ix_Idxs ix) i (Z.of_nat i) ;;;
      Sequential_loop p n' (S i)
  end.

(** [Sequential], lines 53-62. *)
Definition Sequential (p : ptr) : M unit :=
  ix <- get_view p ;;
  match ix_Table ix with
  | None => set_Idxs p nil_slice
  | Some tp =>
      t <- deref_table (Some tp) ;;
      sl <- make (Rows t) ;;
      set_Idxs p sl ;;;
      ix' <- get_view p ;;
      Sequential_loop p (len (ix_Idxs ix')) 0
  end.

(** [SetTable], lines 47-50. *)
Definition SetTable (p : ptr) (et : option ptr) : M unit :=
  set_Table p et ;;;
  Sequential p.

(** [NewIdxTable], lines 40-44. *)
Definition NewIdxTable (et : option ptr) : M ptr :=
  p <- new_view ;;
  SetTable p et ;;;
  ret p.

(** [AddIndex], lines 65-67. *)
Definition AddIndex (p : ptr) (idx : Z) : M unit :=
  ix <- get_view p ;;
  sl <- append_vals (ix_Idxs ix) [idx] ;;
  set_Idxs p sl.

(** [Len], [Less], [Swap], lines 222-234. *)
Definition Len (p : ptr) : M nat :=
  ix <- get_view p ;;
  ret (len (ix_Idxs ix)).

Definition Less (p : ptr) (i j : nat) : M bool :=
  ix <- get_view p ;;
  et <- read_table (ix_Table ix) ;;
  ri <- slice_get (ix_Idxs ix) i ;;
  rj <- slice_get (ix_Idxs ix) j ;;
  match ix_lessFunc ix with
  | Some lessFunc => lift (lessFunc et ri rj)
  | None => panic NilDereference
  end.

Definition Swap (p : ptr) (i j : nat) : M unit :=
  ix <- get_view p ;;
  vj <- slice_get (ix_Idxs ix) j ;;
  vi <- slice_get (ix_Idxs ix) i ;;
  slice_set (ix_Idxs ix) i vj ;;;
  slice_set (ix_Idxs ix) j vi.

(** [*IdxTable] as a [sort.Interface]. *)
Definition as_Interface (p : ptr) : sort.Interface :=
  {| sort.Len := Len p; sort.Less := Less p; sort.Swap := Swap p |}.

(** [Sort], lines 72-75. *)
Definition Sort (p : ptr) (lessFunc : LessFunc) : M unit :=
  set_lessFunc p lessFunc ;;;
  sort.Sort (as_Interface p).

(** [a < b] and [a > b] on the values of two calls that may panic,
    evaluated left to right. *)
Definition cmp2 {A} (rel : A -> A -> bool) (x y : Result A) : Result bool :=
  (a <- x ;; b <- y ;; Ok (rel a b))%res.

Definition str_lt (a b : string) : bool := String.ltb a b.
Definition str_gt (a b : string) : bool := String.ltb b a.

(** The comparator that [SortCols] hands to [Sort], lines 105-139.  The
    closure reads [ix.Table], which is the table [Less] passes as [et]. *)
Fixpoint SortCols_less (colIdxs : list Z) (ascending : bool)
    (et : option Table) (i j : Z) : Result bool :=
  match colIdxs with
  | [] => Ok false
  | ci :: rest =>
      (t <- match et with Some t => Ok t | None => Err NilDereference end ;;
       cl <- index (Cols t) ci ;;
       match ColType cl with
       | STRING =>
           if ascending then
             lt <- cmp2 str_lt (StringVal1D cl i) (StringVal1D cl j) ;;
             if lt then Ok true
             else
               gt <- cmp2 str_gt (StringVal1D cl i) (StringVal1D cl j) ;;
               if gt then Ok false
               else SortCols_less rest ascending et i j
           else
             gt <- cmp2 str_gt (StringVal1D cl i) (StringVal1D cl j) ;;
             if gt then Ok true
             else
               lt <- cmp2 str_lt (StringVal1D cl i) (StringVal1D cl j) ;;
               if lt then Ok false
               else SortCols_less rest ascending et i j
       | NUMERIC =>
           if ascending then
             lt <- cmp2 F64.ltb (FloatVal1D cl i) (FloatVal1D cl j) ;;
             if lt then Ok true
             else
               lt' <- cmp2 F64.ltb (FloatVal1D cl i) (FloatVal1D cl j) ;;
               if lt' then Ok false
               else SortCols_less rest ascending et i j
           else
             gt <- cmp2 F64.gtb (FloatVal1D cl i) (FloatVal1D cl j) ;;
             if gt then Ok true
             else
               lt <- cmp2 F64.ltb (FloatVal1D cl i) (FloatVal1D cl j) ;;
               if lt then Ok false
               else SortCols_less rest ascending et i j
       end)%res
  end.

(** [SortCols], lines 104-140. *)
Definition SortCols (p : ptr) (colIdxs : list Z) (ascending : bool) : M unit :=
  Sort p (SortCols_less colIdxs ascending).

(** [for i := sz - 1; i >= 0; i-- { ... }] of [Filter], [n = i + 1]. *)
Fixpoint Filter_loop (p : ptr) (filterFunc : FilterFunc) (n : nat) : M unit :=
  match n with
  | O => ret tt
  | S i =>
      ix <- get_view p ;;
      et <- read_table (ix_Table ix) ;;
      row <- slice_get (ix_Idxs ix) i ;;
      (if negb (filterFunc et row) then (* delete *)
         s1 <- slice_to (ix_Idxs ix) i ;;
         s2 <- slice_from (ix_Idxs ix) (i + 1) ;;
         sl <- append s1 s2 ;;
         set_Idxs p sl
       else ret tt) ;;;
      Filter_loop p filterFunc i
  end.

(** [Filter], lines 145-152. *)
Definition Filter (p : ptr) (filterFunc : FilterFunc) : M unit :=
  ix <- get_view p ;;
  let sz := len (ix_Idxs ix) in
  Filter_loop p filterFunc sz.

(** [for i, srw := range ix.Idxs { tcl.CopyCellsFrom(scl, i*csz, srw*csz, csz) }];
    the calls made are logged. *)
Fixpoint copy_rows (ci : nat) (scl : Column) (csz : nat) (idxs : list Z) (i : nat)
    (tcl : Column) (log : list CopyCall) : Result (Column * list CopyCall) :=
  match idxs with
  | [] => Ok (tcl, log)
  | srw :: rest =>
      (let to := wrap64 (Z.of_nat i * Z.of_nat csz) in
       let start := wrap64 (srw * Z.of_nat csz) in
       tcl' <- CopyCellsFrom tcl scl to start (Z.of_nat csz) ;;
       copy_rows ci scl csz rest (S i) tcl'
         (log ++ [ {| cc_col := ci; cc_to := to; cc_start := start;
                      cc_n := Z.of_nat csz |} ]))%res
  end.

(** [for ci := range nt.Cols { ... }] of [NewTable]: [ntcols] are the
    columns of [nt] from position [ci] on. *)
Fixpoint copy_cols (srccols : list Column) (idxs : list Z) (ci : nat)
    (ntcols : list Column) (log : list CopyCall)
    : Result (list Column * list CopyCall) :=
  match ntcols with
  | [] => Ok ([], log)
  | tcl :: rest =>
      (scl <- index srccols (Z.of_nat ci) ;;
       let csz := snd (RowCellSize tcl) in
       r <- copy_rows ci scl csz idxs 0 tcl log ;;
       r' <- copy_cols srccols idxs (S ci) rest (snd r) ;;
       Ok (fst r :: fst r', snd r'))%res
  end.

(** [NewTable], lines 156-172; beside the pointer to the new table, the
    log of the [CopyCellsFrom] calls made.  Until it is returned the new
    table is reachable through [nt] only, so it is built as a value and
    put in the store at the end. *)
Definition NewTable (p : ptr) : M (ptr * list CopyCall) :=
  ix <- get_view p ;;
  let rows := len (ix_Idxs ix) in
  t <- deref_table (ix_Table ix) ;;
  let sc := Schema t in
  let nt := New sc rows in
  if (rows =? 0)%nat then
    q <- alloc_table nt ;;
    ret (q, [])
  else
    idxs <- read_slice (ix_Idxs ix) ;;
    r <- lift (copy_cols (Cols t) idxs 0 (Cols nt) []) ;;
    q <- alloc_table {| Cols := fst r; Rows := Rows nt |} ;;
    ret (q, snd r).

(** One step of an aggregation loop: the element at flat index [k]
    updates [ag[j]] unless it is null or NaN. *)
Definition agg_step (cl : Column) (fn : AggFunc) (k : Z) (j : nat)
    (ag : list float64) : Result (list float64) :=
  (val <- FloatVal1D cl k ;;
   if negb (IsNull1D cl k) && negb (F64.IsNaN val) then
     match ag !! j with
     | Some a => Ok (<[j := fn k val a]> ag)
     | None => Err IndexOutOfRange
     end
   else Ok ag)%res.

(** [for _, srw := range ix.Idxs { ... }] of the branch [csz == 1]. *)
Fixpoint agg_single (cl : Column) (fn : AggFunc) (idxs : list Z)
    (ag : list float64) : Result (list float64) :=
  match idxs with
  | [] => Ok ag
  | srw :: rest =>
      (ag' <- agg_step cl fn srw 0 ag ;;
       agg_single cl fn rest ag')%res
  end.

(** [for j := range ag { ... }], [n] iterations left. *)
Fixpoint agg_cells (cl : Column) (fn : AggFunc) (si : Z) (n j : nat)
    (ag : list float64) : Result (list float64) :=
  match n with
  | O => Ok ag
  | S n' =>
      (ag' <- agg_step cl fn (wrap64 (si + Z.of_nat j)) j ag ;;
       agg_cells cl fn si n' (S j) ag')%res
  end.

(** [for _, srw := range ix.Idxs { si := srw * csz; ... }] of the other
    branch. *)
Fixpoint agg_multi (cl : Column) (fn : AggFunc) (csz : nat) (idxs : list Z)
    (ag : list float64) : Result (list float64) :=
  match idxs with
  | [] => Ok ag
  | srw :: rest =>
      (let si := wrap64 (srw * Z.of_nat csz) in
       ag' <- agg_cells cl fn si (length ag) 0 ag ;;
       agg_multi cl fn csz rest ag')%res
  end.

(** [AggCol], lines 178-205. *)
Definition AggCol (p : ptr) (colIdx : Z) (ini : float64) (fn : AggFunc)
    : M (list float64) :=
  ix <- get_view p ;;
  t <- deref_table (ix_Table ix) ;;
  cl <- lift (index (Cols t) colIdx) ;;
  let csz := snd (RowCellSize cl) in
  let ag := replicate csz ini in
  idxs <- read_slice (ix_Idxs ix) ;;
  if (csz =? 1)%nat then lift (agg_single cl fn idxs ag)
  else lift (agg_multi cl fn csz idxs ag).

(** [copy(dst, src)]. *)
Definition copy_ints (dst src : slice) : M nat :=
  fun s =>
    let vs := take (len dst) (slice_contents s src) in
    match arrays s !! arr dst with
    | Some a =>
        Ok (length vs,
            {| arrays := <[arr dst := write_at a (off dst) vs]> (arrays s);
               tables := tables s; views := views s |})
    | None => Ok (length vs, s)
    end.

(** [CopyFrom], lines 215-219. *)
Definition CopyFrom (p oix : ptr) : M unit :=
  o <- get_view oix ;;
  set_Table p (ix_Table o) ;;;
  o <- get_view oix ;;
  sl <- make (len (ix_Idxs o)) ;;
  set_Idxs p sl ;;;
  ix <- get_view p ;;
  o <- get_view oix ;;
  copy_ints (ix_Idxs ix) (ix_Idxs o) ;;;
  ret tt.

(** [Clone], lines 208-212. *)
Definition Clone (p : ptr) : M ptr :=
  nix <- new_view ;;
  CopyFrom nix p ;;;
  ret nix.

(** The index sequence of the view behind [p], as the program reads it. *)
Definition idxs_of (s : Store) (p : ptr) : option (list Z) :=
  match views s !! p with
  | Some ix => Some (slice_contents s (ix_Idxs ix))
  | None => None
  end.

(** ** Concrete data used in the examples *)

(** A one-dimensional numeric column holding the given integers. *)
Definition numcol (name : string) (vs : list Z) : Column :=
  {| ColName := name; ColType := NUMERIC; ColRows := length vs; CellShape := [];
     elems := map (fun z => {| fval := F64.of_Z z; sval := "" |}) vs;
     nulls := [] |}.


(** Two rows, two numeric key columns: A = [1, 2], B = [2, 1]. *)
Definition tAB : Table :=
  {| Cols := [numcol "A" [1; 2]; numcol "B" [2; 1]]; Rows := 2 |}.

(** A column of shape [[0, 2]] (no rows, cells of two elements) and a
    probe of two elements. *)
Definition empty_col32 : Metric.Float32 :=
  {| Metric.Shp32 := [0%nat; 2%nat]; Metric.Values32 := [] |}.
Definition probe32 : Metric.Float32 :=
  {| Metric.Shp32 := [2%nat]; Metric.Values32 := [F32.of_Z 1; F32.of_Z 2] |}.
Definition empty_col64 : Metric.Tensor :=
  {| Metric.DynType := Metric.IsFloat64; Metric.Shp := [0%nat; 2%nat];
     Metric.Floats := [] |}.
Definition probe64 : Metric.Tensor :=
  {| Metric.DynType := Metric.IsFloat64; Metric.Shp := [2%nat];
     Metric.Floats := [F64.of_Z 1; F64.of_Z 2] |}.

(** The fresh view of [tAB]: rows 0 and 1 in table order. *)
Definition sAB : Store :=
  {| arrays := [[0; 1]]; tables := [tAB];
     views := [ {| ix_Table := Some 0%nat;
                   ix_Idxs := {| arr := 0%nat; off := 0%nat; len := 2%nat; cap := 2%nat |};
                   ix_lessFunc := None |} ] |}.

(** A sum reducer. *)
Definition sum_agg : AggFunc := fun _ val agg => F64.add agg val.

(** ** Well-formed slices and the footprint of an operation *)

(** A slice header is well formed in a store when its capacity lies
    inside its backing array; a slice of capacity 0 (such as the nil
    slice) needs no backing array. *)
Definition wf_slice (s : Store) (sl : slice) : Prop :=
  (len sl <= cap sl)%nat /\
  (cap sl = 0%nat \/
   exists a, arrays s !! arr sl = Some a /\ (off sl + cap sl <= length a)%nat).

(** [frame p s s']: going from [s] to [s'] touched nothing but the view
    behind [p], which kept its table pointer and its backing array, and
    the contents of that backing array. *)
Definition frame (p : ptr) (s s' : Store) : Prop :=
  tables s' = tables s /\
  length (arrays s') = length (arrays s) /\
  length (views s') = length (views s) /\
  (forall q, q <> p -> views s' !! q = views s !! q) /\
  (forall ix, views s !! p = Some ix ->
     exists ix', views s' !! p = Some ix' /\
       ix_Table ix' = ix_Table ix /\
       arr (ix_Idxs ix') = arr (ix_Idxs ix) /\
       forall b, b <> arr (ix_Idxs ix) -> arrays s' !! b = arrays s !! b).

(** ** Vocabulary for the properties of [Sort] *)

(** A computation keeps a relation between the store before and after. *)
Definition preserves {A} (R : Store -> Store -> Prop) (m : M A) : Prop :=
  forall s a s', m s = Ok (a, s') -> R s s'.

(** In store [s], the computation returns [a] and leaves the store as it is. *)
Definition idle {A} (s : Store) (m : M A) (a : A) : Prop := m s = Ok (a, s).

(** The comparator that always answers "not less". *)
Definition never_less : LessFunc := fun _ _ _ => Ok false.

(** Position of the first occurrence of a row number in an index sequence. *)
Fixpoint position (x : Z) (l : list Z) : option nat :=
  match l with
  | [] => None
  | y :: l' => if x =? y then Some 0%nat else option_map S (position x l')
  end.

(** Row [x] comes before row [y] in the index sequence [l]. *)
Definition comes_before (l : list Z) (x y : Z) : bool :=
  match position x l, position y l with
  | Some i, Some j => (i <? j)%nat
  | _, _ => false
  end.

(** Stability, in the words of the description: "ties preserve prior
    relative order".  Two rows tie when neither is less than the other. *)
Definition ties_preserved (less : Z -> Z -> Result bool) (old new : list Z) : Prop :=
  forall x y,
    less x y = Ok false -> less y x = Ok false ->
    comes_before old x y = true -> comes_before new x y = true.

(** Seven rows with the numeric key k = [2, 1, 0, 0, 0, 0, 1], and the
    fresh view of them. *)
Definition t7 : Table :=
  {| Cols := [numcol "k" [2; 1; 0; 0; 0; 0; 1]]; Rows := 7 |}.

Definition s7 : Store :=
  {| arrays := [[0; 1; 2; 3; 4; 5; 6]]; tables := [t7];
     views := [ {| ix_Table := Some 0%nat;
                   ix_Idxs := {| arr := 0%nat; off := 0%nat; len := 7%nat; cap := 7%nat |};
                   ix_lessFunc := None |} ] |}.

(** ** The aggregate, in the words of the description *)

(** One element met by the aggregation: at flat index [k], the
    aggregate [acc] becomes [fn k val acc] unless the element is null or
    NaN, in which case it stays. *)
Definition slot_step (cl : Column) (fn : AggFunc) (k : Z) (acc : float64) : float64 :=
  match FloatVal1D cl k with
  | Ok val => if IsNull1D cl k || F64.IsNaN val then acc else fn k val acc
  | Err _ => acc
  end.

(** Slot [j] of the result: [initial], updated for every physical row of
    the view, in index order, by the element at flat offset
    [row * csz + j]. *)
Definition agg_slot (cl : Column) (fn : AggFunc) (csz : nat) (idxs : list Z)
    (ini : float64) (j : nat) : float64 :=
  fold_left (fun acc row => slot_step cl fn (row * Z.of_nat csz + Z.of_nat j) acc)
    idxs ini.

(** The result: one slot per cell position. *)
Definition aggregate (cl : Column) (fn : AggFunc) (csz : nat) (idxs : list Z)
    (ini : float64) : list float64 :=
  map (agg_slot cl fn csz idxs ini) (seq 0 csz).

(** Every flat index that the aggregation of the rows [idxs] reads lies
    inside the column. *)
Definition flat_in_range (cl : Column) (csz : nat) (idxs : list Z) : Prop :=
  Forall (fun row => forall j, (j < csz)%nat ->
            0 <= row * Z.of_nat csz + Z.of_nat j < Z.of_nat (length (elems cl)))
    idxs.

(** A single-cell column with the values [1.0, NaN, 3.0, null]; the null
    element stores 5.0, which must not be counted. *)
Definition col_1_NaN_3_null : Column :=
  {| ColName := "v"; ColType := NUMERIC; ColRows := 4; CellShape := [];
     elems := [ {| fval := F64.of_Z 1; sval := "1" |};
                {| fval := F64.NaN; sval := "NaN" |};
                {| fval := F64.of_Z 3; sval := "3" |};
                {| fval := F64.of_Z 5; sval := "5" |} ];
     nulls := [false; false; false; true] |}.

Definition sAgg : Store :=
  {| arrays := [[0; 1; 2; 3]];
     tables := [ {| Cols := [col_1_NaN_3_null]; Rows := 4 |} ];
     views := [ {| ix_Table := Some 0%nat;
                   ix_Idxs := {| arr := 0%nat; off := 0%nat; len := 4%nat; cap := 4%nat |};
                   ix_lessFunc := None |} ] |}.

(** ** Materialisation, in the words of the description *)

(** Table invariant: every column has the row count of the table, and
    [rows * csz] flat elements. *)
Definition wf_column (rows : nat) (cl : Column) : Prop :=
  ColRows cl = rows /\
  length (elems cl) = (rows * product (CellShape cl))%nat.

Definition wf_table (t : Table) : Prop := Forall (wf_column (Rows t)) (Cols t).

(** View invariant: every index is a physical row of the table. *)
Definition valid_rows (t : Table) (idxs : list Z) : Prop :=
  Forall (fun row => 0 <= row < Z.of_nat (Rows t)) idxs.

(** The columns of the table, and those of a table of [rows] rows with
    the same schema, have at most [2^63] flat elements (the offsets are
    64-bit integers). *)
Definition fits_int64 (t : Table) (rows : nat) : Prop :=
  Forall (fun cl => Z.of_nat (length (elems cl)) <= 2 ^ 63 /\
                    Z.of_nat (rows * product (CellShape cl)) <= 2 ^ 63) (Cols t).

(** The cell of a physical row: [csz] contiguous flat elements from
    offset [row * csz]. *)
Definition cell (scl : Column) (row : Z) : list Elem :=
  take (product (CellShape scl))
       (drop (Z.to_nat row * product (CellShape scl)) (elems scl)).

(** The cells of the rows [idxs], one after the other: cell [i] of the
    result, at offset [i * csz], is the cell of row [idxs[i]]. *)
Definition gather (scl : Column) (idxs : list Z) : list Elem :=
  concat (map (cell scl) idxs).

(** A source column as materialised through [idxs]. *)
Definition materialised (idxs : list Z) (scl : Column) : Column :=
  {| ColName := ColName scl; ColType := ColType scl;
     ColRows := length idxs; CellShape := CellShape scl;
     elems := gather scl idxs; nulls := [] |}.

(** The copy for logical position [i] of column [ci]: from source offset
    [srw * csz] to destination offset [i * csz], [csz] elements. *)
Definition copy_call (ci csz i : nat) (srw : Z) : CopyCall :=
  {| cc_col := ci; cc_to := Z.of_nat i * Z.of_nat csz;
     cc_start := srw * Z.of_nat csz; cc_n := Z.of_nat csz |}.

(** The copies for the logical positions from [i] on, and for the
    columns from [ci] on. *)
Definition copy_calls_col (ci csz i : nat) (idxs : list Z) : list CopyCall :=
  imap (fun k srw => copy_call ci csz (i + k) srw) idxs.

Definition copy_calls (ci : nat) (cols : list Column) (idxs : list Z) : list CopyCall :=
  concat (imap (fun k cl => copy_calls_col (ci + k) (product (CellShape cl)) 0 idxs) cols).






(** Identity indexes [0, 1, ..., n-1]. *)
Definition identity_idxs (n : nat) : list Z := map Z.of_nat (seq 0 n).

(** Two rows; a string column of single cells and a numeric column with
    cells of two elements, one of them marked null. *)
Definition num (z : Z) : Elem := {| fval := F64.of_Z z; sval := "" |}.

Definition tCells : Table :=
  {| Cols := [ {| ColName := "name"; ColType := STRING; ColRows := 2; CellShape := [];
                  elems := [ {| fval := F64.NaN; sval := "a" |};
                             {| fval := F64.NaN; sval := "b" |} ];
                  nulls := [] |};
               {| ColName := "xy"; ColType := NUMERIC; ColRows := 2; CellShape := [2%nat];
                  elems := [num 10; num 11; num 20; num 21];
                  nulls := [false; true; false; false] |} ];
     Rows := 2 |}.

(** A view of [tCells] with the rows 1, 0, 1. *)
Definition sCells : Store :=
  {| arrays := [[1; 0; 1]]; tables := [tCells];
     views := [ {| ix_Table := Some 0%nat;
                   ix_Idxs := {| arr := 0%nat; off := 0%nat; len := 3%nat; cap := 3%nat |};
                   ix_lessFunc := None |} ] |}.


(** ** More of the indexed view *)

(** [SortCol], lines 80-99.  The column is looked up once, before the
    sort; the comparator reads the column it has captured. *)
Definition SortCol_less (cl : Column) (ascending : bool) : LessFunc :=
  fun _ i j =>
    match ColType cl with
    | STRING =>
        if ascending
        then cmp2 str_lt (StringVal1D cl i) (StringVal1D cl j)
        else cmp2 str_gt (StringVal1D cl i) (StringVal1D cl j)
    | NUMERIC =>
        if ascending
        then cmp2 F64.ltb (FloatVal1D cl i) (FloatVal1D cl j)
        else cmp2 F64.gtb (FloatVal1D cl i) (FloatVal1D cl j)
    end.

Definition SortCol (p : ptr) (colIdx : Z) (ascending : bool) : M unit :=
  ix <- get_view p ;;
  t <- deref_table (ix_Table ix) ;;
  cl <- lift (index (Cols t) colIdx) ;;
  Sort p (SortCol_less cl ascending).

(** ** Vocabulary for total correctness *)

(** From every store that satisfies [I], the computation returns a value
    that satisfies [Q], in a store that satisfies [I] again: it does not
    panic. *)
Definition runs {A} (I : Store -> Prop) (m : M A) (Q : A -> Prop) : Prop :=
  forall s, I s -> exists a s', m s = Ok (a, s') /\ I s' /\ Q a.

(** ** More concrete data *)

(** A view of [t7] with the rows 2, 3, 4, 5, whose keys are all 0. *)
Definition sTies : Store :=
  {| arrays := [[2; 3; 4; 5]]; tables := [t7];
     views := [ {| ix_Table := Some 0%nat;
                   ix_Idxs := {| arr := 0%nat; off := 0%nat; len := 4%nat; cap := 4%nat |};
                   ix_lessFunc := None |} ] |}.

(** A view of [tAB] with row 1 only. *)
Definition sOne : Store :=
  {| arrays := [[1]]; tables := [tAB];
     views := [ {| ix_Table := Some 0%nat;
                   ix_Idxs := {| arr := 0%nat; off := 0%nat; len := 1%nat; cap := 1%nat |};
                   ix_lessFunc := None |} ] |}.

(** Two views of [tAB]: view 0 with the rows 0, 1 and view 1 with row 1
    and a comparator. *)
Definition sTwo : Store :=
  {| arrays := [[0; 1]; [1]]; tables := [tAB];
     views := [ {| ix_Table := Some 0%nat;
                   ix_Idxs := {| arr := 0%nat; off := 0%nat; len := 2%nat; cap := 2%nat |};
                   ix_lessFunc := None |};
                {| ix_Table := Some 0%nat;
                   ix_Idxs := {| arr := 1%nat; off := 0%nat; len := 1%nat; cap := 1%nat |};
                   ix_lessFunc := Some never_less |} ] |}.

(** ** The nearest row *)

(** The metric value of row [ri]: [mfun] on the probe and the cell of the
    row, the [csz] elements from offset [ri * csz]. *)
Definition row_metric {F} (mfun : list F -> list F -> F) (pvals cvals : list F)
    (csz ri : nat) : F :=
  mfun pvals (take csz (drop (ri * csz) cvals)).

(** [math.IsNaN] on the float model, for float64 and float32 alike. *)
Definition is_NaN (x : spec_float) : bool :=
  match x with S754_nan => true | _ => false end.

(** [(ci, minv)] is the nearest of the rows below [rows], whose metric
    values are [v 0, v 1, ...]: either no row has a value less than [maxv]
    and [ci] is -1, or [ci] is the first row with the least value, which is
    less than [maxv]: no row has a value less than it, and every row before
    it has a greater value or NaN. *)
Definition closest {F} (ltb : F -> F -> bool) (isnan : F -> bool) (maxv : F)
    (v : nat -> F) (rows : nat) (ci : Z) (minv : F) : Prop :=
  (ci = -1 /\ minv = maxv /\
   forall ri, (ri < rows)%nat -> ltb (v ri) maxv = false) \/
  (exists r, ci = Z.of_nat r /\ (r < rows)%nat /\ minv = v r /\
             ltb minv maxv = true /\
             (forall ri, (ri < rows)%nat -> ltb (v ri) minv = false) /\
             (forall ri, (ri < r)%nat -> ltb minv (v ri) = true \/ isnan (v ri) = true)).

(** Three rows of two elements. *)
Definition col3x2_32 : Metric.Float32 :=
  {| Metric.Shp32 := [3%nat; 2%nat];
     Metric.Values32 := [F32.of_Z 5; F32.of_Z 5; F32.of_Z 1; F32.of_Z 2;
                         F32.of_Z 1; F32.of_Z 2] |}.

(** The sum of the squared differences, in float64 and in float32. *)
Definition sq_dist (prec emax : Z) (a b : list spec_float) : spec_float :=
  fold_left (fun acc xy =>
               SFadd prec emax acc
                 (SFmul prec emax (SFsub prec emax (fst xy) (snd xy))
                                  (SFsub prec emax (fst xy) (snd xy))))
    (combine a b) (S754_zero false).

(** A view of [tAB] with the indexes 0, 5, 1: the table has no row 5. *)
Definition sBad : Store :=
  {| arrays := [[0; 5; 1]]; tables := [tAB];
     views := [ {| ix_Table := Some 0%nat;
                   ix_Idxs := {| arr := 0%nat; off := 0%nat; len := 3%nat; cap := 3%nat |};
                   ix_lessFunc := None |} ] |}.

(** The first column of [tAB]. *)
Definition colA : Column := numcol "A" [1; 2].

(** ** Vocabulary for comparing two runs *)

(** Two computations that go the same way from related stores: both
    return the same value, in related stores, or both panic in the same
    way. *)
Definition sim {A} (R : Store -> Store -> Prop) (m1 m2 : M A) : Prop :=
  forall s1 s2, R s1 s2 ->
    match m1 s1, m2 s2 with
    | Ok (a1, s1'), Ok (a2, s2') => a1 = a2 /\ R s1' s2'
    | Err e1, Err e2 => e1 = e2
    | _, _ => False
    end.

(** Two stores that differ at most in the comparator that the view [p]
    holds, [f] in the one and [g] in the other, where the two comparators
    give the same answer on the table of the view. *)
Definition same_but_comparator (p : ptr) (f g : LessFunc) (s1 s2 : Store) : Prop :=
  arrays s1 = arrays s2 /\ tables s1 = tables s2 /\
  exists ix1 ix2,
    views s1 !! p = Some ix1 /\ views s2 !! p = Some ix2 /\
    ix_Table ix1 = ix_Table ix2 /\ ix_Idxs ix1 = ix_Idxs ix2 /\
    ix_lessFunc ix1 = Some f /\ ix_lessFunc ix2 = Some g /\
    forall x y, f (table_at s1 (ix_Table ix1)) x y = g (table_at s1 (ix_Table ix1)) x y.

(** Two outcomes of sorting the view [p] that agree: the same panic, or
    the same indexes, arrays and tables. *)
Definition same_sort_outcome (p : ptr) (r1 r2 : Result (unit * Store)) : Prop :=
  match r1, r2 with
  | Ok (_, s1), Ok (_, s2) =>
      idxs_of s1 p = idxs_of s2 p /\ arrays s1 = arrays s2 /\ tables s1 = tables s2
  | Err e1, Err e2 => e1 = e2
  | _, _ => False
  end.

(** ** Comparators as orders *)

(** A comparator under which no two rows are each less than the other:
    when it answers "less" for [i] and [j], it answers "not less" for [j]
    and [i]. *)
Definition asymmetric (less : Z -> Z -> Result bool) : Prop :=
  forall i j, less i j = Ok true -> less j i = Ok false.

(** The key columns at which the comparator of [SortCols] tests both
    directions: every key when the order is descending, the string keys
    when it is ascending. *)
Definition keys_tested_both_ways (t : Table) (colIdxs : list Z) (ascending : bool) : Prop :=
  ascending = false \/
  Forall (fun ci => forall cl, index (Cols t) ci = Ok cl -> ColType cl = STRING) colIdxs.

(** Two rows of one element, [-0] and [+0], and the metric that returns
    the element of the row. *)
Definition col_zeros : Metric.Tensor :=
  {| Metric.DynType := Metric.IsFloat64; Metric.Shp := [2%nat; 1%nat];
     Metric.Floats := [S754_zero true; S754_zero false] |}.
Definition probe1 : Metric.Tensor :=
  {| Metric.DynType := Metric.IsFloat64; Metric.Shp := [1%nat];
     Metric.Floats := [F64.zero] |}.
Definition cell_value (p c : list spec_float) : spec_float :=
  match c with x :: _ => x | [] => S754_nan end.


(** * Properties *)

(** ** The monads *)

Lemma bind_ok {A B} (m : M A) (k : A -> M B) s a s' :
  m s = Ok (a, s') -> bind m k s = k a s'.
Proof. intros H. unfold bind. now rewrite H. Qed.

Lemma bind_inv {A B} (m : M A) (k : A -> M B) s b s'' :
  bind m k s = Ok (b, s'') ->
  exists a s', m s = Ok (a, s') /\ k a s' = Ok (b, s'').
Proof.
  unfold bind. destruct (m s) as [[a s']|e]; [|discriminate].
  intros H. now exists a, s'.
Qed.

Lemma lift_ok {A} (r : Result A) a s : r = Ok a -> lift r s = Ok (a, s).
Proof. intros ->. reflexivity. Qed.

Lemma index_ok {A} (l : list A) (i : nat) a :
  l !! i = Some a -> index l (Z.of_nat i) = Ok a.
Proof.
  intros H. unfold index.
  destruct (Z.ltb_spec (Z.of_nat i) 0); [lia|].
  now rewrite Nat2Z.id, H.
Qed.

Lemma index_out_of_range {A} (l : list A) (i : Z) :
  i < 0 \/ Z.of_nat (length l) <= i -> index l i = Err IndexOutOfRange.
Proof.
  intros H. unfold index.
  destruct (Z.ltb_spec i 0); [reflexivity|].
  rewrite (proj2 (lookup_ge_None l (Z.to_nat i))); [reflexivity|lia].
Qed.

Lemma wrap64_small z : in_int64 z -> wrap64 z = z.
Proof.
  unfold in_int64, wrap64. intros H.
  rewrite Z.mod_small; lia.
Qed.

(** ** Nearest row *)

Section ClosestFacts.
Context {F : Type} (ltb : F -> F -> bool) (mfun : list F -> list F -> F).

(** With the cells of all remaining rows inside the column, the row loop
    examines each of them once, in order, and ends with a result. *)
Lemma row_loop_total (pvals cvals : list F) (csz : nat) :
  forall n ri ci minv log,
    ((ri + n) * csz <= length cvals)%nat ->
    exists r m,
      Metric.row_loop ltb mfun pvals cvals csz n ri ci minv log
      = {| Metric.outcome := Ok (r, m); Metric.examined := log ++ seq ri n |}.
Proof.
  induction n as [|n IH]; intros ri ci minv log Hlen; simpl.
  - exists ci, minv. now rewrite app_nil_r.
  - unfold subslice.
    assert (Hb : ((ri * csz <=? ri * csz + csz) && (ri * csz + csz <=? length cvals))%nat = true).
    { apply andb_true_iff. split; apply Nat.leb_le; nia. }
    rewrite Hb.
    destruct (ltb _ minv).
    + destruct (IH (S ri) (Z.of_nat ri) (mfun pvals (take (ri * csz + csz - ri * csz) (drop (ri * csz) cvals))) (log ++ [ri])) as (r & m & ->); [nia|].
      exists r, m. now rewrite <- app_assoc.
    + destruct (IH (S ri) ci minv (log ++ [ri])) as (r & m & ->); [nia|].
      exists r, m. now rewrite <- app_assoc.
Qed.
End ClosestFacts.

Lemma div_mul_le (a b : nat) : (b <> 0 -> b * (a / b) <= a)%nat.
Proof. intros H. now apply Nat.Div0.mul_div_le. Qed.

(** On a column that has rows, a probe whose size is not the cell size
    makes [ClosestRow32] panic before any row is examined. *)
Lemma ClosestRow32_mismatch probe col mfun rows :
  Metric.Dim32 col 0 = Ok rows -> rows <> 0%nat ->
  (Metric.Len32 col / rows)%nat <> Metric.Len32 probe ->
  Metric.ClosestRow32 probe col mfun = Metric.panics (PanicMsg Metric.mismatch32).
Proof.
  intros Hd Hr Hne. unfold Metric.ClosestRow32, Metric.int_div. rewrite Hd.
  destruct (Nat.eqb_spec rows 0); [contradiction|].
  destruct (Nat.eqb_spec (Metric.Len32 col / rows) (Metric.Len32 probe)); [contradiction|].
  reflexivity.
Qed.

(** On a column that has rows, a probe of the cell size gets a result,
    every row having been examined once. *)
Lemma ClosestRow32_match probe col mfun rows :
  Metric.Dim32 col 0 = Ok rows -> rows <> 0%nat ->
  (Metric.Len32 col / rows)%nat = Metric.Len32 probe ->
  exists r m, Metric.ClosestRow32 probe col mfun
              = {| Metric.outcome := Ok (r, m); Metric.examined := seq 0 rows |}.
Proof.
  intros Hd Hr He. unfold Metric.ClosestRow32, Metric.int_div. rewrite Hd.
  destruct (Nat.eqb_spec rows 0); [contradiction|].
  destruct (Nat.eqb_spec (Metric.Len32 col / rows) (Metric.Len32 probe)); [|contradiction].
  simpl negb. cbv iota.
  apply (row_loop_total F32.ltb mfun (Metric.Values32 probe) (Metric.Values32 col)
           (Metric.Len32 col / rows) rows 0 (-1) F32.MaxFloat32 []).
  pose proof (div_mul_le (Metric.Len32 col) rows Hr). unfold Metric.Len32 in *. simpl. lia.
Qed.

Lemma ClosestRow64_mismatch probe col mfun rows :
  Metric.Dim col 0 = Ok rows -> rows <> 0%nat ->
  (Metric.Len col / rows)%nat <> Metric.Len probe ->
  Metric.ClosestRow64 probe col mfun = Metric.panics (PanicMsg Metric.mismatch64).
Proof.
  intros Hd Hr Hne. unfold Metric.ClosestRow64, Metric.int_div. rewrite Hd.
  destruct (Nat.eqb_spec rows 0); [contradiction|].
  destruct (Nat.eqb_spec (Metric.Len col / rows) (Metric.Len probe)); [contradiction|].
  reflexivity.
Qed.

Lemma ClosestRow64_match probe col mfun rows :
  Metric.Dim col 0 = Ok rows -> rows <> 0%nat ->
  (Metric.Len col / rows)%nat = Metric.Len probe ->
  exists r m, Metric.ClosestRow64 probe col mfun
              = {| Metric.outcome := Ok (r, m); Metric.examined := seq 0 rows |}.
Proof.
  intros Hd Hr He. unfold Metric.ClosestRow64, Metric.int_div. rewrite Hd.
  destruct (Nat.eqb_spec rows 0); [contradiction|].
  destruct (Nat.eqb_spec (Metric.Len col / rows) (Metric.Len probe)); [|contradiction].
  simpl negb. cbv iota.
  pose proof (div_mul_le (Metric.Len col) rows Hr) as Hle.
  unfold Metric.Len, Metric.Values in *.
  destruct (Metric.is_Float64 probe), (Metric.is_Float64 col); simpl;
    apply (row_loop_total F64.ltb mfun); simpl; lia.
Qed.

(** C9, at the input where the code departs from it: a column of shape
    [[0, 2]] has cells of two elements and the probe has two elements, so
    the sizes match; yet both functions panic, with an integer division
    by zero in [csz := col.Len() / rows], whatever the metric function. *)
Theorem ClosestRow_zero_rows_divides_by_zero :
  Metric.Dim32 empty_col32 1 = Ok (Metric.Len32 probe32) /\
  Metric.Dim empty_col64 1 = Ok (Metric.Len probe64) /\
  (forall mfun, Metric.ClosestRow32 probe32 empty_col32 mfun = Metric.panics DivideByZero) /\
  (forall mfun, Metric.ClosestRow64 probe64 empty_col64 mfun = Metric.panics DivideByZero).
Proof. repeat split. Qed.

(** ** Aggregation: the column index *)

(** C6: on a view that has a table, [AggCol] with a column index that is
    negative or not below [len(Table.Cols)] panics with index out of
    range; nothing is read and no result is produced. *)
Theorem AggCol_column_out_of_range (s : Store) (p : ptr) (ix : IdxTable)
    (t : Table) (colIdx : Z) (ini : float64) (fn : AggFunc) :
  views s !! p = Some ix ->
  table_at s (ix_Table ix) = Some t ->
  colIdx < 0 \/ Z.of_nat (length (Cols t)) <= colIdx ->
  AggCol p colIdx ini fn s = Err IndexOutOfRange.
Proof.
  intros Hv Ht Hc. unfold AggCol, bind, get_view, deref_table, lift.
  rewrite Hv, Ht, (index_out_of_range _ _ Hc). reflexivity.
Qed.

Lemma AggCol_column_out_of_range_witness :
  views sAB !! 0%nat = Some {| ix_Table := Some 0%nat;
                               ix_Idxs := {| arr := 0%nat; off := 0%nat; len := 2%nat; cap := 2%nat |};
                               ix_lessFunc := None |} /\
  table_at sAB (Some 0%nat) = Some tAB /\
  (2 < 0 \/ Z.of_nat (length (Cols tAB)) <= 2) /\
  AggCol 0%nat 2 F64.zero sum_agg sAB = Err IndexOutOfRange.
Proof.
  split; [reflexivity|]. split; [reflexivity|].
  split; [right; simpl; lia|].
  eapply (AggCol_column_out_of_range sAB 0%nat _ tAB); [reflexivity|reflexivity|].
  right; simpl; lia.
Defined.

(** ** The comparator of [SortCols] *)

Section ComparatorSteps.
Variables (t : Table) (ci : Z) (cl : Column) (rest : list Z) (i j : Z).
Hypothesis Hcl : index (Cols t) ci = Ok cl.

(** One key of the comparator on a string column: decided by the key
    unless the two strings are equal. *)
Lemma SortCols_less_string_step (ascending : bool) (a b : string) :
  ColType cl = STRING ->
  StringVal1D cl i = Ok a -> StringVal1D cl j = Ok b ->
  SortCols_less (ci :: rest) ascending (Some t) i j
  = if ascending
    then (if str_lt a b then Ok true
          else if str_gt a b then Ok false
               else SortCols_less rest ascending (Some t) i j)
    else (if str_gt a b then Ok true
          else if str_lt a b then Ok false
               else SortCols_less rest ascending (Some t) i j).
Proof.
  intros Hk Ha Hb. cbn [SortCols_less rbind]. rewrite Hcl. cbn [rbind].
  rewrite Hk. unfold cmp2. rewrite Ha, Hb. cbn [rbind].
  destruct ascending, (str_lt a b), (str_gt a b); reflexivity.
Qed.

(** One key on a numeric column, descending: decided by the key unless
    neither value is greater than the other. *)
Lemma SortCols_less_numeric_descending_step (a b : float64) :
  ColType cl = NUMERIC ->
  FloatVal1D cl i = Ok a -> FloatVal1D cl j = Ok b ->
  SortCols_less (ci :: rest) false (Some t) i j
  = if F64.gtb a b then Ok true
    else if F64.ltb a b then Ok false
         else SortCols_less rest false (Some t) i j.
Proof.
  intros Hk Ha Hb. cbn [SortCols_less rbind]. rewrite Hcl. cbn [rbind].
  rewrite Hk. unfold cmp2. rewrite Ha, Hb. cbn [rbind].
  destruct (F64.gtb a b), (F64.ltb a b); reflexivity.
Qed.

(** One key on a numeric column, ascending: the key answers "less" when
    the first value is smaller, and in every other case, a greater first
    value included, the comparator goes on to the next key. *)
Lemma SortCols_less_numeric_ascending_step (a b : float64) :
  ColType cl = NUMERIC ->
  FloatVal1D cl i = Ok a -> FloatVal1D cl j = Ok b ->
  SortCols_less (ci :: rest) true (Some t) i j
  = if F64.ltb a b then Ok true
    else SortCols_less rest true (Some t) i j.
Proof.
  intros Hk Ha Hb. cbn [SortCols_less rbind]. rewrite Hcl. cbn [rbind].
  rewrite Hk. unfold cmp2. rewrite Ha, Hb. cbn [rbind].
  destruct (F64.ltb a b); reflexivity.
Qed.

End ComparatorSteps.

(** When every key has been passed, the answer is "not less". *)
Lemma SortCols_less_no_key ascending et i j :
  SortCols_less [] ascending et i j = Ok false.
Proof. reflexivity. Qed.

(** C1, at an input where the code departs from it.  Table [tAB] has the
    numeric keys A = [1, 2] and B = [2, 1].  Row 1 is greater than row 0
    on the first key, so an ascending comparator has to answer "not
    less" without looking at B; the ascending numeric branch tests [<]
    twice (lines 124 and 126), goes on to B and answers "less".  Sorting
    the fresh view by [A, B] ascending then puts row 1 first, that is, A
    in descending order. *)
Theorem SortCols_less_ascending_numeric_cascades_on_greater :
  cmp2 F64.gtb (FloatVal1D (numcol "A" [1; 2]) 1) (FloatVal1D (numcol "A" [1; 2]) 0)
    = Ok true /\
  SortCols_less [0; 1] true (Some tAB) 1 0 = Ok true /\
  exists s', SortCols 0%nat [0; 1] true sAB = Ok (tt, s') /\
             idxs_of s' 0%nat = Some [1; 0].
Proof.
  split; [reflexivity|]. split; [reflexivity|].
  eexists. split; vm_compute; reflexivity.
Qed.

(** ** Slices in the store *)

Lemma frame_refl p s : frame p s s.
Proof.
  unfold frame. repeat split; auto.
  intros ix H. exists ix. auto.
Qed.

Lemma frame_trans p s1 s2 s3 : frame p s1 s2 -> frame p s2 s3 -> frame p s1 s3.
Proof.
  intros (Ht & Ha & Hv & Hq & Hp) (Ht' & Ha' & Hv' & Hq' & Hp').
  unfold frame. repeat split; try congruence.
  - intros q Hne. rewrite Hq', Hq; auto.
  - intros ix Hix. destruct (Hp ix Hix) as (ix1 & H1 & Hta & Har & Hb).
    destruct (Hp' ix1 H1) as (ix2 & H2 & Hta' & Har' & Hb').
    exists ix2. repeat split; try congruence.
    intros b Hne. rewrite Hb', Hb; congruence.
Qed.

Lemma write_at_length (a : list Z) pos vs :
  (pos + length vs <= length a)%nat -> length (write_at a pos vs) = length a.
Proof.
  intros H. unfold write_at.
  rewrite !length_app, length_take, length_drop. lia.
Qed.

(** Writing inside a window of a list only changes the window. *)
Lemma write_at_window (pre l post : list Z) k vs :
  (k + length vs <= length l)%nat ->
  write_at (pre ++ l ++ post) (length pre + k) vs = pre ++ write_at l k vs ++ post.
Proof.
  intros H. unfold write_at.
  rewrite take_app_add, drop_app_ge by lia.
  replace (length pre + k + length vs - length pre)%nat with (k + length vs)%nat by lia.
  rewrite take_app_le, drop_app_le by lia.
  now rewrite <- !app_assoc.
Qed.

Lemma window_split (a : list Z) o c :
  (o + c <= length a)%nat ->
  a = take o a ++ take c (drop o a) ++ drop (o + c) a /\
  length (take o a) = o /\ length (take c (drop o a)) = c.
Proof.
  intros H. split; [|split].
  - rewrite <- (drop_drop a c o), take_drop, take_drop. reflexivity.
  - rewrite length_take. lia.
  - rewrite length_take, length_drop. lia.
Qed.

(** The capacity window of a slice after a write at position [k] of it. *)
Lemma window_write_at (a : list Z) o c k vs :
  (o + c <= length a)%nat -> (k + length vs <= c)%nat ->
  take c (drop o (write_at a (o + k) vs)) = write_at (take c (drop o a)) k vs.
Proof.
  intros Ha Hk.
  destruct (window_split a o c Ha) as (Heq & Hpre & Hw).
  remember (take o a) as pre eqn:E1. remember (take c (drop o a)) as w eqn:E2.
  remember (drop (o + c) a) as post eqn:E3. clear E1 E2 E3.
  subst o c a.
  rewrite write_at_window by lia.
  rewrite drop_app_length.
  rewrite take_app_length'; [reflexivity|].
  rewrite write_at_length; lia.
Qed.

Lemma take_take_le {A} (l : list A) n m : (n <= m)%nat -> take n (take m l) = take n l.
Proof. intros H. rewrite take_take. f_equal. lia. Qed.

Section SliceFacts.
Variables (s : Store) (sl : slice).
Hypothesis Hwf : wf_slice s sl.

Lemma wf_slice_array i :
  (i < len sl)%nat ->
  exists a, arrays s !! arr sl = Some a /\ (off sl + cap sl <= length a)%nat.
Proof.
  intros Hi. destruct Hwf as (Hlc & [Hc|Ha]); [lia|exact Ha].
Qed.

Lemma slice_contents_length : length (slice_contents s sl) = len sl.
Proof.
  destruct Hwf as (Hlc & [Hc|(a & Ha & Hle)]); unfold slice_contents.
  - replace (len sl) with 0%nat by lia. now destruct (arrays s !! arr sl).
  - rewrite Ha, length_take, length_drop. lia.
Qed.

Lemma slice_get_ok i :
  (i < len sl)%nat ->
  exists v, slice_get sl i s = Ok (v, s) /\ slice_contents s sl !! i = Some v.
Proof.
  intros Hi. destruct (wf_slice_array i Hi) as (a & Ha & Hlen).
  destruct Hwf as (Hlc & _).
  unfold slice_get, slice_contents. rewrite Ha.
  destruct (Nat.ltb_spec i (len sl)); [|lia].
  destruct (lookup_lt_is_Some_2 a (off sl + i)) as [v Hv]; [lia|].
  exists v. rewrite Hv. split; [reflexivity|].
  rewrite lookup_take_lt, lookup_drop by lia. exact Hv.
Qed.
End SliceFacts.

Lemma slice_contents_nil s sl : len sl = 0%nat -> slice_contents s sl = [].
Proof.
  intros H. unfold slice_contents. rewrite H.
  destruct (arrays s !! arr sl); reflexivity.
Qed.

(** ** Filter *)

Lemma views_insert_frame p s ix ix' arrs' :
  views s !! p = Some ix ->
  ix_Table ix' = ix_Table ix ->
  arr (ix_Idxs ix') = arr (ix_Idxs ix) ->
  length arrs' = length (arrays s) ->
  (forall b, b <> arr (ix_Idxs ix) -> arrs' !! b = arrays s !! b) ->
  frame p s {| arrays := arrs'; tables := tables s; views := <[p := ix']> (views s) |}.
Proof.
  intros Hv Ht Ha Hl Hb. unfold frame; simpl. repeat split; auto.
  - apply length_insert.
  - intros q Hq. apply list_lookup_insert_ne. auto.
  - intros ix0 H0. rewrite Hv in H0. injection H0 as <-.
    exists ix'. repeat split; auto.
    apply list_lookup_insert_eq. eapply lookup_lt_Some; eauto.
Qed.

(** The statement [ix.Idxs = append(ix.Idxs[:i], ix.Idxs[i+1:]...)]
    removes the entry at position [i], in place. *)
Lemma delete_entry (s : Store) (p : ptr) (ix : IdxTable) (i : nat) :
  views s !! p = Some ix ->
  wf_slice s (ix_Idxs ix) ->
  (i < len (ix_Idxs ix))%nat ->
  exists s' sl',
    (s1 <- slice_to (ix_Idxs ix) i ;;
     s2 <- slice_from (ix_Idxs ix) (i + 1) ;;
     sl <- append s1 s2 ;;
     set_Idxs p sl) s = Ok (tt, s') /\
    frame p s s' /\
    views s' !! p = Some {| ix_Table := ix_Table ix; ix_Idxs := sl';
                            ix_lessFunc := ix_lessFunc ix |} /\
    wf_slice s' sl' /\
    len sl' = (len (ix_Idxs ix) - 1)%nat /\
    slice_contents s' sl'
    = take i (slice_contents s (ix_Idxs ix)) ++ drop (S i) (slice_contents s (ix_Idxs ix)).
Proof.
  intros Hv Hwf Hi.
  destruct (wf_slice_array s _ Hwf i Hi) as (a & Ha & Hlen).
  destruct Hwf as (Hlc & _).
  set (sl := ix_Idxs ix) in *.
  set (vs := take (len sl - (i + 1)) (drop (off sl + (i + 1)) a)).
  assert (Hvs : length vs = (len sl - (i + 1))%nat).
  { unfold vs. rewrite length_take, length_drop. lia. }
  assert (Harr : (arr sl < length (arrays s))%nat) by (eapply lookup_lt_Some; eauto).
  assert (Hp : (p < length (views s))%nat) by (eapply lookup_lt_Some; eauto).
  unfold slice_to, slice_from, append, read_slice, append_vals, set_Idxs,
    get_view, set_view, bind, ret.
  destruct (Nat.leb_spec i (cap sl)); [|lia].
  destruct (Nat.leb_spec (i + 1) (len sl)); [|lia].
  assert (Hc : slice_contents s {| arr := arr sl; off := (off sl + (i + 1))%nat;
                                   len := (len sl - (i + 1))%nat;
                                   cap := (cap sl - (i + 1))%nat |} = vs).
  { unfold slice_contents; cbn [arr off len cap]. now rewrite Ha. }
  rewrite Hc. cbn [arr off len cap]. rewrite Hvs.
  destruct (Nat.leb_spec (i + (len sl - (i + 1))) (cap sl)); [|lia].
  rewrite Ha. cbn [views arrays tables]. rewrite Hv.
  cbn [views arrays tables]. rewrite Hv.
  eexists _, _. split; [reflexivity|].
  assert (Hw : length (write_at a (off sl + i) vs) = length a)
    by (apply write_at_length; lia).
  split; [|split; [|split; [|split]]].
  - apply (views_insert_frame p s ix); auto.
    + apply length_insert.
    + intros b Hb. apply list_lookup_insert_ne. auto.
  - cbn [views]. apply list_lookup_insert_eq. exact Hp.
  - unfold wf_slice; cbn [arr off len cap arrays]. split; [lia|].
    right. eexists. rewrite list_lookup_insert_eq by exact Harr.
    split; [reflexivity|lia].
  - cbn [len]. lia.
  - unfold slice_contents; cbn [arr off len cap arrays].
    rewrite list_lookup_insert_eq by exact Harr. rewrite Ha.
    rewrite <- (take_take_le _ (i + (len sl - (i + 1))) (cap sl)) by lia.
    rewrite window_write_at by lia.
    unfold write_at. rewrite app_assoc, take_app_length'.
    2:{ rewrite length_app, length_take, length_take, length_drop. lia. }
    f_equal.
    + rewrite !take_take. f_equal. lia.
    + unfold vs. rewrite <- (drop_drop a (i + 1) (off sl)).
      rewrite take_drop_commute. f_equal; [lia|]. f_equal. lia.
Qed.

Lemma filter_snoc {A} (g : A -> bool) l x :
  List.filter g (l ++ [x]) = List.filter g l ++ (if g x then [x] else []).
Proof. rewrite List.filter_app. reflexivity. Qed.

Lemma filter_idempotent {A} (g : A -> bool) l :
  List.filter g (List.filter g l) = List.filter g l.
Proof.
  induction l as [|x l IH]; simpl; [reflexivity|].
  destruct (g x) eqn:E; simpl; [rewrite E|]; congruence.
Qed.

Lemma frame_table_at p s s' ix ix' :
  frame p s s' -> views s !! p = Some ix -> views s' !! p = Some ix' ->
  table_at s' (ix_Table ix') = table_at s (ix_Table ix).
Proof.
  intros (Ht & _ & _ & _ & Hp) Hv Hv'.
  destruct (Hp ix Hv) as (ix1 & H1 & Hta & _).
  rewrite Hv' in H1. injection H1 as <-.
  unfold table_at. now rewrite Hta, Ht.
Qed.

(** The reverse loop of [Filter], after its iterations for the positions
    below [n]: the entries below [n] that pass the predicate, followed by
    the entries from [n] on. *)
Lemma Filter_loop_spec (p : ptr) (f : FilterFunc) :
  forall n s ix,
    views s !! p = Some ix ->
    wf_slice s (ix_Idxs ix) ->
    (n <= len (ix_Idxs ix))%nat ->
    exists s' ix',
      Filter_loop p f n s = Ok (tt, s') /\
      frame p s s' /\
      views s' !! p = Some ix' /\
      wf_slice s' (ix_Idxs ix') /\
      slice_contents s' (ix_Idxs ix')
      = List.filter (f (table_at s (ix_Table ix))) (take n (slice_contents s (ix_Idxs ix)))
        ++ drop n (slice_contents s (ix_Idxs ix)).
Proof.
  induction n as [|i IH]; intros s ix Hv Hwf Hn.
  - exists s, ix. simpl. rewrite drop_0.
    split; [reflexivity|]. split; [apply frame_refl|]. auto.
  - cbn [Filter_loop].
    rewrite (bind_ok _ _ s ix s) by (unfold get_view; now rewrite Hv).
    rewrite (bind_ok _ _ s (table_at s (ix_Table ix)) s) by reflexivity.
    destruct (slice_get_ok s _ Hwf i) as (v & Hget & Hvl); [lia|].
    rewrite (bind_ok _ _ s v s) by exact Hget.
    set (l := slice_contents s (ix_Idxs ix)) in *.
    set (g := f (table_at s (ix_Table ix))).
    assert (Htk : take (S i) l = take i l ++ [v]) by (now apply take_S_r).
    assert (Hdr : drop i l = v :: drop (S i) l) by (now apply drop_S).
    destruct (g v) eqn:Hg; cbn [negb].
    + rewrite (bind_ok _ _ s tt s) by reflexivity.
      destruct (IH s ix Hv Hwf) as (s' & ix' & Hrun & Hfr & Hv' & Hwf' & Hc); [lia|].
      exists s', ix'. do 4 (split; [assumption|]).
      rewrite Hc. fold l g. rewrite Htk, filter_snoc, Hg, Hdr, <- app_assoc. reflexivity.
    + destruct (delete_entry s p ix i Hv Hwf) as (s1 & sl1 & Hdel & Hfr1 & Hv1 & Hwf1 & Hlen1 & Hc1); [lia|].
      rewrite (bind_ok _ _ s tt s1) by exact Hdel.
      destruct (IH s1 _ Hv1 Hwf1) as (s' & ix' & Hrun & Hfr & Hv' & Hwf' & Hc); [cbn [ix_Idxs]; lia|].
      exists s', ix'. split; [assumption|]. split; [eauto using frame_trans|].
      do 2 (split; [assumption|]).
      rewrite Hc. rewrite (frame_table_at p s s1 ix _ Hfr1 Hv Hv1).
      cbn [ix_Idxs]. rewrite Hc1. fold l g.
      assert (Hli : length (take i l) = i).
      { rewrite length_take. unfold l. rewrite slice_contents_length by exact Hwf. lia. }
      rewrite take_app_length', drop_app_length' by auto.
      rewrite Htk, filter_snoc, Hg, app_nil_r. reflexivity.
Qed.

(** C3: [Filter] succeeds and leaves in [Idxs] exactly the entries that
    pass the predicate, in their previous order; filtering again with the
    same predicate changes nothing. *)
Theorem Filter_keeps_passing_entries_in_order (s : Store) (p : ptr)
    (ix : IdxTable) (f : FilterFunc) :
  views s !! p = Some ix ->
  wf_slice s (ix_Idxs ix) ->
  exists s',
    Filter p f s = Ok (tt, s') /\
    idxs_of s' p
    = Some (List.filter (f (table_at s (ix_Table ix))) (slice_contents s (ix_Idxs ix))) /\
    exists s'', Filter p f s' = Ok (tt, s'') /\ idxs_of s'' p = idxs_of s' p.
Proof.
  intros Hv Hwf.
  destruct (Filter_loop_spec p f (len (ix_Idxs ix)) s ix Hv Hwf (le_n _))
    as (s' & ix' & Hrun & Hfr & Hv' & Hwf' & Hc).
  assert (E1 : idxs_of s' p
               = Some (List.filter (f (table_at s (ix_Table ix))) (slice_contents s (ix_Idxs ix)))).
  { unfold idxs_of. rewrite Hv', Hc.
    rewrite take_ge, drop_ge, app_nil_r; auto;
      rewrite slice_contents_length by exact Hwf; lia. }
  exists s'. split; [|split; [exact E1|]].
  - unfold Filter. rewrite (bind_ok _ _ s ix s) by (unfold get_view; now rewrite Hv).
    exact Hrun.
  - destruct (Filter_loop_spec p f (len (ix_Idxs ix')) s' ix' Hv' Hwf' (le_n _))
      as (s'' & ix'' & Hrun' & Hfr' & Hv'' & Hwf'' & Hc').
    exists s''. split.
    + unfold Filter. rewrite (bind_ok _ _ s' ix' s') by (unfold get_view; now rewrite Hv').
      exact Hrun'.
    + rewrite E1. unfold idxs_of. rewrite Hv'', Hc'.
      rewrite (frame_table_at p s s' ix ix' Hfr Hv Hv').
      rewrite take_ge, drop_ge, app_nil_r;
        try (rewrite slice_contents_length by exact Hwf'; lia).
      rewrite Hc.
      rewrite take_ge, drop_ge, app_nil_r;
        try (rewrite slice_contents_length by exact Hwf; lia).
      now rewrite filter_idempotent.
Qed.

Lemma Filter_keeps_passing_entries_in_order_witness :
  views sAB !! 0%nat
  = Some {| ix_Table := Some 0%nat;
            ix_Idxs := {| arr := 0%nat; off := 0%nat; len := 2%nat; cap := 2%nat |};
            ix_lessFunc := None |} /\
  wf_slice sAB {| arr := 0%nat; off := 0%nat; len := 2%nat; cap := 2%nat |} /\
  exists s',
    Filter 0%nat (fun _ row => row =? 1) sAB = Ok (tt, s') /\
    idxs_of s' 0%nat = Some [1] /\
    exists s'', Filter 0%nat (fun _ row => row =? 1) s' = Ok (tt, s'') /\
                idxs_of s'' 0%nat = idxs_of s' 0%nat.
Proof.
  assert (Hwf : wf_slice sAB {| arr := 0%nat; off := 0%nat; len := 2%nat; cap := 2%nat |})
    by (split; simpl; [lia|right; eexists; split; [reflexivity|simpl; lia]]).
  split; [reflexivity|]. split; [exact Hwf|].
  exact (Filter_keeps_passing_entries_in_order sAB 0%nat _ (fun _ row => row =? 1)
           eq_refl Hwf).
Defined.

(** ** [sort.Sort]: what it leaves alone *)

Section Preservation.
Variable R : Store -> Store -> Prop.
Hypothesis R_refl : forall s, R s s.
Hypothesis R_trans : forall s1 s2 s3, R s1 s2 -> R s2 s3 -> R s1 s3.

Lemma preserves_ret {A} (a : A) : preserves R (ret a).
Proof. intros s a' s' H. injection H as _ <-. apply R_refl. Qed.

Lemma preserves_bind {A B} (m : M A) (k : A -> M B) :
  preserves R m -> (forall a, preserves R (k a)) -> preserves R (bind m k).
Proof.
  intros Hm Hk s b s'' H.
  destruct (bind_inv _ _ _ _ _ H) as (a & s' & H1 & H2).
  eapply R_trans; [eapply Hm|eapply Hk]; eauto.
Qed.

Variable data : sort.Interface.
Hypothesis HLess : forall i j, preserves R (sort.Less data i j).
Hypothesis HSwap : forall i j, preserves R (sort.Swap data i j).
Hypothesis HLen : preserves R (sort.Len data).

(** Splits a computation into its binds, branches and calls. *)
Ltac pres :=
  repeat first
    [ apply preserves_ret
    | apply HLess
    | apply HSwap
    | assumption
    | match goal with
      | |- preserves _ (bind _ _) => apply preserves_bind; [|intros ?]
      | |- preserves _ (if ?b then _ else _) => destruct b
      | |- preserves _ (let x := _ in _) => cbv zeta
      end ].

Lemma insert_down_preserves a j : preserves R (sort.insert_down data a j).
Proof. induction j; simpl; pres. Qed.

Lemma insertion_loop_preserves a n i : preserves R (sort.insertion_loop data a n i).
Proof.
  revert i. induction n; intros i; simpl; pres.
  - apply insert_down_preserves.
  - apply IHn.
Qed.

Lemma insertionSort_preserves a b : preserves R (sort.insertionSort data a b).
Proof. apply insertion_loop_preserves. Qed.

Lemma siftDown_loop_preserves fuel root hi first :
  preserves R (sort.siftDown_loop data fuel root hi first).
Proof. revert root. induction fuel; intros root; simpl; pres; apply IHfuel. Qed.

Lemma heap_build_preserves n hi first : preserves R (sort.heap_build data n hi first).
Proof.
  induction n; cbn [sort.heap_build]; pres; apply siftDown_loop_preserves.
Qed.

Lemma heap_pop_preserves n lo first : preserves R (sort.heap_pop data n lo first).
Proof.
  induction n; cbn [sort.heap_pop]; pres; apply siftDown_loop_preserves.
Qed.

Lemma heapSort_preserves a b : preserves R (sort.heapSort data a b).
Proof.
  unfold sort.heapSort. pres; [apply heap_build_preserves|apply heap_pop_preserves].
Qed.

Lemma medianOfThree_preserves m1 m0 m2 :
  preserves R (sort.medianOfThree data m1 m0 m2).
Proof. unfold sort.medianOfThree. pres. Qed.

Lemma skip_less_preserves pivot n a : preserves R (sort.skip_less data pivot n a).
Proof. revert a. induction n; intros a; simpl; pres. apply IHn. Qed.

Lemma skip_not_greater_preserves pivot n b :
  preserves R (sort.skip_not_greater data pivot n b).
Proof. revert b. induction n; intros b; simpl; pres. apply IHn. Qed.

Lemma skip_greater_preserves pivot n c :
  preserves R (sort.skip_greater data pivot n c).
Proof. revert c. induction n; intros c; simpl; pres. apply IHn. Qed.

Lemma skip_equal_down_preserves pivot n b :
  preserves R (sort.skip_equal_down data pivot n b).
Proof. revert b. induction n; intros b; simpl; pres. apply IHn. Qed.

Lemma partition_loop_preserves fuel pivot b c :
  preserves R (sort.partition_loop data fuel pivot b c).
Proof.
  revert b c. induction fuel; intros b c; simpl; pres.
  - apply skip_not_greater_preserves.
  - apply skip_greater_preserves.
  - apply IHfuel.
Qed.

Lemma protect_loop_preserves fuel pivot a b :
  preserves R (sort.protect_loop data fuel pivot a b).
Proof.
  revert a b. induction fuel; intros a b; simpl; pres.
  - apply skip_equal_down_preserves.
  - apply skip_less_preserves.
  - apply IHfuel.
Qed.

Lemma doPivot_preserves lo hi : preserves R (sort.doPivot data lo hi).
Proof.
  unfold sort.doPivot. pres;
    first [ apply medianOfThree_preserves | apply skip_less_preserves
          | apply partition_loop_preserves | apply protect_loop_preserves ].
Qed.

Lemma shell_pass_preserves n i : preserves R (sort.shell_pass data n i).
Proof. revert i. induction n; intros i; simpl; pres. apply IHn. Qed.

Lemma quickSort_preserves maxDepth a b : preserves R (sort.quickSort data maxDepth a b).
Proof.
  revert a b. induction maxDepth; intros a b; simpl; pres;
    first [ apply heapSort_preserves | apply shell_pass_preserves
          | apply insertionSort_preserves | apply doPivot_preserves
          | apply IHmaxDepth ].
Qed.

(** Whatever relation every call of [Len], [Less] and [Swap] keeps,
    [sort.Sort] keeps. *)
Lemma Sort_preserves : preserves R (sort.Sort data).
Proof. unfold sort.Sort. pres. apply quickSort_preserves. Qed.

End Preservation.

(** ** [sort.Sort] when nothing is less than anything *)

Section NothingLess.
Variables (data : sort.Interface) (s : Store) (n : nat).
Hypothesis HLess :
  forall i j, (i < n)%nat -> (j < n)%nat -> idle s (sort.Less data i j) false.
Hypothesis HSwap : forall i, (i < n)%nat -> idle s (sort.Swap data i i) tt.

Lemma idle_ret {A} (a : A) : idle s (ret a) a.
Proof. reflexivity. Qed.

Lemma idle_bind {A B} (m : M A) (k : A -> M B) a b :
  idle s m a -> idle s (k a) b -> idle s (bind m k) b.
Proof. unfold idle. intros H1 H2. now rewrite (bind_ok _ _ _ _ _ H1). Qed.

(** Runs the next call of [Less], which answers [false]. *)
Ltac less_false :=
  eapply idle_bind; [apply HLess; lia|]; cbn [negb].

Lemma insert_down_idle a j : (j < n)%nat -> idle s (sort.insert_down data a j) tt.
Proof.
  intros Hj. destruct j as [|j']; cbn [sort.insert_down]; [apply idle_ret|].
  destruct (a <? S j')%nat; [|apply idle_ret].
  less_false. apply idle_ret.
Qed.

Lemma insertion_loop_idle a k :
  forall i, (i + k <= n)%nat -> idle s (sort.insertion_loop data a k i) tt.
Proof.
  induction k as [|k IH]; intros i Hi; cbn [sort.insertion_loop]; [apply idle_ret|].
  eapply idle_bind; [apply insert_down_idle; lia|]. apply IH. lia.
Qed.

Lemma shell_pass_idle k :
  forall i, (k = 0 \/ i + k <= n)%nat -> idle s (sort.shell_pass data k i) tt.
Proof.
  induction k as [|k IH]; intros i Hi; cbn [sort.shell_pass]; [apply idle_ret|].
  less_false. eapply idle_bind; [apply idle_ret|]. apply IH. lia.
Qed.

Lemma medianOfThree_idle m1 m0 m2 :
  (m1 < n)%nat -> (m0 < n)%nat -> (m2 < n)%nat ->
  idle s (sort.medianOfThree data m1 m0 m2) tt.
Proof.
  intros H1 H0 H2. unfold sort.medianOfThree.
  less_false. eapply idle_bind; [apply idle_ret|].
  less_false. apply idle_ret.
Qed.

Lemma skip_less_idle pivot k a :
  (k = 0 \/ (a < n /\ pivot < n))%nat -> idle s (sort.skip_less data pivot k a) a.
Proof.
  intros H. destruct k; cbn [sort.skip_less]; [apply idle_ret|].
  less_false. apply idle_ret.
Qed.

Lemma skip_not_greater_idle pivot k :
  forall b, (pivot < n)%nat -> (b + k <= n)%nat ->
            idle s (sort.skip_not_greater data pivot k b) (b + k)%nat.
Proof.
  induction k as [|k IH]; intros b Hp Hb; cbn [sort.skip_not_greater].
  - rewrite Nat.add_0_r. apply idle_ret.
  - less_false. replace (b + S k)%nat with (S b + k)%nat by lia. apply IH; lia.
Qed.

Lemma skip_greater_idle pivot k c :
  (k = 0 \/ (c - 1 < n /\ pivot < n))%nat -> idle s (sort.skip_greater data pivot k c) c.
Proof.
  intros H. destruct k; cbn [sort.skip_greater]; [apply idle_ret|].
  less_false. apply idle_ret.
Qed.

Lemma skip_equal_down_idle pivot k :
  forall b, (pivot < n)%nat -> (k <= b)%nat -> (b <= n)%nat ->
            idle s (sort.skip_equal_down data pivot k b) (b - k)%nat.
Proof.
  induction k as [|k IH]; intros b Hp Hk Hb; cbn [sort.skip_equal_down].
  - rewrite Nat.sub_0_r. apply idle_ret.
  - less_false. replace (b - S k)%nat with (b - 1 - k)%nat by lia. apply IH; lia.
Qed.

Lemma partition_loop_idle fuel pivot b c :
  (pivot < n)%nat -> (b <= c)%nat -> (c <= n)%nat ->
  idle s (sort.partition_loop data (S fuel) pivot b c) (c, c).
Proof.
  intros Hp Hb Hc. cbn [sort.partition_loop].
  eapply idle_bind; [apply skip_not_greater_idle; lia|].
  replace (b + (c - b))%nat with c by lia.
  eapply idle_bind; [apply skip_greater_idle; lia|].
  rewrite Nat.leb_refl. apply idle_ret.
Qed.

Lemma protect_loop_idle fuel pivot a b :
  (pivot < n)%nat -> (a <= b)%nat -> (b <= n)%nat ->
  idle s (sort.protect_loop data (S fuel) pivot a b) (a, a).
Proof.
  intros Hp Ha Hb. cbn [sort.protect_loop].
  eapply idle_bind; [apply skip_equal_down_idle; lia|].
  replace (b - (b - a))%nat with a by lia.
  eapply idle_bind; [apply skip_less_idle; lia|].
  rewrite Nat.leb_refl. apply idle_ret.
Qed.

(** The pivot stays where it is and the range above it is all "equal". *)
Lemma doPivot_idle lo hi :
  (12 < hi - lo)%nat -> (hi <= n)%nat ->
  idle s (sort.doPivot data lo hi) (lo, hi - 1)%nat.
Proof.
  intros Hr Hn. unfold sort.doPivot.
  assert (Hs : (8 * ((hi - lo) / 8) <= hi - lo)%nat) by (apply Nat.Div0.mul_div_le).
  assert (Hm : (lo + hi - 1 <= 2 * ((lo + hi) / 2) <= lo + hi)%nat).
  { pose proof (Nat.div_mod_eq (lo + hi) 2).
    pose proof (Nat.mod_upper_bound (lo + hi) 2). lia. }
  eapply idle_bind with (a := tt).
  { destruct (40 <? hi - lo)%nat eqn:E; [|apply idle_ret].
    apply Nat.ltb_lt in E. cbv zeta.
    eapply idle_bind; [apply medianOfThree_idle; lia|].
    eapply idle_bind; [apply medianOfThree_idle; lia|].
    apply medianOfThree_idle; lia. }
  eapply idle_bind; [apply medianOfThree_idle; lia|].
  cbv zeta.
  eapply idle_bind; [apply skip_less_idle; lia|].
  eapply idle_bind; [apply partition_loop_idle; lia|].
  cbn [fst snd].
  replace (hi - (hi - 1) <? 5)%nat with true by (symmetry; apply Nat.ltb_lt; lia).
  cbn [negb andb].
  eapply idle_bind; [apply idle_ret|]. cbn [fst snd].
  eapply idle_bind.
  { eapply idle_bind; [apply protect_loop_idle; lia|]. apply idle_ret. }
  cbn [fst snd].
  replace (lo + 1 - 1)%nat with lo by lia.
  eapply idle_bind; [apply HSwap; lia|]. apply idle_ret.
Qed.

Lemma small_range_idle a b :
  (b <= n)%nat ->
  idle s (if (1 <? b - a)%nat
          then bind (sort.shell_pass data (b - (a + 6)) (a + 6))
                 (fun _ => sort.insertionSort data a b)
          else ret tt) tt.
Proof.
  intros Hb. destruct (1 <? b - a)%nat eqn:E; [|apply idle_ret].
  apply Nat.ltb_lt in E.
  eapply idle_bind; [apply shell_pass_idle; lia|].
  apply insertion_loop_idle. lia.
Qed.

Lemma quickSort_idle maxDepth a b :
  (a <= b)%nat -> (b <= n)%nat -> (12 < b - a -> 0 < maxDepth)%nat ->
  idle s (sort.quickSort data maxDepth a b) tt.
Proof.
  intros Ha Hb Hd.
  destruct maxDepth as [|d]; cbn [sort.quickSort];
    destruct (12 <? b - a)%nat eqn:E; try (apply small_range_idle; lia).
  - apply Nat.ltb_lt in E. lia.
  - apply Nat.ltb_lt in E.
    eapply idle_bind; [apply doPivot_idle; lia|]. cbn [fst snd].
    replace (a - a <? b - (b - 1))%nat with true by (symmetry; apply Nat.ltb_lt; lia).
    eapply idle_bind.
    + destruct d; cbn [sort.quickSort];
        replace (12 <? a - a)%nat with false by (symmetry; apply Nat.ltb_ge; lia);
        apply small_range_idle; lia.
    + destruct d; cbn [sort.quickSort];
        replace (12 <? b - (b - 1))%nat with false by (symmetry; apply Nat.ltb_ge; lia);
        apply small_range_idle; lia.
Qed.

Lemma maxDepth_loop_ge fuel : forall i depth, (depth <= sort.maxDepth_loop fuel i depth)%nat.
Proof.
  induction fuel as [|fuel IH]; intros i depth; cbn [sort.maxDepth_loop]; [lia|].
  destruct (0 <? i)%nat; [|lia]. specialize (IH (i / 2)%nat (S depth)). lia.
Qed.

Lemma maxDepth_pos k : (0 < k -> 0 < sort.maxDepth k)%nat.
Proof.
  intros Hk. unfold sort.maxDepth. destruct k as [|k]; [lia|].
  cbn [sort.maxDepth_loop]. replace (0 <? S k)%nat with true by reflexivity.
  pose proof (maxDepth_loop_ge k (S k / 2)%nat 1%nat). lia.
Qed.

(** With a comparator that never answers "less", [sort.Sort] returns
    without having changed anything. *)
Lemma Sort_idle : idle s (sort.Len data) n -> idle s (sort.Sort data) tt.
Proof.
  intros HLen. unfold sort.Sort.
  eapply idle_bind; [exact HLen|].
  apply quickSort_idle; [lia|lia|]. intros H. apply maxDepth_pos. lia.
Qed.

End NothingLess.

(** ** [Sort] on a view *)

Lemma store_eta s :
  {| arrays := arrays s; tables := tables s; views := views s |} = s.
Proof. now destruct s. Qed.

Lemma get_view_inv p s ix s' : get_view p s = Ok (ix, s') -> views s !! p = Some ix /\ s' = s.
Proof.
  unfold get_view. destruct (views s !! p); [|discriminate].
  intros H. injection H as -> ->. auto.
Qed.

Lemma slice_get_inv sl i s v s' : slice_get sl i s = Ok (v, s') -> s' = s.
Proof.
  unfold slice_get. destruct (i <? len sl)%nat; [|discriminate].
  destruct (arrays s !! arr sl) as [a|]; [|discriminate].
  destruct (a !! (off sl + i)%nat); [|discriminate].
  intros H. now injection H as _ <-.
Qed.

Lemma slice_set_frame p s ix i v s' :
  views s !! p = Some ix ->
  slice_set (ix_Idxs ix) i v s = Ok (tt, s') -> frame p s s'.
Proof.
  intros Hv. unfold slice_set.
  destruct (i <? len (ix_Idxs ix))%nat; [|discriminate].
  destruct (arrays s !! arr (ix_Idxs ix)) as [a|] eqn:Ha; [|discriminate].
  destruct (off (ix_Idxs ix) + i <? length a)%nat; [|discriminate].
  intros H. injection H as <-.
  unfold frame; cbn [arrays tables views]. repeat split; auto.
  - apply length_insert.
  - intros ix0 H0. exists ix0. repeat split; auto.
    intros b Hb. rewrite Hv in H0. injection H0 as <-.
    apply list_lookup_insert_ne. auto.
Qed.

Lemma Less_unchanged p i j s b s' : Less p i j s = Ok (b, s') -> s' = s.
Proof.
  unfold Less. intros H.
  apply bind_inv in H as (ix & s1 & H1 & H).
  apply get_view_inv in H1 as (_ & ->).
  apply bind_inv in H as (et & s2 & H2 & H).
  unfold read_table in H2. injection H2 as _ <-.
  apply bind_inv in H as (ri & s3 & H3 & H). apply slice_get_inv in H3 as ->.
  apply bind_inv in H as (rj & s4 & H4 & H). apply slice_get_inv in H4 as ->.
  destruct (ix_lessFunc ix) as [f|]; [|discriminate].
  unfold lift in H. destruct (f et ri rj); [|discriminate].
  now injection H as _ <-.
Qed.

Lemma Swap_frame p i j : preserves (frame p) (Swap p i j).
Proof.
  intros s [] s' H. unfold Swap in H.
  apply bind_inv in H as (ix & s1 & H1 & H).
  apply get_view_inv in H1 as (Hv & ->).
  apply bind_inv in H as (vj & s2 & H2 & H). apply slice_get_inv in H2 as ->.
  apply bind_inv in H as (vi & s3 & H3 & H). apply slice_get_inv in H3 as ->.
  apply bind_inv in H as ([] & s4 & H4 & H).
  pose proof (slice_set_frame p s ix i vj s4 Hv H4) as F1.
  eapply frame_trans; [exact F1|].
  destruct F1 as (_ & _ & _ & _ & Hp).
  destruct (Hp ix Hv) as (ix' & Hv' & Hta & Har & Hb).
  assert (Hset : exists ix4, views s4 !! p = Some ix4 /\ ix_Idxs ix4 = ix_Idxs ix).
  { clear H. unfold slice_set in H4.
    destruct (i <? len (ix_Idxs ix))%nat; [|discriminate].
    destruct (arrays s !! arr (ix_Idxs ix)); [|discriminate].
    destruct (off (ix_Idxs ix) + i <? length l)%nat; [|discriminate].
    injection H4 as <-. exists ix. auto. }
  destruct Hset as (ix4 & Hv4 & Hsl). rewrite <- Hsl in H.
  eapply slice_set_frame; eauto.
Qed.

Lemma set_lessFunc_ok p s ix f :
  views s !! p = Some ix ->
  set_lessFunc p f s
  = Ok (tt, {| arrays := arrays s; tables := tables s;
               views := <[p := {| ix_Table := ix_Table ix; ix_Idxs := ix_Idxs ix;
                                  ix_lessFunc := Some f |}]> (views s) |}).
Proof.
  intros Hv. unfold set_lessFunc, bind, get_view, set_view.
  rewrite Hv. cbv beta iota. now rewrite Hv.
Qed.

(** [Sort] touches the view it sorts and the backing array of its
    indexes, and nothing else. *)
Lemma Sort_frame p lessFunc : preserves (frame p) (Sort p lessFunc).
Proof.
  intros s [] s' H. unfold Sort in H.
  apply bind_inv in H as ([] & s1 & H1 & H).
  assert (F1 : frame p s s1).
  { destruct (views s !! p) as [ix|] eqn:Hv.
    2:{ unfold set_lessFunc, bind, get_view in H1. rewrite Hv in H1. discriminate. }
    rewrite (set_lessFunc_ok p s ix lessFunc Hv) in H1. injection H1 as <-.
    apply (views_insert_frame p s ix); auto. }
  eapply frame_trans; [exact F1|].
  eapply (Sort_preserves (frame p) (frame_refl p) (frame_trans p) (as_Interface p)); eauto.
  - intros i j s2 b s3 HL. apply Less_unchanged in HL as ->. apply frame_refl.
  - apply Swap_frame.
  - intros s2 n s3 HL. unfold sort.Len, as_Interface, Len in HL.
    apply bind_inv in HL as (ix & s4 & H4 & HL). apply get_view_inv in H4 as (_ & ->).
    injection HL as _ <-. apply frame_refl.
Qed.

Section NeverLess.
Variables (s : Store) (p : ptr) (ix : IdxTable).
Hypothesis Hv : views s !! p = Some ix.
Hypothesis Hlf : ix_lessFunc ix = Some never_less.
Hypothesis Hwf : wf_slice s (ix_Idxs ix).

Lemma Less_never_less i j :
  (i < len (ix_Idxs ix))%nat -> (j < len (ix_Idxs ix))%nat ->
  idle s (Less p i j) false.
Proof.
  intros Hi Hj. unfold idle, Less.
  rewrite (bind_ok _ _ s ix s) by (unfold get_view; now rewrite Hv).
  rewrite (bind_ok _ _ s (table_at s (ix_Table ix)) s) by reflexivity.
  destruct (slice_get_ok s _ Hwf i Hi) as (vi & Hgi & _).
  destruct (slice_get_ok s _ Hwf j Hj) as (vj & Hgj & _).
  rewrite (bind_ok _ _ s vi s) by exact Hgi.
  rewrite (bind_ok _ _ s vj s) by exact Hgj.
  rewrite Hlf. reflexivity.
Qed.

Lemma Swap_same i : (i < len (ix_Idxs ix))%nat -> idle s (Swap p i i) tt.
Proof.
  intros Hi. unfold idle, Swap.
  rewrite (bind_ok _ _ s ix s) by (unfold get_view; now rewrite Hv).
  destruct (wf_slice_array s _ Hwf i Hi) as (a & Ha & Hlen).
  destruct Hwf as (Hlc & _).
  assert (Hlt : (off (ix_Idxs ix) + i < length a)%nat) by lia.
  destruct (lookup_lt_is_Some_2 a _ Hlt) as [v Hav].
  assert (Hget : slice_get (ix_Idxs ix) i s = Ok (v, s)).
  { unfold slice_get. destruct (Nat.ltb_spec i (len (ix_Idxs ix))); [|lia].
    now rewrite Ha, Hav. }
  assert (Hset : slice_set (ix_Idxs ix) i v s = Ok (tt, s)).
  { unfold slice_set. destruct (Nat.ltb_spec i (len (ix_Idxs ix))); [|lia].
    rewrite Ha. destruct (Nat.ltb_spec (off (ix_Idxs ix) + i) (length a)); [|lia].
    rewrite (list_insert_id a _ v Hav), (list_insert_id (arrays s) _ a Ha).
    now rewrite store_eta. }
  rewrite (bind_ok _ _ s v s) by exact Hget.
  rewrite (bind_ok _ _ s v s) by exact Hget.
  rewrite (bind_ok _ _ s tt s) by exact Hset.
  exact Hset.
Qed.

Lemma sort_Sort_never_less : idle s (sort.Sort (as_Interface p)) tt.
Proof.
  apply (Sort_idle (as_Interface p) s (len (ix_Idxs ix))).
  - exact Less_never_less.
  - exact Swap_same.
  - unfold idle, as_Interface, sort.Len, Len.
    rewrite (bind_ok _ _ s ix s) by (unfold get_view; now rewrite Hv). reflexivity.
Qed.

End NeverLess.

(** C2, as amended: sorting with the comparator that always answers
    "not less" succeeds and leaves the index sequence as it was. *)
Theorem Sort_never_less_keeps_Idxs (s : Store) (p : ptr) (ix : IdxTable) :
  views s !! p = Some ix ->
  wf_slice s (ix_Idxs ix) ->
  exists s', Sort p never_less s = Ok (tt, s') /\ idxs_of s' p = idxs_of s p.
Proof.
  intros Hv Hwf.
  set (ix1 := {| ix_Table := ix_Table ix; ix_Idxs := ix_Idxs ix;
                 ix_lessFunc := Some never_less |}).
  set (s1 := {| arrays := arrays s; tables := tables s;
                views := <[p := ix1]> (views s) |}).
  assert (Hv1 : views s1 !! p = Some ix1).
  { apply list_lookup_insert_eq. eapply lookup_lt_Some; eauto. }
  exists s1. split.
  - unfold Sort. rewrite (bind_ok _ _ s tt s1) by (now apply set_lessFunc_ok).
    apply (sort_Sort_never_less s1 p ix1 Hv1 eq_refl). exact Hwf.
  - unfold idxs_of. rewrite Hv1, Hv. reflexivity.
Qed.

Lemma Sort_never_less_keeps_Idxs_witness :
  views s7 !! 0%nat
  = Some {| ix_Table := Some 0%nat;
            ix_Idxs := {| arr := 0%nat; off := 0%nat; len := 7%nat; cap := 7%nat |};
            ix_lessFunc := None |} /\
  wf_slice s7 {| arr := 0%nat; off := 0%nat; len := 7%nat; cap := 7%nat |} /\
  exists s', Sort 0%nat never_less s7 = Ok (tt, s') /\
             idxs_of s' 0%nat = idxs_of s7 0%nat.
Proof.
  assert (Hwf : wf_slice s7 {| arr := 0%nat; off := 0%nat; len := 7%nat; cap := 7%nat |})
    by (split; simpl; [lia|right; eexists; split; [reflexivity|simpl; lia]]).
  split; [reflexivity|]. split; [exact Hwf|].
  exact (Sort_never_less_keeps_Idxs s7 0%nat _ eq_refl Hwf).
Defined.

(** C2 as stated fails: [Sort] is not stable.  On the fresh view of seven
    rows with keys [2, 1, 0, 0, 0, 0, 1], sorted by that key in ascending
    order, rows 1 and 6 tie and row 1 came first; after the sort row 6
    comes first.  (The Shell pass with gap 6 swaps positions 0 and 6.) *)
Lemma Sort_not_stable :
  exists s',
    Sort 0%nat (SortCols_less [0] true) s7 = Ok (tt, s') /\
    idxs_of s7 0%nat = Some [0; 1; 2; 3; 4; 5; 6] /\
    idxs_of s' 0%nat = Some [2; 3; 4; 5; 6; 1; 0] /\
    ~ ties_preserved (SortCols_less [0] true (Some t7))
        [0; 1; 2; 3; 4; 5; 6] [2; 3; 4; 5; 6; 1; 0].
Proof.
  eexists. split; [vm_compute; reflexivity|].
  split; [reflexivity|]. split; [reflexivity|].
  intros H. specialize (H 1 6 eq_refl eq_refl eq_refl). discriminate H.
Qed.

(** ** Clone *)

Lemma lookup_snoc_last {A} (l : list A) e : (l ++ [e]) !! length l = Some e.
Proof. now apply list_lookup_middle. Qed.

Lemma insert_snoc_last {A} (l : list A) e x : <[length l := x]> (l ++ [e]) = l ++ [x].
Proof. rewrite insert_app_r_alt, Nat.sub_diag by lia. reflexivity. Qed.

(** Allocation does not disturb the slices that exist. *)
Lemma slice_contents_alloc s sl arrs tbls vws :
  wf_slice s sl ->
  slice_contents {| arrays := arrays s ++ arrs; tables := tbls; views := vws |} sl
  = slice_contents s sl.
Proof.
  intros (Hlc & [Hc|(a & Ha & Hle)]).
  - rewrite !slice_contents_nil by lia. reflexivity.
  - unfold slice_contents; cbn [arrays].
    now rewrite (lookup_app_l_Some _ _ _ _ Ha), Ha.
Qed.

Lemma wf_slice_alloc s sl arrs tbls vws :
  wf_slice s sl ->
  wf_slice {| arrays := arrays s ++ arrs; tables := tbls; views := vws |} sl.
Proof.
  intros (Hlc & [Hc|(a & Ha & Hle)]); split; auto.
  right. exists a. cbn [arrays]. split; [now apply lookup_app_l_Some|exact Hle].
Qed.

Lemma write_at_all (l : list Z) : write_at (replicate (length l) 0) 0 l = l.
Proof.
  unfold write_at. rewrite take_0, drop_ge, app_nil_r; [reflexivity|].
  rewrite length_replicate. lia.
Qed.

(** What [Clone] builds: a new view, with the table pointer of the
    original, over a new backing array that holds a copy of the indexes. *)
Lemma Clone_ok (s : Store) (p : ptr) (ix : IdxTable) :
  views s !! p = Some ix ->
  wf_slice s (ix_Idxs ix) ->
  Clone p s
  = Ok (length (views s),
        {| arrays := arrays s ++ [slice_contents s (ix_Idxs ix)];
           tables := tables s;
           views := views s ++
                    [ {| ix_Table := ix_Table ix;
                         ix_Idxs := {| arr := length (arrays s); off := 0%nat;
                                       len := len (ix_Idxs ix);
                                       cap := len (ix_Idxs ix) |};
                         ix_lessFunc := None |} ] |}).
Proof.
  intros Hv Hwf.
  assert (Hold : forall k, (views s ++ k) !! p = Some ix)
    by (intros k; now apply lookup_app_l_Some).
  assert (Hne : p <> length (views s)).
  { apply lookup_lt_Some in Hv. lia. }
  unfold Clone, CopyFrom, new_view, set_Table, set_Idxs, make, copy_ints,
    get_view, set_view, bind, ret.
  repeat (cbn [views arrays tables ix_Table ix_Idxs ix_lessFunc arr off len cap];
          rewrite ?lookup_snoc_last, ?insert_snoc_last, ?Hold).
  rewrite (slice_contents_alloc s (ix_Idxs ix)) by exact Hwf.
  pose proof (slice_contents_length s _ Hwf) as Hlen.
  rewrite take_ge by lia. rewrite <- Hlen at 1. rewrite write_at_all.
  reflexivity.
Qed.

Lemma Filter_frame p f s ix s' :
  views s !! p = Some ix -> wf_slice s (ix_Idxs ix) ->
  Filter p f s = Ok (tt, s') -> frame p s s'.
Proof.
  intros Hv Hwf H.
  destruct (Filter_loop_spec p f (len (ix_Idxs ix)) s ix Hv Hwf (le_n _))
    as (s1 & ix1 & Hrun & Hfr & _).
  unfold Filter in H.
  rewrite (bind_ok _ _ s ix s) in H by (unfold get_view; now rewrite Hv).
  rewrite Hrun in H. now injection H as <-.
Qed.

(** An operation with footprint [p] leaves the indexes of another view
    [q] as they were, when the two views do not share a backing array. *)
Lemma frame_other_idxs p q s s' ixp ixq :
  frame p s s' -> q <> p ->
  views s !! p = Some ixp -> views s !! q = Some ixq ->
  arr (ix_Idxs ixq) <> arr (ix_Idxs ixp) \/ len (ix_Idxs ixq) = 0%nat ->
  idxs_of s' q = idxs_of s q.
Proof.
  intros (_ & _ & _ & Hq & Hp) Hne Hvp Hvq Hdis.
  unfold idxs_of. rewrite (Hq q Hne), Hvq. f_equal.
  destruct Hdis as [Hd|Hz].
  - destruct (Hp ixp Hvp) as (_ & _ & _ & _ & Hb).
    unfold slice_contents. now rewrite (Hb _ Hd).
  - now rewrite !slice_contents_nil.
Qed.

(** C8: [Clone] returns a new view with the same indexes in the same
    order, held in a backing array that did not exist before, and with
    the table pointer of the original (no table is allocated).  Filtering
    or sorting the clone leaves the indexes of the original as they were,
    and filtering or sorting the original leaves those of the clone. *)
Theorem Clone_is_independent (s : Store) (p : ptr) (ix : IdxTable) :
  views s !! p = Some ix ->
  wf_slice s (ix_Idxs ix) ->
  exists q s1 nix,
    Clone p s = Ok (q, s1) /\
    q <> p /\
    views s1 !! q = Some nix /\
    views s1 !! p = Some ix /\
    idxs_of s1 q = idxs_of s p /\
    idxs_of s1 p = idxs_of s p /\
    arrays s !! arr (ix_Idxs nix) = None /\
    ix_Table nix = ix_Table ix /\
    tables s1 = tables s /\
    (forall f s2, Filter q f s1 = Ok (tt, s2) -> idxs_of s2 p = idxs_of s p) /\
    (forall lessFunc s2, Sort q lessFunc s1 = Ok (tt, s2) -> idxs_of s2 p = idxs_of s p) /\
    (forall f s2, Filter p f s1 = Ok (tt, s2) -> idxs_of s2 q = idxs_of s1 q) /\
    (forall lessFunc s2, Sort p lessFunc s1 = Ok (tt, s2) -> idxs_of s2 q = idxs_of s1 q).
Proof.
  intros Hv Hwf.
  set (nix := {| ix_Table := ix_Table ix;
                 ix_Idxs := {| arr := length (arrays s); off := 0%nat;
                               len := len (ix_Idxs ix); cap := len (ix_Idxs ix) |};
                 ix_lessFunc := None |}).
  set (s1 := {| arrays := arrays s ++ [slice_contents s (ix_Idxs ix)];
                tables := tables s; views := views s ++ [nix] |}).
  assert (Hne : length (views s) <> p) by (apply lookup_lt_Some in Hv; lia).
  assert (Hq1 : views s1 !! length (views s) = Some nix) by apply lookup_snoc_last.
  assert (Hp1 : views s1 !! p = Some ix) by (now apply lookup_app_l_Some).
  assert (Hwfp : wf_slice s1 (ix_Idxs ix)) by (now apply wf_slice_alloc).
  assert (Hwfq : wf_slice s1 (ix_Idxs nix)).
  { split; cbn; [lia|]. right. eexists. rewrite lookup_snoc_last.
    split; [reflexivity|]. rewrite slice_contents_length by exact Hwf. lia. }
  assert (Eq : idxs_of s1 (length (views s)) = idxs_of s p).
  { unfold idxs_of. rewrite Hq1, Hv. f_equal.
    unfold slice_contents at 1. cbn. rewrite lookup_snoc_last, drop_0.
    apply take_ge. rewrite slice_contents_length by exact Hwf. lia. }
  assert (Ep : idxs_of s1 p = idxs_of s p).
  { unfold idxs_of. rewrite Hp1, Hv. f_equal. now apply slice_contents_alloc. }
  assert (Hdis : arr (ix_Idxs ix) <> arr (ix_Idxs nix) \/ len (ix_Idxs ix) = 0%nat).
  { destruct Hwf as (Hlc & [Hc|(a & Ha & _)]); [right; lia|left].
    apply lookup_lt_Some in Ha. cbn. lia. }
  assert (Hdis' : arr (ix_Idxs nix) <> arr (ix_Idxs ix) \/ len (ix_Idxs nix) = 0%nat).
  { destruct Hdis as [Hd|Hz]; [left; congruence|right; exact Hz]. }
  exists (length (views s)), s1, nix.
  split; [now apply Clone_ok|].
  do 5 (split; [assumption|]).
  split; [apply lookup_ge_None; cbn; lia|].
  do 2 (split; [reflexivity|]).
  split; [|split; [|split]].
  - intros f s2 H. rewrite <- Ep.
    apply (frame_other_idxs (length (views s)) p s1 s2 nix ix); auto.
    eapply Filter_frame; eauto.
  - intros lessFunc s2 H. rewrite <- Ep.
    apply (frame_other_idxs (length (views s)) p s1 s2 nix ix); auto.
    eapply Sort_frame; eauto.
  - intros f s2 H.
    apply (frame_other_idxs p (length (views s)) s1 s2 ix nix); auto.
    eapply Filter_frame; eauto.
  - intros lessFunc s2 H.
    apply (frame_other_idxs p (length (views s)) s1 s2 ix nix); auto.
    eapply Sort_frame; eauto.
Qed.

Lemma Clone_is_independent_witness :
  views sAB !! 0%nat
  = Some {| ix_Table := Some 0%nat;
            ix_Idxs := {| arr := 0%nat; off := 0%nat; len := 2%nat; cap := 2%nat |};
            ix_lessFunc := None |} /\
  wf_slice sAB {| arr := 0%nat; off := 0%nat; len := 2%nat; cap := 2%nat |} /\
  exists q s1 nix,
    Clone 0%nat sAB = Ok (q, s1) /\
    q <> 0%nat /\
    views s1 !! q = Some nix /\
    views s1 !! 0%nat
    = Some {| ix_Table := Some 0%nat;
              ix_Idxs := {| arr := 0%nat; off := 0%nat; len := 2%nat; cap := 2%nat |};
              ix_lessFunc := None |} /\
    idxs_of s1 q = idxs_of sAB 0%nat /\
    idxs_of s1 0%nat = idxs_of sAB 0%nat /\
    arrays sAB !! arr (ix_Idxs nix) = None /\
    ix_Table nix = Some 0%nat /\
    tables s1 = tables sAB /\
    (forall f s2, Filter q f s1 = Ok (tt, s2) -> idxs_of s2 0%nat = idxs_of sAB 0%nat) /\
    (forall lessFunc s2, Sort q lessFunc s1 = Ok (tt, s2) ->
                         idxs_of s2 0%nat = idxs_of sAB 0%nat) /\
    (forall f s2, Filter 0%nat f s1 = Ok (tt, s2) -> idxs_of s2 q = idxs_of s1 q) /\
    (forall lessFunc s2, Sort 0%nat lessFunc s1 = Ok (tt, s2) ->
                         idxs_of s2 q = idxs_of s1 q).
Proof.
  assert (Hwf : wf_slice sAB {| arr := 0%nat; off := 0%nat; len := 2%nat; cap := 2%nat |})
    by (split; simpl; [lia|right; eexists; split; [reflexivity|simpl; lia]]).
  split; [reflexivity|]. split; [exact Hwf|].
  exact (Clone_is_independent sAB 0%nat _ eq_refl Hwf).
Defined.

(** ** Aggregation *)

Section AggFacts.
Variables (cl : Column) (fn : AggFunc).
Hypothesis Hfits : Z.of_nat (length (elems cl)) <= 2 ^ 63.

Lemma agg_step_in_range k j ag a :
  0 <= k < Z.of_nat (length (elems cl)) ->
  ag !! j = Some a ->
  agg_step cl fn k j ag = Ok (<[j := slot_step cl fn k a]> ag).
Proof.
  intros Hk Ha. unfold agg_step, slot_step.
  destruct (lookup_lt_is_Some_2 (elems cl) (Z.to_nat k)) as [e He]; [lia|].
  assert (Hf : FloatVal1D cl k = Ok (fval e)).
  { unfold FloatVal1D. replace k with (Z.of_nat (Z.to_nat k)) by lia.
    now rewrite (index_ok _ _ _ He). }
  rewrite Hf. cbn [rbind]. rewrite Ha.
  destruct (IsNull1D cl k), (F64.IsNaN (fval e)); cbn [negb andb orb];
    try reflexivity; now rewrite list_insert_id.
Qed.

(** The loop over the cell positions updates every slot from [j0] on. *)
Lemma agg_cells_spec si :
  forall n j0 ag,
    (j0 + n = length ag)%nat ->
    (forall j, (j < length ag)%nat ->
               0 <= si + Z.of_nat j < Z.of_nat (length (elems cl))) ->
    exists ag',
      agg_cells cl fn si n j0 ag = Ok ag' /\
      length ag' = length ag /\
      forall j a, ag !! j = Some a ->
                  ag' !! j = Some (if (j0 <=? j)%nat
                                   then slot_step cl fn (si + Z.of_nat j) a else a).
Proof.
  induction n as [|n IH]; intros j0 ag Hlen Hr; cbn [agg_cells].
  - exists ag. split; [reflexivity|]. split; [reflexivity|].
    intros j a Ha. apply lookup_lt_Some in Ha as Hj.
    destruct (Nat.leb_spec j0 j); [lia|exact Ha].
  - destruct (lookup_lt_is_Some_2 ag j0) as [a0 Ha0]; [lia|].
    assert (Hj0 : 0 <= si + Z.of_nat j0 < Z.of_nat (length (elems cl))) by (apply Hr; lia).
    rewrite wrap64_small by (unfold in_int64; lia).
    rewrite (agg_step_in_range _ _ _ a0 Hj0 Ha0). cbn [rbind].
    destruct (IH (S j0) (<[j0 := slot_step cl fn (si + Z.of_nat j0) a0]> ag))
      as (ag' & Hrun & Hl & Hslots).
    { rewrite length_insert. lia. }
    { intros j Hj. rewrite length_insert in Hj. now apply Hr. }
    exists ag'. split; [exact Hrun|]. split; [now rewrite Hl, length_insert|].
    intros j a Ha. destruct (Nat.eq_dec j j0) as [->|Hne].
    + rewrite Ha0 in Ha. injection Ha as <-.
      rewrite (Hslots j0 (slot_step cl fn (si + Z.of_nat j0) a0)).
      2:{ apply list_lookup_insert_eq. lia. }
      destruct (Nat.leb_spec (S j0) j0); [lia|].
      now destruct (Nat.leb_spec j0 j0); [|lia].
    + rewrite (Hslots j a) by (rewrite list_lookup_insert_ne; auto).
      destruct (Nat.leb_spec (S j0) j), (Nat.leb_spec j0 j); try lia; reflexivity.
Qed.

(** The loop over the rows, for cells of any size. *)
Lemma agg_multi_spec csz :
  forall idxs ag,
    length ag = csz ->
    flat_in_range cl csz idxs ->
    exists ag',
      agg_multi cl fn csz idxs ag = Ok ag' /\
      length ag' = csz /\
      forall j a, ag !! j = Some a ->
        ag' !! j = Some (fold_left
                           (fun acc row =>
                              slot_step cl fn (row * Z.of_nat csz + Z.of_nat j) acc)
                           idxs a).
Proof.
  induction idxs as [|srw rest IH]; intros ag Hlen Hr; cbn [agg_multi].
  - exists ag. auto.
  - inversion_clear Hr as [|? ? Hrow Hrest].
    destruct (Nat.eq_dec csz 0%nat) as [Hz|Hnz].
    + (* cells of size 0: there is no slot *)
      rewrite Hlen, Hz. cbn [agg_cells rbind]. rewrite <- Hz.
      destruct (IH ag Hlen Hrest) as (ag' & Hrun & Hl & Hslots).
      exists ag'. split; [exact Hrun|]. split; [exact Hl|].
      intros j a Ha. apply lookup_lt_Some in Ha. lia.
    + assert (H0 : 0 <= srw * Z.of_nat csz < Z.of_nat (length (elems cl))).
      { specialize (Hrow 0%nat). lia. }
      rewrite wrap64_small by (unfold in_int64; lia).
      destruct (agg_cells_spec (srw * Z.of_nat csz) (length ag) 0%nat ag eq_refl)
        as (ag1 & Hrun1 & Hl1 & Hslots1).
      { intros j Hj. apply Hrow. lia. }
      rewrite Hrun1. cbn [rbind].
      destruct (IH ag1 ltac:(lia) Hrest) as (ag' & Hrun & Hl & Hslots).
      exists ag'. split; [exact Hrun|]. split; [exact Hl|].
      intros j a Ha. cbn [fold_left].
      apply Hslots. now rewrite (Hslots1 j a Ha).
Qed.

(** The loop over the rows of the branch [csz == 1]. *)
Lemma agg_single_spec :
  forall idxs a,
    flat_in_range cl 1 idxs ->
    agg_single cl fn idxs [a]
    = Ok [fold_left (fun acc row => slot_step cl fn (row * 1 + 0) acc) idxs a].
Proof.
  induction idxs as [|srw rest IH]; intros a Hr; cbn [agg_single fold_left].
  - reflexivity.
  - inversion_clear Hr as [|? ? Hrow Hrest].
    specialize (Hrow 0%nat ltac:(lia)).
    rewrite (agg_step_in_range srw 0 [a] a) by (auto; lia).
    cbn [rbind]. cbn. rewrite (IH _ Hrest).
    now replace (srw * 1 + 0) with srw by lia.
Qed.

End AggFacts.

Lemma lookup_map_seq {A} (g : nat -> A) n j :
  (j < n)%nat -> map g (seq 0 n) !! j = Some (g j).
Proof.
  intros Hj. change (map g (seq 0 n)) with (g <$> seq 0 n).
  rewrite list_lookup_fmap, lookup_seq_lt by lia. reflexivity.
Qed.

(** [AggCol] on rows that only reach flat elements inside the column. *)
Lemma AggCol_ok (s : Store) (p : ptr) (ix : IdxTable) (t : Table)
    (cl : Column) (colIdx : nat) (ini : float64) (fn : AggFunc) :
  views s !! p = Some ix ->
  table_at s (ix_Table ix) = Some t ->
  Cols t !! colIdx = Some cl ->
  Z.of_nat (length (elems cl)) <= 2 ^ 63 ->
  flat_in_range cl (snd (RowCellSize cl)) (slice_contents s (ix_Idxs ix)) ->
  AggCol p (Z.of_nat colIdx) ini fn s
  = Ok (aggregate cl fn (snd (RowCellSize cl)) (slice_contents s (ix_Idxs ix)) ini, s).
Proof.
  intros Hv Ht Hc Hfits Hr.
  unfold AggCol.
  rewrite (bind_ok _ _ s ix s) by (unfold get_view; now rewrite Hv).
  rewrite (bind_ok _ _ s t s) by (unfold deref_table; now rewrite Ht).
  rewrite (bind_ok _ _ s cl s) by (apply lift_ok; now apply index_ok).
  cbv zeta. set (csz := snd (RowCellSize cl)) in *.
  rewrite (bind_ok _ _ s (slice_contents s (ix_Idxs ix)) s) by reflexivity.
  set (idxs := slice_contents s (ix_Idxs ix)) in *.
  destruct (Nat.eqb_spec csz 1) as [E1|E1].
  - rewrite E1 in *. apply lift_ok. cbn [replicate].
    rewrite (agg_single_spec cl fn idxs ini Hr). reflexivity.
  - apply lift_ok.
    destruct (agg_multi_spec cl fn Hfits csz idxs (replicate csz ini)) as (ag' & Hrun & Hl & Hslots);
      [apply length_replicate|exact Hr|].
    rewrite Hrun. f_equal. apply list_eq. intros j.
    destruct (Nat.lt_ge_cases j csz) as [Hj|Hj].
    + unfold aggregate. rewrite lookup_map_seq by exact Hj.
      apply Hslots. now apply lookup_replicate_2.
    + rewrite !(proj2 (lookup_ge_None _ _)); auto.
      * unfold aggregate. rewrite length_map, length_seq. lia.
      * lia.
Qed.

(** C5: on a view whose rows only reach flat elements inside the column,
    [AggCol] returns [csz] slots; slot [j] is the initial value updated
    by the reducer, in index order, for the elements at [row * csz + j]
    that are neither null nor NaN; the store is left as it was. *)
Theorem AggCol_aggregates (s : Store) (p : ptr) (ix : IdxTable) (t : Table)
    (cl : Column) (colIdx : nat) (ini : float64) (fn : AggFunc) :
  views s !! p = Some ix ->
  table_at s (ix_Table ix) = Some t ->
  Cols t !! colIdx = Some cl ->
  Z.of_nat (length (elems cl)) <= 2 ^ 63 ->
  flat_in_range cl (snd (RowCellSize cl)) (slice_contents s (ix_Idxs ix)) ->
  AggCol p (Z.of_nat colIdx) ini fn s
  = Ok (aggregate cl fn (snd (RowCellSize cl)) (slice_contents s (ix_Idxs ix)) ini, s) /\
  length (aggregate cl fn (snd (RowCellSize cl)) (slice_contents s (ix_Idxs ix)) ini)
  = snd (RowCellSize cl).
Proof.
  intros Hv Ht Hc Hfits Hr. split.
  - exact (AggCol_ok s p ix t cl colIdx ini fn Hv Ht Hc Hfits Hr).
  - unfold aggregate. now rewrite length_map, length_seq.
Qed.

Lemma AggCol_aggregates_witness :
  views sAgg !! 0%nat
  = Some {| ix_Table := Some 0%nat;
            ix_Idxs := {| arr := 0%nat; off := 0%nat; len := 4%nat; cap := 4%nat |};
            ix_lessFunc := None |} /\
  table_at sAgg (Some 0%nat) = Some {| Cols := [col_1_NaN_3_null]; Rows := 4 |} /\
  [col_1_NaN_3_null] !! 0%nat = Some col_1_NaN_3_null /\
  Z.of_nat (length (elems col_1_NaN_3_null)) <= 2 ^ 63 /\
  flat_in_range col_1_NaN_3_null 1 [0; 1; 2; 3] /\
  AggCol 0%nat 0 F64.zero sum_agg sAgg = Ok ([F64.of_Z 4], sAgg).
Proof.
  assert (Hr : flat_in_range col_1_NaN_3_null 1 [0; 1; 2; 3])
    by (repeat constructor; simpl; lia).
  assert (Hf : Z.of_nat (length (elems col_1_NaN_3_null)) <= 2 ^ 63) by (simpl; lia).
  do 3 (split; [reflexivity|]). split; [exact Hf|]. split; [exact Hr|].
  exact (proj1 (AggCol_aggregates sAgg 0%nat _ _ col_1_NaN_3_null 0%nat F64.zero sum_agg
                  eq_refl eq_refl eq_refl Hf Hr)).
Defined.

(** ** Materialisation *)

Lemma copy_calls_col_cons ci csz i srw rest :
  copy_calls_col ci csz i (srw :: rest)
  = copy_call ci csz i srw :: copy_calls_col ci csz (S i) rest.
Proof.
  unfold copy_calls_col. rewrite imap_cons, Nat.add_0_r. f_equal.
  apply imap_ext. intros k x _. cbn. now rewrite Nat.add_succ_r.
Qed.

Section CopyRows.
Variables (ci : nat) (scl : Column) (rows : nat).
Let csz := product (CellShape scl).
Hypothesis Hsrc : length (elems scl) = (rows * csz)%nat.
Hypothesis Hfit : Z.of_nat (length (elems scl)) <= 2 ^ 63.

Lemma cell_length row : 0 <= row < Z.of_nat rows -> length (cell scl row) = csz.
Proof.
  intros Hr. unfold cell. fold csz. rewrite length_take, length_drop, Hsrc.
  assert ((Z.to_nat row + 1) * csz <= rows * csz)%nat by (apply Nat.mul_le_mono_r; lia).
  lia.
Qed.

(** The loop over the rows of one column: each call copies the cell of
    row [idxs[i]] to position [i] of the new column. *)
Lemma copy_rows_spec :
  forall idxs i tcl log,
    Forall (fun row => 0 <= row < Z.of_nat rows) idxs ->
    length (elems tcl) = ((i + length idxs) * csz)%nat ->
    Z.of_nat (length (elems tcl)) <= 2 ^ 63 ->
    copy_rows ci scl csz idxs i tcl log
    = Ok ({| ColName := ColName tcl; ColType := ColType tcl;
             ColRows := ColRows tcl; CellShape := CellShape tcl;
             elems := take (i * csz) (elems tcl) ++ gather scl idxs;
             nulls := nulls tcl |},
          log ++ copy_calls_col ci csz i idxs).
Proof.
  induction idxs as [|srw rest IH]; intros i tcl log Hv Hlen Hfit'.
  - cbn [copy_rows gather map concat copy_calls_col imap].
    rewrite !app_nil_r, take_ge by (simpl in Hlen; lia).
    now destruct tcl.
  - inversion_clear Hv as [|? ? Hrow Hrest]. cbn [length] in Hlen.
    cbn [copy_rows].
    assert (Hi : (i * csz + csz <= length (elems tcl))%nat) by (rewrite Hlen; nia).
    assert (Hs : (Z.to_nat srw * csz + csz <= length (elems scl))%nat).
    { rewrite Hsrc.
      assert ((Z.to_nat srw + 1) * csz <= rows * csz)%nat by (apply Nat.mul_le_mono_r; lia).
      lia. }
    assert (Es : srw * Z.of_nat csz = Z.of_nat (Z.to_nat srw * csz)) by lia.
    assert (Ei : Z.of_nat i * Z.of_nat csz = Z.of_nat (i * csz)) by lia.
    assert (Hz : csz = 0%nat -> (i * csz = 0 /\ Z.to_nat srw * csz = 0)%nat) by nia.
    rewrite Es, Ei, !wrap64_small by (unfold in_int64; lia).
    unfold CopyCellsFrom.
    replace ((0 <=? Z.of_nat csz)
             && (0 <=? Z.of_nat (Z.to_nat srw * csz))
             && (Z.of_nat (Z.to_nat srw * csz) + Z.of_nat csz <=? Z.of_nat (length (elems scl)))
             && (0 <=? Z.of_nat (i * csz))
             && (Z.of_nat (i * csz) + Z.of_nat csz <=? Z.of_nat (length (elems tcl))))
      with true.
    2:{ symmetry. rewrite !andb_true_iff, !Z.leb_le. lia. }
    cbn [rbind].
    rewrite <- Nat2Z.inj_add, !Nat2Z.id.
    rewrite IH; auto; cbn [ColName ColType ColRows CellShape elems nulls].
    + rewrite copy_calls_col_cons, <- app_assoc. cbn [app].
      unfold gather at 2. cbn [map concat]. fold (gather scl rest).
      assert (Hc : length (take (i * csz) (elems tcl)
                           ++ take csz (drop (Z.to_nat srw * csz) (elems scl)))
                   = (S i * csz)%nat).
      { rewrite length_app, !length_take, length_drop. lia. }
      rewrite app_assoc, take_app_length' by (now rewrite Hc).
      rewrite <- app_assoc. unfold cell. fold csz.
      unfold copy_call. rewrite Es, Ei. reflexivity.
    + rewrite !length_app, !length_take, !length_drop. lia.
    + rewrite !length_app, !length_take, !length_drop. lia.
Qed.

End CopyRows.

Lemma copy_calls_cons ci cl cols idxs :
  copy_calls ci (cl :: cols) idxs
  = copy_calls_col ci (product (CellShape cl)) 0 idxs ++ copy_calls (S ci) cols idxs.
Proof.
  unfold copy_calls. rewrite imap_cons, Nat.add_0_r. cbn [concat]. do 2 f_equal.
  apply imap_ext. intros k x _. cbn. now rewrite Nat.add_succ_r.
Qed.

Lemma copy_calls_no_rows ci cols : copy_calls ci cols [] = [].
Proof.
  revert ci. induction cols as [|cl cols IH]; intros ci; [reflexivity|].
  rewrite copy_calls_cons, IH. reflexivity.
Qed.

Lemma gather_length scl rows idxs :
  length (elems scl) = (rows * product (CellShape scl))%nat ->
  Forall (fun row => 0 <= row < Z.of_nat rows) idxs ->
  length (gather scl idxs) = (length idxs * product (CellShape scl))%nat.
Proof.
  intros Hsrc Hv. induction Hv as [|row rest Hrow Hrest IH]; [reflexivity|].
  unfold gather in *. cbn [map concat length]. rewrite length_app, IH.
  rewrite (cell_length scl rows Hsrc row Hrow). lia.
Qed.

(** Cell [i] of the gathered column is the cell of row [idxs[i]]. *)
Lemma gather_block scl rows idxs :
  length (elems scl) = (rows * product (CellShape scl))%nat ->
  Forall (fun row => 0 <= row < Z.of_nat rows) idxs ->
  forall i row, idxs !! i = Some row ->
    take (product (CellShape scl)) (drop (i * product (CellShape scl)) (gather scl idxs))
    = cell scl row.
Proof.
  intros Hsrc Hv. induction Hv as [|r rest Hr Hrest IH]; intros i row Hi; [discriminate|].
  pose proof (cell_length scl rows Hsrc r Hr) as Hc.
  unfold gather in *. cbn [map concat]. destruct i as [|i]; cbn in Hi.
  - injection Hi as <-. cbn [Nat.mul]. rewrite drop_0. now apply take_app_length'.
  - replace (S i * product (CellShape scl))%nat
      with (length (cell scl r) + i * product (CellShape scl))%nat by lia.
    rewrite drop_app_add. now apply IH.
Qed.

Section CopyCols.
Variables (srccols : list Column) (rows : nat) (idxs : list Z).
Hypothesis Hvalid : Forall (fun row => 0 <= row < Z.of_nat rows) idxs.

(** The loop over the columns. *)
Lemma copy_cols_spec :
  forall rest pre log,
    srccols = pre ++ rest ->
    Forall (wf_column rows) rest ->
    Forall (fun cl => Z.of_nat (length (elems cl)) <= 2 ^ 63 /\
                      Z.of_nat (length idxs * product (CellShape cl)) <= 2 ^ 63) rest ->
    copy_cols srccols idxs (length pre)
      (map (new_column (length idxs)) (map col_schema rest)) log
    = Ok (map (materialised idxs) rest, log ++ copy_calls (length pre) rest idxs).
Proof.
  induction rest as [|scl rest IH]; intros pre log Hsplit Hwf Hfit.
  - cbn. now rewrite app_nil_r.
  - inversion_clear Hwf as [|? ? (Hrows & Hlen) Hwf'].
    inversion_clear Hfit as [|? ? (Hf1 & Hf2) Hfit'].
    cbn [map copy_cols].
    assert (Hidx : index srccols (Z.of_nat (length pre)) = Ok scl).
    { apply index_ok. rewrite Hsplit. now apply list_lookup_middle. }
    rewrite Hidx. cbn [rbind].
    change (snd (RowCellSize (new_column (length idxs) (col_schema scl))))
      with (product (CellShape scl)).
    rewrite (copy_rows_spec (length pre) scl rows Hlen Hf1 idxs 0%nat); auto.
    2:{ cbn. rewrite length_replicate. reflexivity. }
    2:{ cbn [new_column elems col_schema sc_CellShape]. now rewrite length_replicate. }
    cbn [rbind fst snd].
    specialize (IH (pre ++ [scl]) (log ++ copy_calls_col (length pre) (product (CellShape scl)) 0 idxs)).
    rewrite length_app in IH. cbn [length] in IH. rewrite Nat.add_1_r in IH.
    rewrite IH; auto.
    + cbn [rbind fst snd]. rewrite copy_calls_cons, <- app_assoc. reflexivity.
    + now rewrite <- app_assoc.
Qed.

End CopyCols.

Lemma materialised_no_rows cl : new_column 0 (col_schema cl) = materialised [] cl.
Proof. reflexivity. Qed.

(** What [NewTable] builds. *)
Lemma NewTable_ok (s : Store) (p : ptr) (ix : IdxTable) (t : Table) :
  views s !! p = Some ix ->
  wf_slice s (ix_Idxs ix) ->
  table_at s (ix_Table ix) = Some t ->
  wf_table t ->
  valid_rows t (slice_contents s (ix_Idxs ix)) ->
  fits_int64 t (len (ix_Idxs ix)) ->
  NewTable p s
  = Ok ((length (tables s), copy_calls 0 (Cols t) (slice_contents s (ix_Idxs ix))),
        {| arrays := arrays s;
           tables := tables s ++
                     [ {| Cols := map (materialised (slice_contents s (ix_Idxs ix))) (Cols t);
                          Rows := len (ix_Idxs ix) |} ];
           views := views s |}).
Proof.
  intros Hv Hwf Ht Hwt Hvalid Hfit.
  pose proof (slice_contents_length s _ Hwf) as Hlen.
  set (idxs := slice_contents s (ix_Idxs ix)) in *.
  unfold NewTable.
  rewrite (bind_ok _ _ s ix s) by (unfold get_view; now rewrite Hv).
  cbv zeta.
  rewrite (bind_ok _ _ s t s) by (unfold deref_table; now rewrite Ht).
  destruct (Nat.eqb_spec (len (ix_Idxs ix)) 0) as [Hz|Hnz].
  - assert (Hnil : idxs = []) by (apply length_zero_iff_nil; lia).
    rewrite Hnil, Hz, copy_calls_no_rows.
    unfold bind, alloc_table, ret, New, Schema. cbn [Cols Rows].
    rewrite map_map. reflexivity.
  - rewrite (bind_ok _ _ s idxs s) by reflexivity.
    unfold New, Schema. cbn [Cols Rows]. rewrite <- Hlen.
    rewrite (bind_ok _ _ s (map (materialised idxs) (Cols t),
                            copy_calls 0 (Cols t) idxs) s).
    + reflexivity.
    + apply lift_ok.
      unfold fits_int64 in Hfit. rewrite <- Hlen in Hfit.
      exact (copy_cols_spec (Cols t) (Rows t) idxs Hvalid (Cols t) [] [] eq_refl Hwt Hfit).
Qed.

(** C7: on a view whose indexes are physical rows of its table,
    [NewTable] returns a new table with the schema of the table and as
    many rows as the view has indexes.  The [CopyCellsFrom] calls made
    are, for every column and every logical row [i], the copy of [csz]
    elements from source offset [Idxs[i] * csz] to destination offset
    [i * csz], and cell [i] of every new column is the cell of row
    [Idxs[i]] of the source column.  For an empty view no call is made
    and the columns have no element. *)
Theorem NewTable_materialises (s : Store) (p : ptr) (ix : IdxTable) (t : Table) :
  views s !! p = Some ix ->
  wf_slice s (ix_Idxs ix) ->
  table_at s (ix_Table ix) = Some t ->
  wf_table t ->
  valid_rows t (slice_contents s (ix_Idxs ix)) ->
  fits_int64 t (len (ix_Idxs ix)) ->
  exists q log s' nt,
    NewTable p s = Ok ((q, log), s') /\
    tables s' !! q = Some nt /\
    Schema nt = Schema t /\
    Rows nt = len (ix_Idxs ix) /\
    wf_table nt /\
    log = copy_calls 0 (Cols t) (slice_contents s (ix_Idxs ix)) /\
    (len (ix_Idxs ix) = 0%nat ->
     log = [] /\ Forall (fun cl => elems cl = []) (Cols nt)) /\
    (forall ci scl ncl i row,
       Cols t !! ci = Some scl -> Cols nt !! ci = Some ncl ->
       slice_contents s (ix_Idxs ix) !! i = Some row ->
       take (product (CellShape scl)) (drop (i * product (CellShape scl)) (elems ncl))
       = take (product (CellShape scl))
              (drop (Z.to_nat row * product (CellShape scl)) (elems scl))).
Proof.
  intros Hv Hwf Ht Hwt Hvalid Hfit.
  pose proof (slice_contents_length s _ Hwf) as Hlen.
  set (idxs := slice_contents s (ix_Idxs ix)) in *.
  set (nt := {| Cols := map (materialised idxs) (Cols t); Rows := len (ix_Idxs ix) |}).
  exists (length (tables s)), (copy_calls 0 (Cols t) idxs),
    {| arrays := arrays s; tables := tables s ++ [nt]; views := views s |}, nt.
  split; [now apply NewTable_ok|].
  split; [apply lookup_snoc_last|].
  split.
  { unfold Schema, nt. cbn [Cols]. rewrite map_map. reflexivity. }
  split; [reflexivity|].
  split.
  { unfold wf_table, nt. cbn [Cols Rows]. apply Forall_map.
    eapply Forall_impl; [exact Hwt|]. intros cl (Hr & Hl).
    split; cbn; [exact Hlen|]. rewrite <- Hlen. now apply (gather_length cl (Rows t)). }
  split; [reflexivity|].
  split.
  - intros Hz. assert (Hnil : idxs = []) by (apply length_zero_iff_nil; lia).
    unfold nt. cbn [Cols]. rewrite Hnil. split; [apply copy_calls_no_rows|].
    apply Forall_map, Forall_forall. reflexivity.
  - intros ci scl ncl i row Hs Hn Hi.
    unfold nt in Hn. cbn [Cols] in Hn.
    change (map (materialised idxs) (Cols t)) with (materialised idxs <$> Cols t) in Hn.
    rewrite list_lookup_fmap, Hs in Hn. injection Hn as <-. cbn [materialised elems].
    destruct (Forall_lookup_1 _ _ _ _ Hwt Hs) as (_ & Hl).
    exact (gather_block scl (Rows t) idxs Hl Hvalid i row Hi).
Qed.

Lemma NewTable_materialises_witness :
  views sCells !! 0%nat
  = Some {| ix_Table := Some 0%nat;
            ix_Idxs := {| arr := 0%nat; off := 0%nat; len := 3%nat; cap := 3%nat |};
            ix_lessFunc := None |} /\
  wf_slice sCells {| arr := 0%nat; off := 0%nat; len := 3%nat; cap := 3%nat |} /\
  table_at sCells (Some 0%nat) = Some tCells /\
  wf_table tCells /\
  valid_rows tCells [1; 0; 1] /\
  fits_int64 tCells 3 /\
  exists q log s' nt,
    NewTable 0%nat sCells = Ok ((q, log), s') /\
    tables s' !! q = Some nt /\
    Schema nt = Schema tCells /\
    Rows nt = 3%nat /\
    wf_table nt /\
    log = copy_calls 0 (Cols tCells) [1; 0; 1] /\
    (3%nat = 0%nat -> log = [] /\ Forall (fun cl => elems cl = []) (Cols nt)) /\
    (forall ci scl ncl i row,
       Cols tCells !! ci = Some scl -> Cols nt !! ci = Some ncl ->
       [1; 0; 1] !! i = Some row ->
       take (product (CellShape scl)) (drop (i * product (CellShape scl)) (elems ncl))
       = take (product (CellShape scl))
              (drop (Z.to_nat row * product (CellShape scl)) (elems scl))).
Proof.
  assert (Hwf : wf_slice sCells {| arr := 0%nat; off := 0%nat; len := 3%nat; cap := 3%nat |})
    by (split; simpl; [lia|right; eexists; split; [reflexivity|simpl; lia]]).
  assert (Hwt : wf_table tCells) by (repeat constructor).
  assert (Hvr : valid_rows tCells [1; 0; 1]) by (repeat constructor; simpl; lia).
  assert (Hfi : fits_int64 tCells 3) by (repeat constructor; simpl; lia).
  split; [reflexivity|]. split; [exact Hwf|]. split; [reflexivity|].
  split; [exact Hwt|]. split; [exact Hvr|]. split; [exact Hfi|].
  exact (NewTable_materialises sCells 0%nat _ tCells eq_refl Hwf eq_refl Hwt Hvr Hfi).
Defined.

(** ** A fresh view and its materialisation *)

Lemma take_S_insert {A} (a : list A) i v :
  (i < length a)%nat -> take (S i) (<[i := v]> a) = take i a ++ [v].
Proof.
  intros Hi. rewrite (take_S_r _ _ v) by (now apply list_lookup_insert_eq).
  now rewrite take_insert_ge by lia.
Qed.

(** The loop of [Sequential] on a view whose indexes are the whole of the
    array allocated last: position [i] receives [i]. *)
Lemma Sequential_loop_fresh (p : ptr) (ix : IdxTable) tbls vws arrs :
  vws !! p = Some ix ->
  forall n i a,
    ix_Idxs ix = {| arr := length arrs; off := 0%nat; len := length a; cap := length a |} ->
    (i + n = length a)%nat ->
    Sequential_loop p n i {| arrays := arrs ++ [a]; tables := tbls; views := vws |}
    = Ok (tt, {| arrays := arrs ++ [take i a ++ map Z.of_nat (seq i n)];
                 tables := tbls; views := vws |}).
Proof.
  intros Hv. induction n as [|n IH]; intros i a Hsl Hlen; cbn [Sequential_loop].
  - cbn. rewrite app_nil_r, take_ge by lia. reflexivity.
  - unfold bind at 1, get_view at 1. cbn [views]. rewrite Hv.
    unfold bind at 1, slice_set at 1. rewrite Hsl. cbn [arr off len cap arrays].
    destruct (Nat.ltb_spec i (length a)); [|lia].
    rewrite lookup_snoc_last. cbn [Nat.add].
    destruct (Nat.ltb_spec i (length a)); [|lia].
    rewrite insert_snoc_last. cbn [tables views].
    rewrite (IH (S i) (<[i := Z.of_nat i]> a)).
    + rewrite take_S_insert by lia. cbn [seq map]. now rewrite <- app_assoc.
    + now rewrite length_insert.
    + rewrite length_insert. lia.
Qed.












(** ** Reading a view does not change it *)

Lemma valid_rows_flat_in_range t cl idxs :
  wf_column (Rows t) cl -> valid_rows t idxs ->
  flat_in_range cl (snd (RowCellSize cl)) idxs.
Proof.
  intros (_ & Hl) Hv. unfold flat_in_range. cbn [RowCellSize snd].
  eapply Forall_impl; [exact Hv|]. intros row Hrow j Hj. rewrite Hl.
  cbv beta in Hrow. cbn [RowCellSize snd] in Hj.
  assert (Hm : ((Z.to_nat row + 1) * product (CellShape cl)
                <= Rows t * product (CellShape cl))%nat)
    by (apply Nat.mul_le_mono_r; lia).
  assert (Er : row * Z.of_nat (product (CellShape cl))
               = Z.of_nat (Z.to_nat row * product (CellShape cl))).
  { rewrite Nat2Z.inj_mul, Z2Nat.id by lia. reflexivity. }
  rewrite Er. lia.
Qed.

(** C10: on a view whose indexes are physical rows of its table, and for
    a column of that table, [NewTable] and [AggCol] return and leave the
    view as it was: the same header, hence the same table pointer, the
    same index sequence, and the same table behind the pointer. *)
Theorem NewTable_AggCol_leave_view (s : Store) (p : ptr) (ix : IdxTable) (t : Table)
    (cl : Column) (colIdx : nat) (ini : float64) (fn : AggFunc) :
  views s !! p = Some ix ->
  wf_slice s (ix_Idxs ix) ->
  table_at s (ix_Table ix) = Some t ->
  wf_table t ->
  valid_rows t (slice_contents s (ix_Idxs ix)) ->
  fits_int64 t (len (ix_Idxs ix)) ->
  Cols t !! colIdx = Some cl ->
  (exists r s', NewTable p s = Ok (r, s') /\
                views s' !! p = Some ix /\
                idxs_of s' p = idxs_of s p /\
                table_at s' (ix_Table ix) = Some t) /\
  (exists ag s', AggCol p (Z.of_nat colIdx) ini fn s = Ok (ag, s') /\
                 views s' !! p = Some ix /\
                 idxs_of s' p = idxs_of s p /\
                 table_at s' (ix_Table ix) = Some t).
Proof.
  intros Hv Hwf Ht Hwt Hvalid Hfit Hc. split.
  - eexists _, _. split; [exact (NewTable_ok s p ix t Hv Hwf Ht Hwt Hvalid Hfit)|].
    split; [exact Hv|]. split.
    + unfold idxs_of. cbn [views]. rewrite Hv. reflexivity.
    + unfold table_at in *. cbn [tables].
      destruct (ix_Table ix) as [tp|]; [|discriminate].
      now apply lookup_app_l_Some.
  - pose proof (Forall_lookup_1 _ _ _ _ Hwt Hc) as Hwc.
    pose proof (Forall_lookup_1 _ _ _ _ Hfit Hc) as (Hf & _).
    pose proof (AggCol_ok s p ix t cl colIdx ini fn Hv Ht Hc Hf
                  (valid_rows_flat_in_range t cl _ Hwc Hvalid)) as Hrun.
    eexists _, s. split; [exact Hrun|]. auto.
Qed.

Lemma NewTable_AggCol_leave_view_witness :
  views sCells !! 0%nat
  = Some {| ix_Table := Some 0%nat;
            ix_Idxs := {| arr := 0%nat; off := 0%nat; len := 3%nat; cap := 3%nat |};
            ix_lessFunc := None |} /\
  wf_slice sCells {| arr := 0%nat; off := 0%nat; len := 3%nat; cap := 3%nat |} /\
  table_at sCells (Some 0%nat) = Some tCells /\
  wf_table tCells /\
  valid_rows tCells [1; 0; 1] /\
  fits_int64 tCells 3 /\
  Cols tCells !! 1%nat
  = Some {| ColName := "xy"; ColType := NUMERIC; ColRows := 2; CellShape := [2%nat];
            elems := [num 10; num 11; num 20; num 21];
            nulls := [false; true; false; false] |} /\
  (exists r s', NewTable 0%nat sCells = Ok (r, s') /\
                views s' !! 0%nat = views sCells !! 0%nat /\
                idxs_of s' 0%nat = idxs_of sCells 0%nat /\
                table_at s' (Some 0%nat) = Some tCells) /\
  (exists ag s', AggCol 0%nat 1 F64.zero sum_agg sCells = Ok (ag, s') /\
                 views s' !! 0%nat = views sCells !! 0%nat /\
                 idxs_of s' 0%nat = idxs_of sCells 0%nat /\
                 table_at s' (Some 0%nat) = Some tCells).
Proof.
  assert (Hwf : wf_slice sCells {| arr := 0%nat; off := 0%nat; len := 3%nat; cap := 3%nat |})
    by (split; simpl; [lia|right; eexists; split; [reflexivity|simpl; lia]]).
  assert (Hwt : wf_table tCells) by (repeat constructor).
  assert (Hvr : valid_rows tCells [1; 0; 1]) by (repeat constructor; simpl; lia).
  assert (Hfi : fits_int64 tCells 3) by (repeat constructor; simpl; lia).
  split; [reflexivity|]. split; [exact Hwf|]. split; [reflexivity|].
  split; [exact Hwt|]. split; [exact Hvr|]. split; [exact Hfi|].
  split; [reflexivity|].
  exact (NewTable_AggCol_leave_view sCells 0%nat _ tCells _ 1%nat F64.zero sum_agg
           eq_refl Hwf eq_refl Hwt Hvr Hfi eq_refl).
Defined.

(** ** The loops of [sort.Sort] have fuel enough

    The loops of [doPivot], [siftDown] and [maxDepth] are written with a
    bound on their iterations; more fuel than that bound changes
    nothing, so the bound is never what ends a loop. *)

Section Fuel.
Variable data : sort.Interface.

Lemma skip_not_greater_range pivot n :
  forall b s b1 s', sort.skip_not_greater data pivot n b s = Ok (b1, s') ->
                    (b <= b1 <= b + n)%nat.
Proof.
  induction n as [|n IH]; intros b s b1 s' H; cbn [sort.skip_not_greater] in H.
  - injection H as <- _. lia.
  - apply bind_inv in H as (lt & s1 & _ & H). destruct lt; cbn [negb] in H.
    + injection H as <- _. lia.
    + apply IH in H. lia.
Qed.

Lemma skip_greater_range pivot n :
  forall c s c1 s', sort.skip_greater data pivot n c s = Ok (c1, s') ->
                    (c - n <= c1 <= c)%nat.
Proof.
  induction n as [|n IH]; intros c s c1 s' H; cbn [sort.skip_greater] in H.
  - injection H as <- _. lia.
  - apply bind_inv in H as (lt & s1 & _ & H). destruct lt.
    + apply IH in H. lia.
    + injection H as <- _. lia.
Qed.

Lemma skip_equal_down_range pivot n :
  forall b s b1 s', sort.skip_equal_down data pivot n b s = Ok (b1, s') ->
                    (b - n <= b1 <= b)%nat.
Proof.
  induction n as [|n IH]; intros b s b1 s' H; cbn [sort.skip_equal_down] in H.
  - injection H as <- _. lia.
  - apply bind_inv in H as (lt & s1 & _ & H). destruct lt; cbn [negb] in H.
    + injection H as <- _. lia.
    + apply IH in H. lia.
Qed.

Lemma skip_less_range pivot n :
  forall a s a1 s', sort.skip_less data pivot n a s = Ok (a1, s') ->
                    (a <= a1 <= a + n)%nat.
Proof.
  induction n as [|n IH]; intros a s a1 s' H; cbn [sort.skip_less] in H.
  - injection H as <- _. lia.
  - apply bind_inv in H as (lt & s1 & _ & H). destruct lt.
    + apply IH in H. lia.
    + injection H as <- _. lia.
Qed.

Lemma bind_ext {A B} (m : M A) (k1 k2 : A -> M B) s :
  (forall a s', m s = Ok (a, s') -> k1 a s' = k2 a s') ->
  bind m k1 s = bind m k2 s.
Proof. intros H. unfold bind. destruct (m s) as [[a s']|e]; auto. Qed.

Lemma partition_loop_fuel pivot :
  forall f1 f2 b c s,
    (c - b < f1)%nat -> (c - b < f2)%nat ->
    sort.partition_loop data f1 pivot b c s = sort.partition_loop data f2 pivot b c s.
Proof.
  induction f1 as [|f1 IH]; intros f2 b c s H1 H2; [lia|].
  destruct f2 as [|f2]; [lia|]. cbn [sort.partition_loop].
  apply bind_ext. intros b1 s1 E1. apply skip_not_greater_range in E1.
  apply bind_ext. intros c1 s2 E2. apply skip_greater_range in E2.
  destruct (Nat.leb_spec c1 b1); [reflexivity|].
  apply bind_ext. intros _ s3 _. apply IH; lia.
Qed.

Lemma protect_loop_fuel pivot :
  forall f1 f2 a b s,
    (b - a < f1)%nat -> (b - a < f2)%nat ->
    sort.protect_loop data f1 pivot a b s = sort.protect_loop data f2 pivot a b s.
Proof.
  induction f1 as [|f1 IH]; intros f2 a b s H1 H2; [lia|].
  destruct f2 as [|f2]; [lia|]. cbn [sort.protect_loop].
  apply bind_ext. intros b1 s1 E1. apply skip_equal_down_range in E1.
  apply bind_ext. intros a1 s2 E2. apply skip_less_range in E2.
  destruct (Nat.leb_spec b1 a1); [reflexivity|].
  apply bind_ext. intros _ s3 _. apply IH; lia.
Qed.

Lemma siftDown_loop_fuel hi first :
  forall f1 f2 root s,
    (hi - root < f1)%nat -> (hi - root < f2)%nat ->
    sort.siftDown_loop data f1 root hi first s = sort.siftDown_loop data f2 root hi first s.
Proof.
  induction f1 as [|f1 IH]; intros f2 root s H1 H2; [lia|].
  destruct f2 as [|f2]; [lia|]. cbn [sort.siftDown_loop]. cbv zeta.
  destruct (Nat.leb_spec hi (2 * root + 1)); [reflexivity|].
  apply bind_ext. intros lt s1 _.
  apply bind_ext. intros lt' s2 _.
  destruct lt'; cbn [negb]; [|reflexivity].
  apply bind_ext. intros _ s3 _. apply IH; destruct lt; lia.
Qed.

End Fuel.

Lemma maxDepth_loop_fuel :
  forall f1 f2 i depth,
    (i <= f1)%nat -> (i <= f2)%nat ->
    sort.maxDepth_loop f1 i depth = sort.maxDepth_loop f2 i depth.
Proof.
  induction f1 as [|f1 IH]; intros f2 i depth H1 H2.
  - replace i with 0%nat by lia. now destruct f2.
  - destruct f2 as [|f2]; cbn [sort.maxDepth_loop].
    + replace i with 0%nat by lia. reflexivity.
    + destruct (Nat.ltb_spec 0 i); [|reflexivity].
      assert (i / 2 < i)%nat by (apply Nat.div_lt; lia).
      apply IH; lia.
Qed.


(** * Further properties of the code *)

(** ** Swap *)

Lemma contents_insert (a : list Z) o n k v :
  (k < n)%nat ->
  take n (drop o (<[(o + k)%nat := v]> a)) = <[k := v]> (take n (drop o a)).
Proof.
  intros Hk. rewrite drop_insert_ge by lia.
  replace (o + k - o)%nat with k by lia. now apply take_insert_lt.
Qed.

(** An assignment [sl[k] = v] inside a well-formed slice. *)
Lemma slice_set_spec (s : Store) (sl : slice) (k : nat) (v : Z) :
  wf_slice s sl -> (k < len sl)%nat ->
  exists s',
    slice_set sl k v s = Ok (tt, s') /\
    views s' = views s /\ tables s' = tables s /\
    length (arrays s') = length (arrays s) /\
    (forall b, b <> arr sl -> arrays s' !! b = arrays s !! b) /\
    wf_slice s' sl /\
    slice_contents s' sl = <[k := v]> (slice_contents s sl).
Proof.
  intros Hwf Hk.
  destruct (wf_slice_array s sl Hwf k Hk) as (a & Ha & Hle).
  destruct Hwf as (Hlc & _).
  assert (Harr : (arr sl < length (arrays s))%nat) by (eapply lookup_lt_Some; eauto).
  unfold slice_set. destruct (Nat.ltb_spec k (len sl)); [|lia]. rewrite Ha.
  destruct (Nat.ltb_spec (off sl + k) (length a)); [|lia].
  eexists. split; [reflexivity|]. cbn [views tables arrays].
  split; [reflexivity|]. split; [reflexivity|].
  split; [apply length_insert|].
  split; [intros b Hb; now apply list_lookup_insert_ne|].
  split.
  - split; [exact Hlc|]. right. eexists. cbn [arrays].
    rewrite list_lookup_insert_eq by exact Harr. split; [reflexivity|].
    rewrite length_insert. exact Hle.
  - unfold slice_contents. cbn [arrays].
    rewrite list_lookup_insert_eq by exact Harr. rewrite Ha.
    now apply contents_insert.
Qed.

Lemma slice_get_out_of_range sl i s :
  (len sl <= i)%nat -> slice_get sl i s = Err IndexOutOfRange.
Proof.
  intros H. unfold slice_get. now destruct (Nat.ltb_spec i (len sl)); [lia|].
Qed.

(** What [Swap] does inside the view. *)
Lemma Swap_spec (s : Store) (p : ptr) (ix : IdxTable) (i j : nat) :
  views s !! p = Some ix ->
  wf_slice s (ix_Idxs ix) ->
  (i < len (ix_Idxs ix))%nat -> (j < len (ix_Idxs ix))%nat ->
  exists s' vi vj,
    slice_contents s (ix_Idxs ix) !! i = Some vi /\
    slice_contents s (ix_Idxs ix) !! j = Some vj /\
    Swap p i j s = Ok (tt, s') /\
    views s' = views s /\ tables s' = tables s /\
    length (arrays s') = length (arrays s) /\
    (forall b, b <> arr (ix_Idxs ix) -> arrays s' !! b = arrays s !! b) /\
    wf_slice s' (ix_Idxs ix) /\
    slice_contents s' (ix_Idxs ix)
    = <[j := vi]> (<[i := vj]> (slice_contents s (ix_Idxs ix))).
Proof.
  intros Hv Hwf Hi Hj.
  destruct (slice_get_ok s _ Hwf i Hi) as (vi & Hgi & Hli).
  destruct (slice_get_ok s _ Hwf j Hj) as (vj & Hgj & Hlj).
  destruct (slice_set_spec s _ i vj Hwf Hi) as (s1 & Hs1 & Hv1 & Ht1 & Hl1 & Hb1 & Hwf1 & Hc1).
  destruct (slice_set_spec s1 _ j vi Hwf1 Hj) as (s2 & Hs2 & Hv2 & Ht2 & Hl2 & Hb2 & Hwf2 & Hc2).
  exists s2, vi, vj. split; [exact Hli|]. split; [exact Hlj|].
  split.
  { unfold Swap.
    rewrite (bind_ok _ _ s ix s) by (unfold get_view; now rewrite Hv).
    rewrite (bind_ok _ _ s vj s) by exact Hgj.
    rewrite (bind_ok _ _ s vi s) by exact Hgi.
    rewrite (bind_ok _ _ s tt s1) by exact Hs1. exact Hs2. }
  split; [congruence|]. split; [congruence|]. split; [congruence|].
  split; [intros b Hb; rewrite Hb2, Hb1; auto|].
  split; [exact Hwf2|]. now rewrite Hc2, Hc1.
Qed.

(** X1: [Swap(i, j)] on positions inside the view exchanges the two
    entries and touches nothing else; with a position outside the view
    it panics with index out of range. *)
Theorem Swap_exchanges_entries (s : Store) (p : ptr) (ix : IdxTable) (i j : nat) :
  views s !! p = Some ix ->
  wf_slice s (ix_Idxs ix) ->
  ((i < len (ix_Idxs ix))%nat -> (j < len (ix_Idxs ix))%nat ->
   exists s' old new vi vj,
     Swap p i j s = Ok (tt, s') /\
     idxs_of s p = Some old /\ idxs_of s' p = Some new /\
     old !! i = Some vi /\ old !! j = Some vj /\
     new !! i = Some vj /\ new !! j = Some vi /\
     length new = length old /\
     (forall k, k <> i -> k <> j -> new !! k = old !! k) /\
     views s' = views s /\ tables s' = tables s) /\
  ((len (ix_Idxs ix) <= i)%nat \/ (len (ix_Idxs ix) <= j)%nat ->
   Swap p i j s = Err IndexOutOfRange).
Proof.
  intros Hv Hwf. split.
  - intros Hi Hj.
    destruct (Swap_spec s p ix i j Hv Hwf Hi Hj)
      as (s' & vi & vj & Hli & Hlj & Hrun & Hv' & Ht' & _ & _ & Hwf' & Hc).
    pose proof (slice_contents_length s _ Hwf) as Hlen.
    exists s', (slice_contents s (ix_Idxs ix)), (slice_contents s' (ix_Idxs ix)), vi, vj.
    split; [exact Hrun|].
    split; [unfold idxs_of; now rewrite Hv|].
    split; [unfold idxs_of; now rewrite Hv', Hv|].
    split; [exact Hli|]. split; [exact Hlj|].
    rewrite Hc.
    split.
    { destruct (Nat.eq_dec i j) as [->|Hne].
      - rewrite list_lookup_insert_eq by (rewrite length_insert; lia). congruence.
      - rewrite list_lookup_insert_ne by auto.
        apply list_lookup_insert_eq. lia. }
    split; [apply list_lookup_insert_eq; rewrite length_insert; lia|].
    split; [now rewrite !length_insert|].
    split; [|auto].
    intros k Hki Hkj. now rewrite !list_lookup_insert_ne by auto.
  - intros Hout. unfold Swap.
    rewrite (bind_ok _ _ s ix s) by (unfold get_view; now rewrite Hv).
    destruct (Nat.le_gt_cases (len (ix_Idxs ix)) j) as [Hj|Hj].
    + unfold bind. now rewrite slice_get_out_of_range.
    + destruct (slice_get_ok s _ Hwf j Hj) as (vj & Hgj & _).
      rewrite (bind_ok _ _ s vj s) by exact Hgj.
      unfold bind. rewrite slice_get_out_of_range; [reflexivity|].
      destruct Hout; lia.
Qed.

Lemma Swap_exchanges_entries_witness :
  views sCells !! 0%nat
  = Some {| ix_Table := Some 0%nat;
            ix_Idxs := {| arr := 0%nat; off := 0%nat; len := 3%nat; cap := 3%nat |};
            ix_lessFunc := None |} /\
  wf_slice sCells {| arr := 0%nat; off := 0%nat; len := 3%nat; cap := 3%nat |} /\
  ((0 < 3)%nat -> (1 < 3)%nat ->
   exists s' old new vi vj,
     Swap 0%nat 0%nat 1%nat sCells = Ok (tt, s') /\
     idxs_of sCells 0%nat = Some old /\ idxs_of s' 0%nat = Some new /\
     old !! 0%nat = Some vi /\ old !! 1%nat = Some vj /\
     new !! 0%nat = Some vj /\ new !! 1%nat = Some vi /\
     length new = length old /\
     (forall k, k <> 0%nat -> k <> 1%nat -> new !! k = old !! k) /\
     views s' = views sCells /\ tables s' = tables sCells) /\
  ((3 <= 0)%nat \/ (3 <= 1)%nat ->
   Swap 0%nat 0%nat 1%nat sCells = Err IndexOutOfRange).
Proof.
  assert (Hwf : wf_slice sCells {| arr := 0%nat; off := 0%nat; len := 3%nat; cap := 3%nat |})
    by (split; simpl; [lia|right; eexists; split; [reflexivity|simpl; lia]]).
  split; [reflexivity|]. split; [exact Hwf|].
  exact (Swap_exchanges_entries sCells 0%nat _ 0%nat 1%nat eq_refl Hwf).
Defined.

(** ** [sort.Sort] stays inside the data

    Whatever [Less] answers, every position that [sort.Sort] hands to
    [Less] and [Swap] is below [Len]; so [sort.Sort] returns as soon as
    [Less] and [Swap] do on such positions. *)

Section SortRuns.
Variables (data : sort.Interface) (N : nat) (I : Store -> Prop).
Hypothesis HLess :
  forall i j, (i < N)%nat -> (j < N)%nat -> runs I (sort.Less data i j) (fun _ => True).
Hypothesis HSwap :
  forall i j, (i < N)%nat -> (j < N)%nat -> runs I (sort.Swap data i j) (fun _ => True).

Lemma runs_ret {A} (a : A) (Q : A -> Prop) : Q a -> runs I (ret a) Q.
Proof. intros HQ s Hs. exists a, s. auto. Qed.

Lemma runs_bind {A B} (m : M A) (k : A -> M B) (Q : A -> Prop) (Q' : B -> Prop) :
  runs I m Q -> (forall a, Q a -> runs I (k a) Q') -> runs I (bind m k) Q'.
Proof.
  intros Hm Hk s Hs. destruct (Hm s Hs) as (a & s1 & H1 & Hs1 & Ha).
  destruct (Hk a Ha s1 Hs1) as (b & s2 & H2 & Hs2 & Hb).
  exists b, s2. rewrite (bind_ok _ _ _ _ _ H1). auto.
Qed.

Lemma runs_weaken {A} (m : M A) (Q Q' : A -> Prop) :
  runs I m Q -> (forall a, Q a -> Q' a) -> runs I m Q'.
Proof.
  intros Hm HQ s Hs. destruct (Hm s Hs) as (a & s1 & H1 & Hs1 & Ha).
  exists a, s1. auto.
Qed.

(** A call of [Less] on two positions below [N], then the rest. *)
Ltac less_step :=
  eapply runs_bind; [apply HLess; lia|]; intros [] _; cbn [negb].
Ltac swap_step :=
  eapply runs_bind; [apply HSwap; lia|]; intros _ _.

Lemma insert_down_runs a j :
  (j < N)%nat -> runs I (sort.insert_down data a j) (fun _ => True).
Proof.
  induction j as [|j IH]; intros Hj; cbn [sort.insert_down]; [now apply runs_ret|].
  destruct (a <? S j)%nat; [|now apply runs_ret].
  less_step; [|now apply runs_ret]. swap_step. apply IH. lia.
Qed.

Lemma insertion_loop_runs a n :
  forall i, (n = 0 \/ i + n <= N)%nat ->
            runs I (sort.insertion_loop data a n i) (fun _ => True).
Proof.
  induction n as [|n IH]; intros i Hi; cbn [sort.insertion_loop]; [now apply runs_ret|].
  eapply runs_bind; [apply insert_down_runs; lia|]. intros _ _. apply IH. lia.
Qed.

Lemma shell_pass_runs n :
  forall i, (n = 0 \/ i + n <= N)%nat ->
            runs I (sort.shell_pass data n i) (fun _ => True).
Proof.
  induction n as [|n IH]; intros i Hi; cbn [sort.shell_pass]; [now apply runs_ret|].
  less_step.
  - swap_step. apply IH. lia.
  - eapply runs_bind; [now apply (runs_ret tt (fun _ => True))|].
    intros _ _. apply IH. lia.
Qed.

Lemma siftDown_loop_runs hi first fuel :
  forall root, (first + hi <= N)%nat ->
               runs I (sort.siftDown_loop data fuel root hi first) (fun _ => True).
Proof.
  induction fuel as [|fuel IH]; intros root Hhi; cbn [sort.siftDown_loop];
    [now apply runs_ret|].
  cbv zeta. destruct (Nat.leb_spec hi (2 * root + 1)); [now apply runs_ret|].
  eapply runs_bind with (Q := fun lt : bool => lt = true -> (2 * root + 1 + 1 < hi)%nat).
  { destruct (Nat.ltb_spec (2 * root + 1 + 1) hi).
    - eapply runs_weaken; [apply HLess; lia|]. auto.
    - apply runs_ret. discriminate. }
  intros lt Hlt.
  assert (Hc : (first + (if lt then 2 * root + 1 + 1 else 2 * root + 1) < N)%nat).
  { destruct lt; [specialize (Hlt eq_refl)|]; lia. }
  eapply runs_bind; [apply HLess; lia|]. intros [] _; cbn [negb];
    [|now apply runs_ret].
  eapply runs_bind; [apply HSwap; lia|]. intros _ _. now apply IH.
Qed.

Lemma heap_build_runs hi first n :
  (first + hi <= N)%nat -> runs I (sort.heap_build data n hi first) (fun _ => True).
Proof.
  intros Hhi. induction n as [|n IH]; cbn [sort.heap_build]; [now apply runs_ret|].
  eapply runs_bind; [now apply siftDown_loop_runs|]. intros _ _. exact IH.
Qed.

Lemma heap_pop_runs lo first n :
  (first + n <= N)%nat -> runs I (sort.heap_pop data n lo first) (fun _ => True).
Proof.
  induction n as [|n IH]; intros Hn; cbn [sort.heap_pop]; [now apply runs_ret|].
  swap_step. eapply runs_bind; [apply siftDown_loop_runs; lia|]. intros _ _.
  apply IH. lia.
Qed.

Lemma heapSort_runs a b :
  (a <= b)%nat -> (b <= N)%nat -> runs I (sort.heapSort data a b) (fun _ => True).
Proof.
  intros Ha Hb. unfold sort.heapSort. cbv zeta.
  eapply runs_bind; [apply heap_build_runs; lia|]. intros _ _.
  apply heap_pop_runs. lia.
Qed.

Lemma medianOfThree_runs m1 m0 m2 :
  (m1 < N)%nat -> (m0 < N)%nat -> (m2 < N)%nat ->
  runs I (sort.medianOfThree data m1 m0 m2) (fun _ => True).
Proof.
  intros H1 H0 H2. unfold sort.medianOfThree.
  eapply runs_bind; [apply HLess; lia|]. intros lt _.
  eapply runs_bind with (Q := fun _ => True).
  { destruct lt; [apply HSwap; lia|now apply runs_ret]. }
  intros _ _. less_step; [|now apply runs_ret].
  swap_step. less_step; [apply HSwap; lia|now apply runs_ret].
Qed.

Lemma skip_less_runs pivot n :
  forall a, (n = 0 \/ (pivot < N /\ a + n <= N))%nat ->
            runs I (sort.skip_less data pivot n a) (fun a1 => (a1 <= a + n)%nat).
Proof.
  induction n as [|n IH]; intros a Ha; cbn [sort.skip_less];
    [apply runs_ret; lia|].
  less_step; [|apply runs_ret; lia].
  eapply runs_weaken; [apply IH; lia|]. cbv beta. intros; lia.
Qed.

Lemma skip_not_greater_runs pivot n :
  forall b, (n = 0 \/ (pivot < N /\ b + n <= N))%nat ->
            runs I (sort.skip_not_greater data pivot n b) (fun b1 => (b1 <= b + n)%nat).
Proof.
  induction n as [|n IH]; intros b Hb; cbn [sort.skip_not_greater];
    [apply runs_ret; lia|].
  less_step; [apply runs_ret; lia|].
  eapply runs_weaken; [apply IH; lia|]. cbv beta. intros; lia.
Qed.

Lemma skip_greater_runs pivot n :
  forall c, (pivot < N)%nat -> (c <= N)%nat ->
            runs I (sort.skip_greater data pivot n c) (fun c1 => (c1 <= c)%nat).
Proof.
  induction n as [|n IH]; intros c Hp Hc; cbn [sort.skip_greater];
    [apply runs_ret; lia|].
  less_step; [|apply runs_ret; lia].
  eapply runs_weaken; [apply IH; lia|]. cbv beta. intros; lia.
Qed.

Lemma skip_equal_down_runs pivot n :
  forall b, (pivot < N)%nat -> (b <= N)%nat ->
            runs I (sort.skip_equal_down data pivot n b) (fun b1 => (b1 <= b)%nat).
Proof.
  induction n as [|n IH]; intros b Hp Hb; cbn [sort.skip_equal_down];
    [apply runs_ret; lia|].
  less_step; [apply runs_ret; lia|].
  eapply runs_weaken; [apply IH; lia|]. cbv beta. intros; lia.
Qed.

Lemma partition_loop_runs pivot fuel :
  forall b c, (pivot < N)%nat -> (c <= N)%nat ->
    runs I (sort.partition_loop data fuel pivot b c)
      (fun bc => (fst bc <= Nat.max b c /\ snd bc <= c)%nat).
Proof.
  induction fuel as [|fuel IH]; intros b c Hp Hc; cbn [sort.partition_loop];
    [apply runs_ret; cbn; lia|].
  eapply runs_bind; [apply skip_not_greater_runs; lia|]. intros b1 Hb1. cbv beta in Hb1.
  eapply runs_bind; [apply skip_greater_runs; lia|]. intros c1 Hc1. cbv beta in Hc1.
  destruct (Nat.leb_spec c1 b1); [apply runs_ret; cbn; lia|].
  swap_step. eapply runs_weaken; [apply IH; lia|]. cbv beta. intros [b' c']; cbn. lia.
Qed.

Lemma protect_loop_runs pivot fuel :
  forall a b, (pivot < N)%nat -> (b <= N)%nat ->
    runs I (sort.protect_loop data fuel pivot a b) (fun ab => (snd ab <= b)%nat).
Proof.
  induction fuel as [|fuel IH]; intros a b Hp Hb; cbn [sort.protect_loop];
    [apply runs_ret; cbn; lia|].
  eapply runs_bind; [apply skip_equal_down_runs; lia|]. intros b1 Hb1. cbv beta in Hb1.
  eapply runs_bind; [apply skip_less_runs; lia|]. intros a1 Ha1. cbv beta in Ha1.
  destruct (Nat.leb_spec b1 a1); [apply runs_ret; cbn; lia|].
  swap_step. eapply runs_weaken; [apply IH; lia|]. cbv beta. intros [a' b']; cbn. lia.
Qed.

Lemma doPivot_runs lo hi :
  (12 < hi - lo)%nat -> (hi <= N)%nat ->
  runs I (sort.doPivot data lo hi) (fun mm => (fst mm <= hi /\ snd mm <= hi)%nat).
Proof.
  intros Hr Hn. unfold sort.doPivot. cbv zeta.
  assert (Hs : (8 * ((hi - lo) / 8) <= hi - lo)%nat) by (apply Nat.Div0.mul_div_le).
  assert (Hm : (lo + hi - 1 <= 2 * ((lo + hi) / 2) <= lo + hi)%nat).
  { pose proof (Nat.div_mod_eq (lo + hi) 2).
    pose proof (Nat.mod_upper_bound (lo + hi) 2). lia. }
  eapply runs_bind with (Q := fun _ => True).
  { destruct (Nat.ltb_spec 40 (hi - lo)); [|now apply runs_ret].
    eapply runs_bind; [apply medianOfThree_runs; lia|]. intros _ _.
    eapply runs_bind; [apply medianOfThree_runs; lia|]. intros _ _.
    apply medianOfThree_runs; lia. }
  intros _ _.
  eapply runs_bind; [apply medianOfThree_runs; lia|]. intros _ _.
  eapply runs_bind; [apply skip_less_runs; lia|]. intros a1 Ha1. cbv beta in Ha1.
  eapply runs_bind; [apply partition_loop_runs; lia|]. intros [b c] (Hb & Hc).
  cbn [fst snd] in *.
  eapply runs_bind with (Q := fun pbc => (snd (fst pbc) <= hi - 1 /\ snd pbc <= hi)%nat).
  { destruct (negb (hi - c <? 5)%nat && (hi - c <? (hi - lo) / 4)%nat);
      [|apply runs_ret; cbn; lia].
    eapply runs_bind; [apply HLess; lia|]. intros lt1 _.
    eapply runs_bind with (Q := fun cd => (fst cd <= hi)%nat).
    { destruct lt1; cbn [negb]; [apply runs_ret; cbn; lia|].
      swap_step. apply runs_ret; cbn; lia. }
    intros [c' dups] Hc'. cbn [fst snd] in *.
    eapply runs_bind; [apply HLess; lia|]. intros lt2 _.
    eapply runs_bind; [apply HLess; lia|]. intros lt3 _.
    eapply runs_bind with (Q := fun bd => (fst bd <= hi - 1)%nat).
    { destruct lt3; cbn [negb]; [apply runs_ret; destruct lt2; cbn [negb fst snd]; lia|].
      eapply runs_bind; [apply HSwap; destruct lt2; cbn [negb]; lia|]. intros _ _.
      apply runs_ret; destruct lt2; cbn [negb fst snd]; lia. }
    intros [b' dups'] Hb'. cbn [fst snd] in *.
    apply runs_ret; cbn; lia. }
  intros [[protect b'] c'] (Hb' & Hc'). cbn [fst snd] in *.
  eapply runs_bind with (Q := fun b2 => (b2 <= hi - 1)%nat).
  { destruct protect; [|apply runs_ret; lia].
    eapply runs_bind; [apply protect_loop_runs; lia|]. intros [a2 b2] Hb2.
    cbn [fst snd] in *. apply runs_ret; lia. }
  intros b2 Hb2. cbv beta in Hb2.
  swap_step. apply runs_ret; cbn; lia.
Qed.

Lemma quickSort_runs maxDepth :
  forall a b, (b <= N)%nat -> runs I (sort.quickSort data maxDepth a b) (fun _ => True).
Proof.
  assert (Hsmall : forall a b, (b <= N)%nat ->
            runs I (if (1 <? b - a)%nat
                    then bind (sort.shell_pass data (b - (a + 6)) (a + 6))
                           (fun _ => sort.insertionSort data a b)
                    else ret tt) (fun _ => True)).
  { intros a b Hb. destruct (Nat.ltb_spec 1 (b - a)); [|now apply runs_ret].
    eapply runs_bind; [apply shell_pass_runs; lia|]. intros _ _.
    apply insertion_loop_runs. lia. }
  induction maxDepth as [|d IH]; intros a b Hb; cbn [sort.quickSort];
    destruct (Nat.ltb_spec 12 (b - a)); try (now apply Hsmall).
  - apply heapSort_runs; lia.
  - eapply runs_bind; [apply doPivot_runs; lia|]. intros [mlo mhi] (Hlo & Hhi).
    cbn [fst snd] in *.
    destruct (mlo - a <? b - mhi)%nat.
    + eapply runs_bind; [apply IH; lia|]. intros _ _. apply IH; lia.
    + eapply runs_bind; [apply IH; lia|]. intros _ _. apply IH; lia.
Qed.

Lemma Sort_runs :
  runs I (sort.Len data) (fun n => n = N) ->
  runs I (sort.Sort data) (fun _ => True).
Proof.
  intros HLen. unfold sort.Sort.
  eapply runs_bind; [exact HLen|]. intros n ->. cbv beta.
  apply quickSort_runs. lia.
Qed.

End SortRuns.

(** ** [Sort] on a view *)

Lemma insert_head_perm (l : list Z) j x v :
  l !! j = Some v -> v :: <[j := x]> l ≡ₚ x :: l.
Proof.
  revert j. induction l as [|y l IH]; intros [|j] H; try discriminate.
  - injection H as ->. apply Permutation_swap.
  - cbn in H |- *. rewrite (Permutation_swap y v). rewrite (IH j H).
    apply Permutation_swap.
Qed.

Lemma insert_insert_perm (l : list Z) i j vi vj :
  l !! i = Some vi -> l !! j = Some vj -> <[j := vi]> (<[i := vj]> l) ≡ₚ l.
Proof.
  revert i j. induction l as [|x l IH]; intros [|i] [|j] Hi Hj; try discriminate;
    cbn in Hi, Hj |- *.
  - injection Hi as ->. reflexivity.
  - injection Hi as ->. now apply insert_head_perm.
  - injection Hj as ->. now apply insert_head_perm.
  - f_equiv. now apply IH.
Qed.

(** [Sort] returns as soon as the comparator answers on the rows of the
    view, and what it leaves is a rearrangement of the indexes in the same
    backing array. *)
Lemma Sort_ok (s : Store) (p : ptr) (ix : IdxTable) (lessFunc : LessFunc) :
  views s !! p = Some ix ->
  wf_slice s (ix_Idxs ix) ->
  (forall x y, x ∈ slice_contents s (ix_Idxs ix) ->
               y ∈ slice_contents s (ix_Idxs ix) ->
               exists b, lessFunc (table_at s (ix_Table ix)) x y = Ok b) ->
  exists s',
    Sort p lessFunc s = Ok (tt, s') /\
    views s' = <[p := {| ix_Table := ix_Table ix; ix_Idxs := ix_Idxs ix;
                         ix_lessFunc := Some lessFunc |}]> (views s) /\
    tables s' = tables s /\
    length (arrays s') = length (arrays s) /\
    (forall b, b <> arr (ix_Idxs ix) -> arrays s' !! b = arrays s !! b) /\
    wf_slice s' (ix_Idxs ix) /\
    slice_contents s' (ix_Idxs ix) ≡ₚ slice_contents s (ix_Idxs ix).
Proof.
  intros Hv Hwf Htot.
  set (ix1 := {| ix_Table := ix_Table ix; ix_Idxs := ix_Idxs ix;
                 ix_lessFunc := Some lessFunc |}).
  set (s1 := {| arrays := arrays s; tables := tables s;
                views := <[p := ix1]> (views s) |}).
  set (I := fun s' : Store =>
              views s' = views s1 /\ tables s' = tables s /\
              length (arrays s') = length (arrays s) /\
              (forall b, b <> arr (ix_Idxs ix) -> arrays s' !! b = arrays s !! b) /\
              wf_slice s' (ix_Idxs ix) /\
              slice_contents s' (ix_Idxs ix) ≡ₚ slice_contents s (ix_Idxs ix)).
  assert (Hv1 : views s1 !! p = Some ix1).
  { apply list_lookup_insert_eq. now apply lookup_lt_Some in Hv. }
  assert (HI1 : I s1).
  { unfold I. split; [reflexivity|]. split; [reflexivity|]. split; [reflexivity|].
    split; [reflexivity|]. split; [exact Hwf|]. reflexivity. }
  assert (HL : forall i j, (i < len (ix_Idxs ix))%nat -> (j < len (ix_Idxs ix))%nat ->
                 runs I (Less p i j) (fun _ => True)).
  { intros i j Hi Hj s2 (Hv2 & Ht2 & Hl2 & Hb2 & Hwf2 & Hp2).
    destruct (slice_get_ok s2 _ Hwf2 i Hi) as (vi & Hgi & Hli).
    destruct (slice_get_ok s2 _ Hwf2 j Hj) as (vj & Hgj & Hlj).
    destruct (Htot vi vj) as [b Hb].
    { rewrite <- Hp2. eapply list_elem_of_lookup_2, Hli. }
    { rewrite <- Hp2. eapply list_elem_of_lookup_2, Hlj. }
    exists b, s2. split; [|split; [unfold I; auto 10|exact Logic.I]].
    unfold Less.
    rewrite (bind_ok _ _ s2 ix1 s2) by (unfold get_view; now rewrite Hv2, Hv1).
    rewrite (bind_ok _ _ s2 (table_at s2 (ix_Table ix1)) s2) by reflexivity.
    cbn [ix_Idxs ix_Table ix_lessFunc ix1].
    rewrite (bind_ok _ _ s2 vi s2) by exact Hgi.
    rewrite (bind_ok _ _ s2 vj s2) by exact Hgj.
    unfold lift. replace (table_at s2 (ix_Table ix)) with (table_at s (ix_Table ix)).
    - now rewrite Hb.
    - unfold table_at. now rewrite Ht2. }
  assert (HS : forall i j, (i < len (ix_Idxs ix))%nat -> (j < len (ix_Idxs ix))%nat ->
                 runs I (Swap p i j) (fun _ => True)).
  { intros i j Hi Hj s2 (Hv2 & Ht2 & Hl2 & Hb2 & Hwf2 & Hp2).
    destruct (Swap_spec s2 p ix1 i j) as
        (s3 & vi & vj & Hli & Hlj & Hrun & Hv3 & Ht3 & Hl3 & Hb3 & Hwf3 & Hc3);
      [now rewrite Hv2| exact Hwf2 | exact Hi | exact Hj |].
    cbn [ix_Idxs ix1] in *.
    exists tt, s3. split; [exact Hrun|]. split; [|exact Logic.I].
    split; [congruence|]. split; [congruence|]. split; [congruence|].
    split; [intros b Hb; rewrite Hb3 by exact Hb; now apply Hb2|].
    split; [exact Hwf3|].
    rewrite Hc3, <- Hp2. now apply insert_insert_perm. }
  assert (HN : runs I (Len p) (fun n => n = len (ix_Idxs ix))).
  { intros s2 (Hv2 & Hrest). exists (len (ix_Idxs ix)), s2.
    split; [|split; [unfold I; auto|reflexivity]].
    unfold Len. rewrite (bind_ok _ _ s2 ix1 s2) by (unfold get_view; now rewrite Hv2, Hv1).
    reflexivity. }
  destruct (Sort_runs (as_Interface p) (len (ix_Idxs ix)) I HL HS HN s1 HI1)
    as ([] & s' & Hrun & (Hv' & Ht' & Hl' & Hb' & Hwf' & Hp') & _).
  exists s'. split.
  { unfold Sort. now rewrite (bind_ok _ _ s tt s1) by (now apply set_lessFunc_ok). }
  repeat (split; [assumption|]). exact Hp'.
Qed.

(** X2: [Sort] with a comparator that answers (does not panic) on every
    pair of rows of the view returns, whatever the comparator answers, and
    leaves a rearrangement of the indexes the view had: no row is lost,
    added or duplicated, and the table is untouched. *)
Theorem Sort_returns_a_permutation
  (s : Store) (p : ptr) (lessFunc : LessFunc) (ix : IdxTable) (old : list Z) :
  views s !! p = Some ix ->
  wf_slice s (ix_Idxs ix) ->
  idxs_of s p = Some old ->
  (forall x y, x ∈ old -> y ∈ old ->
               exists b, lessFunc (table_at s (ix_Table ix)) x y = Ok b) ->
  exists s' new,
    Sort p lessFunc s = Ok (tt, s') /\
    idxs_of s' p = Some new /\
    new ≡ₚ old /\
    tables s' = tables s.
Proof.
  intros Hv Hwf Hold Htot.
  unfold idxs_of in Hold. rewrite Hv in Hold. injection Hold as <-.
  destruct (Sort_ok s p ix lessFunc Hv Hwf Htot)
    as (s' & Hrun & Hv' & Ht' & _ & _ & _ & Hp').
  exists s', (slice_contents s' (ix_Idxs ix)).
  split; [exact Hrun|]. split; [|split; assumption].
  unfold idxs_of. rewrite Hv'.
  rewrite list_lookup_insert_eq by (now apply lookup_lt_Some in Hv). reflexivity.
Qed.

Lemma Sort_returns_a_permutation_witness :
  wf_slice sAB {| arr := 0%nat; off := 0%nat; len := 2%nat; cap := 2%nat |} /\
  exists s' new,
    Sort 0%nat (SortCols_less [1] true) sAB = Ok (tt, s') /\
    idxs_of s' 0%nat = Some new /\
    new ≡ₚ [0; 1] /\
    tables s' = tables sAB.
Proof.
  assert (Hwf : wf_slice sAB {| arr := 0%nat; off := 0%nat; len := 2%nat; cap := 2%nat |})
    by (split; simpl; [lia|right; eexists; split; [reflexivity|simpl; lia]]).
  split; [exact Hwf|].
  refine (Sort_returns_a_permutation sAB 0%nat (SortCols_less [1] true) _ [0; 1]
            eq_refl Hwf eq_refl _).
  intros x y Hx Hy.
  apply list_elem_of_In in Hx, Hy. simpl in Hx, Hy.
  destruct Hx as [<-|[<-|[]]], Hy as [<-|[<-|[]]]; eexists; vm_compute; reflexivity.
Defined.

(** A comparator that answers "not less" on every pair of rows of the
    view makes [sort.Sort] return without a single exchange. *)
Lemma Sort_ties_ok (s : Store) (p : ptr) (ix : IdxTable) (lessFunc : LessFunc) :
  views s !! p = Some ix ->
  wf_slice s (ix_Idxs ix) ->
  (forall x y, x ∈ slice_contents s (ix_Idxs ix) ->
               y ∈ slice_contents s (ix_Idxs ix) ->
               lessFunc (table_at s (ix_Table ix)) x y = Ok false) ->
  Sort p lessFunc s
  = Ok (tt, {| arrays := arrays s; tables := tables s;
               views := <[p := {| ix_Table := ix_Table ix; ix_Idxs := ix_Idxs ix;
                                  ix_lessFunc := Some lessFunc |}]> (views s) |}).
Proof.
  intros Hv Hwf Hties.
  set (ix1 := {| ix_Table := ix_Table ix; ix_Idxs := ix_Idxs ix;
                 ix_lessFunc := Some lessFunc |}).
  set (s1 := {| arrays := arrays s; tables := tables s;
                views := <[p := ix1]> (views s) |}).
  assert (Hv1 : views s1 !! p = Some ix1).
  { apply list_lookup_insert_eq. now apply lookup_lt_Some in Hv. }
  unfold Sort. rewrite (bind_ok _ _ s tt s1) by (now apply set_lessFunc_ok).
  apply (Sort_idle (as_Interface p) s1 (len (ix_Idxs ix))).
  - intros i j Hi Hj. unfold idle. cbn [as_Interface sort.Less]. unfold Less.
    rewrite (bind_ok _ _ s1 ix1 s1) by (unfold get_view; now rewrite Hv1).
    rewrite (bind_ok _ _ s1 (table_at s1 (ix_Table ix1)) s1) by reflexivity.
    destruct (slice_get_ok s1 (ix_Idxs ix) Hwf i Hi) as (vi & Hgi & Hli).
    destruct (slice_get_ok s1 (ix_Idxs ix) Hwf j Hj) as (vj & Hgj & Hlj).
    cbn [ix_Idxs ix_Table ix_lessFunc ix1].
    rewrite (bind_ok _ _ s1 vi s1) by exact Hgi.
    rewrite (bind_ok _ _ s1 vj s1) by exact Hgj.
    unfold lift.
    change (table_at s1 (ix_Table ix)) with (table_at s (ix_Table ix)).
    rewrite Hties; [reflexivity| |].
    + eapply list_elem_of_lookup_2, Hli.
    + eapply list_elem_of_lookup_2, Hlj.
  - intros i Hi. exact (Swap_same s1 p ix1 Hv1 Hwf i Hi).
  - unfold idle, as_Interface, sort.Len, Len.
    rewrite (bind_ok _ _ s1 ix1 s1) by (unfold get_view; now rewrite Hv1). reflexivity.
Qed.

(** X3: when the comparator answers "not less" for every pair of rows of
    the view (all rows tie), [Sort] returns and the indexes keep their
    order: ties alone are never reordered. *)
Theorem Sort_of_tied_rows_keeps_Idxs
  (s : Store) (p : ptr) (ix : IdxTable) (lessFunc : LessFunc) (old : list Z) :
  views s !! p = Some ix ->
  wf_slice s (ix_Idxs ix) ->
  idxs_of s p = Some old ->
  (forall x y, x ∈ old -> y ∈ old ->
               lessFunc (table_at s (ix_Table ix)) x y = Ok false) ->
  exists s', Sort p lessFunc s = Ok (tt, s') /\ idxs_of s' p = Some old.
Proof.
  intros Hv Hwf Hold Hties.
  unfold idxs_of in Hold. rewrite Hv in Hold. injection Hold as <-.
  eexists. split; [exact (Sort_ties_ok s p ix lessFunc Hv Hwf Hties)|].
  unfold idxs_of. cbn [views].
  rewrite list_lookup_insert_eq by (now apply lookup_lt_Some in Hv). reflexivity.
Qed.

Lemma Sort_of_tied_rows_keeps_Idxs_witness :
  wf_slice sTies {| arr := 0%nat; off := 0%nat; len := 4%nat; cap := 4%nat |} /\
  exists s', Sort 0%nat (SortCols_less [0] true) sTies = Ok (tt, s') /\
             idxs_of s' 0%nat = Some [2; 3; 4; 5].
Proof.
  assert (Hwf : wf_slice sTies {| arr := 0%nat; off := 0%nat; len := 4%nat; cap := 4%nat |})
    by (split; simpl; [lia|right; eexists; split; [reflexivity|simpl; lia]]).
  split; [exact Hwf|].
  refine (Sort_of_tied_rows_keeps_Idxs sTies 0%nat _ (SortCols_less [0] true) [2; 3; 4; 5]
            eq_refl Hwf eq_refl _).
  intros x y Hx Hy.
  apply list_elem_of_In in Hx, Hy. simpl in Hx, Hy.
  destruct Hx as [<-|[<-|[<-|[<-|[]]]]], Hy as [<-|[<-|[<-|[<-|[]]]]];
    vm_compute; reflexivity.
Defined.

(** ** When [sort.Sort] first consults [Less] *)

Lemma bind_err {A B} (m : M A) (k : A -> M B) s e :
  m s = Err e -> bind m k s = Err e.
Proof. intros H. unfold bind. now rewrite H. Qed.

(** On at most one element, [sort.Sort] calls neither [Less] nor [Swap]. *)
Lemma sort_Sort_short (data : sort.Interface) (s : Store) (n : nat) :
  idle s (sort.Len data) n -> (n <= 1)%nat -> idle s (sort.Sort data) tt.
Proof.
  intros HLen Hn. unfold idle, sort.Sort.
  rewrite (bind_ok _ _ s n s) by exact HLen.
  destruct (sort.maxDepth n); cbn [sort.quickSort];
    destruct (Nat.ltb_spec 12 (n - 0)); try lia;
    destruct (Nat.ltb_spec 1 (n - 0)); try lia; reflexivity.
Qed.

(** On two elements or more, [sort.Sort] starts with a call of [Less]:
    if every call of [Less] panics, so does [sort.Sort]. *)
Lemma sort_Sort_first_compare (data : sort.Interface) (s : Store) (n : nat) (e : Panic) :
  idle s (sort.Len data) n ->
  (forall i j, (i < n)%nat -> (j < n)%nat -> sort.Less data i j s = Err e) ->
  (2 <= n)%nat ->
  sort.Sort data s = Err e.
Proof.
  intros HLen HLess Hn. unfold sort.Sort.
  rewrite (bind_ok _ _ s n s) by exact HLen.
  destruct (Nat.ltb_spec 12 (n - 0)) as [Hbig|Hsmall].
  - pose proof (maxDepth_pos n ltac:(lia)) as Hd.
    destruct (sort.maxDepth n) as [|d]; [lia|]. cbn [sort.quickSort].
    destruct (Nat.ltb_spec 12 (n - 0)); [|lia].
    apply bind_err. unfold sort.doPivot. cbv zeta.
    assert (H8 : (8 * ((n - 0) / 8) <= n - 0)%nat) by (apply Nat.Div0.mul_div_le).
    assert (H2 : (2 * ((0 + n) / 2) <= 0 + n)%nat) by (apply Nat.Div0.mul_div_le).
    destruct (Nat.ltb_spec 40 (n - 0)).
    + do 2 apply bind_err. unfold sort.medianOfThree. apply bind_err.
      apply HLess; lia.
    + rewrite (bind_ok _ _ s tt s) by reflexivity.
      apply bind_err. unfold sort.medianOfThree. apply bind_err.
      apply HLess; lia.
  - assert (Hq : forall d, sort.quickSort data d 0 n s
                           = (bind (sort.shell_pass data (n - (0 + 6)) (0 + 6))
                                (fun _ => sort.insertionSort data 0 n)) s).
    { intros d. destruct d; cbn [sort.quickSort];
        destruct (Nat.ltb_spec 12 (n - 0)); try lia;
        destruct (Nat.ltb_spec 1 (n - 0)); try lia; reflexivity. }
    rewrite Hq.
    destruct (n - (0 + 6))%nat as [|k] eqn:Hk; cbn [sort.shell_pass].
    + rewrite (bind_ok _ _ s tt s) by reflexivity.
      unfold sort.insertionSort.
      destruct (n - (0 + 1))%nat as [|m] eqn:Hm; [lia|].
      cbn [sort.insertion_loop sort.insert_down].
      apply bind_err. replace (0 <? 0 + 1)%nat with true by reflexivity.
      apply bind_err. apply HLess; lia.
    + do 2 apply bind_err. apply HLess; lia.
Qed.

(** [Len] reads the length of the indexes. *)
Lemma Len_idle s p ix : views s !! p = Some ix -> idle s (Len p) (len (ix_Idxs ix)).
Proof.
  intros Hv. unfold idle, Len.
  rewrite (bind_ok _ _ s ix s) by (unfold get_view; now rewrite Hv). reflexivity.
Qed.

Lemma Sort_short_ok (s : Store) (p : ptr) (ix : IdxTable) (lessFunc : LessFunc) :
  views s !! p = Some ix ->
  (len (ix_Idxs ix) <= 1)%nat ->
  Sort p lessFunc s
  = Ok (tt, {| arrays := arrays s; tables := tables s;
               views := <[p := {| ix_Table := ix_Table ix; ix_Idxs := ix_Idxs ix;
                                  ix_lessFunc := Some lessFunc |}]> (views s) |}).
Proof.
  intros Hv Hn. unfold Sort.
  rewrite (bind_ok _ _ s tt _ (set_lessFunc_ok p s ix lessFunc Hv)).
  apply (sort_Sort_short (as_Interface p) _ (len (ix_Idxs ix))); [|exact Hn].
  apply (Len_idle _ p {| ix_Table := ix_Table ix; ix_Idxs := ix_Idxs ix;
                         ix_lessFunc := Some lessFunc |}).
  apply list_lookup_insert_eq. now apply lookup_lt_Some in Hv.
Qed.

(** [Sort] with a comparator that panics on the rows of the view panics
    as soon as the view has two rows. *)
Lemma Sort_panicking_comparator (s : Store) (p : ptr) (ix : IdxTable)
    (lessFunc : LessFunc) (e : Panic) :
  views s !! p = Some ix ->
  wf_slice s (ix_Idxs ix) ->
  (forall x y, lessFunc (table_at s (ix_Table ix)) x y = Err e) ->
  (2 <= len (ix_Idxs ix))%nat ->
  Sort p lessFunc s = Err e.
Proof.
  intros Hv Hwf Herr Hn.
  set (ix1 := {| ix_Table := ix_Table ix; ix_Idxs := ix_Idxs ix;
                 ix_lessFunc := Some lessFunc |}).
  set (s1 := {| arrays := arrays s; tables := tables s;
                views := <[p := ix1]> (views s) |}).
  assert (Hv1 : views s1 !! p = Some ix1).
  { apply list_lookup_insert_eq. now apply lookup_lt_Some in Hv. }
  unfold Sort. rewrite (bind_ok _ _ s tt s1) by (now apply set_lessFunc_ok).
  apply (sort_Sort_first_compare (as_Interface p) s1 (len (ix_Idxs ix)) e).
  - exact (Len_idle s1 p ix1 Hv1).
  - intros i j Hi Hj. cbn [as_Interface sort.Less]. unfold Less.
    rewrite (bind_ok _ _ s1 ix1 s1) by (unfold get_view; now rewrite Hv1).
    rewrite (bind_ok _ _ s1 (table_at s1 (ix_Table ix1)) s1) by reflexivity.
    destruct (slice_get_ok s1 (ix_Idxs ix) Hwf i Hi) as (vi & Hgi & Hli).
    destruct (slice_get_ok s1 (ix_Idxs ix) Hwf j Hj) as (vj & Hgj & Hlj).
    cbn [ix_Idxs ix_Table ix_lessFunc ix1].
    rewrite (bind_ok _ _ s1 vi s1) by exact Hgi.
    rewrite (bind_ok _ _ s1 vj s1) by exact Hgj.
    unfold lift.
    change (table_at s1 (ix_Table ix)) with (table_at s (ix_Table ix)).
    now rewrite Herr.
  - exact Hn.
Qed.

(** X4: on a view of at most one row, [Sort] returns without consulting
    the comparator at all: whatever the comparator is (it may panic on
    every call), the indexes stay as they are. *)
Theorem Sort_short_view_never_compares
  (s : Store) (p : ptr) (ix : IdxTable) (lessFunc : LessFunc) :
  views s !! p = Some ix ->
  (len (ix_Idxs ix) <= 1)%nat ->
  exists s', Sort p lessFunc s = Ok (tt, s') /\
             idxs_of s' p = idxs_of s p /\
             arrays s' = arrays s /\ tables s' = tables s.
Proof.
  intros Hv Hn. eexists. split; [exact (Sort_short_ok s p ix lessFunc Hv Hn)|].
  split; [|split; reflexivity].
  unfold idxs_of. cbn [views].
  rewrite list_lookup_insert_eq by (now apply lookup_lt_Some in Hv).
  now rewrite Hv.
Qed.

Lemma Sort_short_view_never_compares_witness :
  (1 <= 1)%nat /\
  exists s', Sort 0%nat (fun _ _ _ => Err NilDereference) sOne = Ok (tt, s') /\
             idxs_of s' 0%nat = idxs_of sOne 0%nat /\
             arrays s' = arrays sOne /\ tables s' = tables sOne.
Proof.
  split; [lia|].
  refine (Sort_short_view_never_compares sOne 0%nat _ (fun _ _ _ => Err NilDereference)
            eq_refl _).
  simpl. lia.
Defined.

(** X5: a column index outside the table.  [SortCol] looks the column up
    before it sorts and panics on every view.  [SortCols] looks it up
    inside the comparator: it panics when the view has two rows or more,
    and returns normally, the indexes unchanged, when the view has at most
    one row. *)
Theorem sorting_by_a_missing_column
  (s : Store) (p : ptr) (ix : IdxTable) (t : Table)
  (colIdx : Z) (rest : list Z) (ascending : bool) :
  views s !! p = Some ix ->
  wf_slice s (ix_Idxs ix) ->
  table_at s (ix_Table ix) = Some t ->
  colIdx < 0 \/ Z.of_nat (length (Cols t)) <= colIdx ->
  SortCol p colIdx ascending s = Err IndexOutOfRange /\
  ((2 <= len (ix_Idxs ix))%nat ->
   SortCols p (colIdx :: rest) ascending s = Err IndexOutOfRange) /\
  ((len (ix_Idxs ix) <= 1)%nat ->
   exists s', SortCols p (colIdx :: rest) ascending s = Ok (tt, s') /\
              idxs_of s' p = idxs_of s p).
Proof.
  intros Hv Hwf Ht Hc. split; [|split].
  - unfold SortCol.
    rewrite (bind_ok _ _ s ix s) by (unfold get_view; now rewrite Hv).
    rewrite (bind_ok _ _ s t s) by (unfold deref_table; now rewrite Ht).
    apply bind_err. unfold lift. now rewrite index_out_of_range.
  - intros Hn. unfold SortCols.
    apply (Sort_panicking_comparator s p ix _ IndexOutOfRange Hv Hwf); [|exact Hn].
    intros x y. rewrite Ht. cbn [SortCols_less rbind].
    now rewrite index_out_of_range.
  - intros Hn. unfold SortCols. eexists.
    split; [exact (Sort_short_ok s p ix _ Hv Hn)|].
    unfold idxs_of. cbn [views].
    rewrite list_lookup_insert_eq by (now apply lookup_lt_Some in Hv).
    now rewrite Hv.
Qed.

Lemma sorting_by_a_missing_column_witness :
  wf_slice sAB {| arr := 0%nat; off := 0%nat; len := 2%nat; cap := 2%nat |} /\
  (5 < 0 \/ Z.of_nat (length (Cols tAB)) <= 5) /\
  SortCol 0%nat 5 true sAB = Err IndexOutOfRange /\
  ((2 <= 2)%nat -> SortCols 0%nat [5; 0] true sAB = Err IndexOutOfRange) /\
  ((2 <= 1)%nat ->
   exists s', SortCols 0%nat [5; 0] true sAB = Ok (tt, s') /\
              idxs_of s' 0%nat = idxs_of sAB 0%nat).
Proof.
  assert (Hwf : wf_slice sAB {| arr := 0%nat; off := 0%nat; len := 2%nat; cap := 2%nat |})
    by (split; simpl; [lia|right; eexists; split; [reflexivity|simpl; lia]]).
  assert (Hc : 5 < 0 \/ Z.of_nat (length (Cols tAB)) <= 5) by (right; simpl; lia).
  split; [exact Hwf|]. split; [exact Hc|].
  exact (sorting_by_a_missing_column sAB 0%nat _ tAB 5 [0] true eq_refl Hwf eq_refl Hc).
Defined.

(** ** [Sequential], [AddIndex] and views of no table *)

Lemma Sequential_ok (s : Store) (p : ptr) (ix : IdxTable) (t : Table) :
  views s !! p = Some ix ->
  table_at s (ix_Table ix) = Some t ->
  Sequential p s
  = Ok (tt, {| arrays := arrays s ++ [identity_idxs (Rows t)];
               tables := tables s;
               views := <[p := {| ix_Table := ix_Table ix;
                                  ix_Idxs := {| arr := length (arrays s); off := 0%nat;
                                                len := Rows t; cap := Rows t |};
                                  ix_lessFunc := ix_lessFunc ix |}]> (views s) |}).
Proof.
  intros Hv Ht.
  assert (Hp : (p < length (views s))%nat) by (now apply lookup_lt_Some in Hv).
  destruct (ix_Table ix) as [tp|] eqn:Etp; [|discriminate].
  unfold Sequential.
  rewrite (bind_ok _ _ s ix s) by (unfold get_view; now rewrite Hv).
  rewrite Etp.
  rewrite (bind_ok _ _ s t s) by (unfold deref_table; now rewrite Ht).
  unfold make at 1.
  set (sl := {| arr := length (arrays s); off := 0%nat; len := Rows t; cap := Rows t |}).
  set (ix' := {| ix_Table := Some tp; ix_Idxs := sl; ix_lessFunc := ix_lessFunc ix |}).
  unfold bind at 1.
  unfold set_Idxs, get_view, set_view, bind at 1 2.
  cbn [views arrays tables]. rewrite Hv. cbn [views arrays tables]. rewrite Hv.
  rewrite Etp. fold ix'.
  unfold bind at 1. cbn [views]. rewrite list_lookup_insert_eq by exact Hp.
  cbn [ix_Idxs ix' sl len].
  etransitivity.
  - apply (Sequential_loop_fresh p ix' (tables s) (<[p := ix']> (views s)) (arrays s)
             (list_lookup_insert_eq _ _ _ Hp) (Rows t) 0%nat (replicate (Rows t) 0)).
    + now rewrite length_replicate.
    + now rewrite length_replicate.
  - reflexivity.
Qed.

Lemma Sequential_nil (s : Store) (p : ptr) (ix : IdxTable) :
  views s !! p = Some ix ->
  ix_Table ix = None ->
  Sequential p s
  = Ok (tt, {| arrays := arrays s; tables := tables s;
               views := <[p := {| ix_Table := None; ix_Idxs := nil_slice;
                                  ix_lessFunc := ix_lessFunc ix |}]> (views s) |}).
Proof.
  intros Hv Ht. unfold Sequential.
  rewrite (bind_ok _ _ s ix s) by (unfold get_view; now rewrite Hv).
  rewrite Ht. unfold set_Idxs, get_view, set_view, bind.
  rewrite Hv. cbn [views arrays tables]. rewrite Hv, Ht. reflexivity.
Qed.

(** X6: whatever the indexes of a view are (after any filtering, sorting
    or adding), [Sequential] makes them [0, 1, ..., Rows-1] again, in a new
    backing array (one that the store did not have): the arrays, tables
    and other views that existed are left as they were. *)
Theorem Sequential_resets_to_all_rows (s : Store) (p : ptr) (ix : IdxTable) (t : Table) :
  views s !! p = Some ix ->
  table_at s (ix_Table ix) = Some t ->
  exists s',
    Sequential p s = Ok (tt, s') /\
    idxs_of s' p = Some (identity_idxs (Rows t)) /\
    (forall b a, arrays s !! b = Some a -> arrays s' !! b = Some a) /\
    tables s' = tables s /\
    (forall q, q <> p -> views s' !! q = views s !! q) /\
    (exists ix', views s' !! p = Some ix' /\ arrays s !! arr (ix_Idxs ix') = None).
Proof.
  intros Hv Ht. eexists. split; [exact (Sequential_ok s p ix t Hv Ht)|].
  assert (Hp : (p < length (views s))%nat) by (now apply lookup_lt_Some in Hv).
  split; [|split; [|split; [|split]]].
  - unfold idxs_of. cbn [views]. rewrite list_lookup_insert_eq by exact Hp.
    unfold slice_contents. cbn [ix_Idxs arr off len arrays].
    rewrite lookup_snoc_last, drop_0. f_equal. apply take_ge.
    unfold identity_idxs. rewrite length_map, length_seq. lia.
  - intros b a Hb. cbn [arrays]. now apply lookup_app_l_Some.
  - reflexivity.
  - intros q Hq. cbn [views]. apply list_lookup_insert_ne. auto.
  - eexists. cbn [views arrays]. split; [apply list_lookup_insert_eq; exact Hp|].
    cbn [ix_Idxs arr]. apply lookup_ge_None. lia.
Qed.

Lemma Sequential_resets_to_all_rows_witness :
  exists s',
    Sequential 0%nat sTies = Ok (tt, s') /\
    idxs_of s' 0%nat = Some (identity_idxs 7) /\
    (forall b a, arrays sTies !! b = Some a -> arrays s' !! b = Some a) /\
    tables s' = tables sTies /\
    (forall q, q <> 0%nat -> views s' !! q = views sTies !! q) /\
    (exists ix', views s' !! 0%nat = Some ix' /\ arrays sTies !! arr (ix_Idxs ix') = None).
Proof.
  exact (Sequential_resets_to_all_rows sTies 0%nat _ t7 eq_refl eq_refl).
Defined.

(** [append(ix.Idxs, idx)] and the assignment to [ix.Idxs]. *)
Lemma AddIndex_ok (s : Store) (p : ptr) (ix : IdxTable) (idx : Z) :
  views s !! p = Some ix ->
  wf_slice s (ix_Idxs ix) ->
  exists s' sl',
    AddIndex p idx s = Ok (tt, s') /\
    views s' = <[p := {| ix_Table := ix_Table ix; ix_Idxs := sl';
                         ix_lessFunc := ix_lessFunc ix |}]> (views s) /\
    tables s' = tables s /\
    wf_slice s' sl' /\
    len sl' = S (len (ix_Idxs ix)) /\
    slice_contents s' sl' = slice_contents s (ix_Idxs ix) ++ [idx] /\
    ((cap (ix_Idxs ix) <= len (ix_Idxs ix))%nat ->
     arr sl' = length (arrays s) /\
     forall b a, arrays s !! b = Some a -> arrays s' !! b = Some a).
Proof.
  intros Hv Hwf.
  pose proof (slice_contents_length s _ Hwf) as Hlen.
  unfold AddIndex.
  rewrite (bind_ok _ _ s ix s) by (unfold get_view; now rewrite Hv).
  unfold append_vals, bind at 1. cbn [length].
  destruct (Nat.leb_spec (len (ix_Idxs ix) + 1) (cap (ix_Idxs ix))) as [Hfit|Hfull].
  - destruct Hwf as (Hlc & [Hc|(a & Ha & Hcap)]); [lia|].
    rewrite Ha.
    assert (Hb : (arr (ix_Idxs ix) < length (arrays s))%nat)
      by (now apply lookup_lt_Some in Ha).
    eexists _, _. split.
    { unfold set_Idxs, get_view, set_view, bind. cbn [views]. rewrite Hv.
      cbn [views]. rewrite Hv. reflexivity. }
    cbn [views tables arrays].
    split; [reflexivity|]. split; [reflexivity|].
    split.
    { split; cbn [len cap]; [lia|]. right. cbn [arrays arr off cap].
      eexists. split; [apply list_lookup_insert_eq; exact Hb|].
      rewrite write_at_length by (cbn [length]; lia). exact Hcap. }
    split; [cbn [len]; lia|].
    split; [|intros; lia].
    unfold slice_contents. cbn [arrays arr off len].
    rewrite list_lookup_insert_eq by exact Hb. rewrite Ha.
    rewrite (window_write_at a (off (ix_Idxs ix)) (len (ix_Idxs ix) + 1)
               (len (ix_Idxs ix)) [idx]) by (cbn [length]; lia).
    unfold write_at. cbn [length].
    rewrite take_take_le by lia.
    rewrite (drop_ge (take _ _)) by (rewrite length_take; lia).
    now rewrite app_nil_r.
  - eexists _, _. split.
    { unfold set_Idxs, get_view, set_view, bind. cbn [views]. rewrite Hv.
      cbn [views]. rewrite Hv. reflexivity. }
    cbn [views tables arrays].
    split; [reflexivity|]. split; [reflexivity|].
    split.
    { split; cbn [len cap]; [lia|]. right. cbn [arrays arr off cap].
      eexists. split; [apply lookup_snoc_last|].
      rewrite length_app, Hlen. cbn [length]. lia. }
    split; [cbn [len]; lia|].
    split.
    + unfold slice_contents at 1. cbn [arrays arr off len].
      rewrite lookup_snoc_last, drop_0. apply take_ge.
      rewrite length_app, Hlen. cbn [length]. lia.
    + intros _. split; [reflexivity|].
      intros b a Hb. now apply lookup_app_l_Some.
Qed.

(** X7: [AddIndex] appends its argument to the indexes, whatever it is:
    the index is not checked against the rows of the table (nor is there
    a table needed).  When the indexes fill their capacity, the result
    lies in a new backing array (one that the store did not have) and
    every array that existed is left as it was. *)
Theorem AddIndex_appends_unchecked
  (s : Store) (p : ptr) (ix : IdxTable) (idx : Z) (old : list Z) :
  views s !! p = Some ix ->
  wf_slice s (ix_Idxs ix) ->
  idxs_of s p = Some old ->
  exists s',
    AddIndex p idx s = Ok (tt, s') /\
    idxs_of s' p = Some (old ++ [idx]) /\
    tables s' = tables s /\
    (forall q, q <> p -> views s' !! q = views s !! q) /\
    ((cap (ix_Idxs ix) <= len (ix_Idxs ix))%nat ->
     forall b a, arrays s !! b = Some a -> arrays s' !! b = Some a) /\
    ((cap (ix_Idxs ix) <= len (ix_Idxs ix))%nat ->
     exists ix', views s' !! p = Some ix' /\ arrays s !! arr (ix_Idxs ix') = None).
Proof.
  intros Hv Hwf Hold.
  unfold idxs_of in Hold. rewrite Hv in Hold. injection Hold as <-.
  destruct (AddIndex_ok s p ix idx Hv Hwf)
    as (s' & sl' & Hrun & Hv' & Ht' & Hwf' & Hl' & Hc' & Hfull).
  assert (Hp : (p < length (views s))%nat) by (now apply lookup_lt_Some in Hv).
  exists s'. split; [exact Hrun|].
  split; [|split; [exact Ht'|split; [|split]]].
  - unfold idxs_of. rewrite Hv'.
    rewrite list_lookup_insert_eq by exact Hp.
    cbn [ix_Idxs]. now rewrite Hc'.
  - intros q Hq. rewrite Hv'. apply list_lookup_insert_ne. auto.
  - intros Hcap. exact (proj2 (Hfull Hcap)).
  - intros Hcap. eexists. rewrite Hv'.
    split; [apply list_lookup_insert_eq; exact Hp|].
    cbn [ix_Idxs]. rewrite (proj1 (Hfull Hcap)). apply lookup_ge_None. lia.
Qed.

Lemma AddIndex_appends_unchecked_witness :
  wf_slice sAB {| arr := 0%nat; off := 0%nat; len := 2%nat; cap := 2%nat |} /\
  exists s',
    AddIndex 0%nat (-7) sAB = Ok (tt, s') /\
    idxs_of s' 0%nat = Some ([0; 1] ++ [-7]) /\
    tables s' = tables sAB /\
    (forall q, q <> 0%nat -> views s' !! q = views sAB !! q) /\
    ((2 <= 2)%nat -> forall b a, arrays sAB !! b = Some a -> arrays s' !! b = Some a) /\
    ((2 <= 2)%nat ->
     exists ix', views s' !! 0%nat = Some ix' /\ arrays sAB !! arr (ix_Idxs ix') = None).
Proof.
  assert (Hwf : wf_slice sAB {| arr := 0%nat; off := 0%nat; len := 2%nat; cap := 2%nat |})
    by (split; simpl; [lia|right; eexists; split; [reflexivity|simpl; lia]]).
  split; [exact Hwf|].
  exact (AddIndex_appends_unchecked sAB 0%nat _ (-7) [0; 1] eq_refl Hwf eq_refl).
Defined.

Lemma NewIdxTable_nil (s : Store) :
  NewIdxTable None s
  = Ok (length (views s),
        {| arrays := arrays s; tables := tables s;
           views := views s ++ [ {| ix_Table := None; ix_Idxs := nil_slice;
                                    ix_lessFunc := None |} ] |}).
Proof.
  unfold NewIdxTable, SetTable, Sequential, new_view, set_Table, set_Idxs,
    get_view, set_view, bind, ret.
  repeat (cbn [views arrays tables ix_Table ix_Idxs ix_lessFunc];
          rewrite ?lookup_snoc_last, ?insert_snoc_last).
  reflexivity.
Qed.

(** X8: [NewIdxTable(nil)] gives an empty view and allocates no indexes.
    On that view [Len] is 0, [Filter] and [SortCols] return and leave it
    empty, while [NewTable], [AggCol] and [SortCol] dereference the nil
    table and panic. *)
Theorem view_of_no_table (s : Store) :
  exists p s',
    NewIdxTable None s = Ok (p, s') /\
    idxs_of s' p = Some [] /\
    arrays s' = arrays s /\ tables s' = tables s /\
    Len p s' = Ok (0%nat, s') /\
    (forall f, exists s'', Filter p f s' = Ok (tt, s'') /\ idxs_of s'' p = Some []) /\
    (forall colIdxs ascending,
        exists s'', SortCols p colIdxs ascending s' = Ok (tt, s'') /\
                    idxs_of s'' p = Some []) /\
    NewTable p s' = Err NilDereference /\
    (forall colIdx ini fn, AggCol p colIdx ini fn s' = Err NilDereference) /\
    (forall colIdx ascending, SortCol p colIdx ascending s' = Err NilDereference).
Proof.
  set (nix := {| ix_Table := None; ix_Idxs := nil_slice; ix_lessFunc := None |}).
  set (s' := {| arrays := arrays s; tables := tables s; views := views s ++ [nix] |}).
  assert (Hv : views s' !! length (views s) = Some nix) by apply lookup_snoc_last.
  assert (Hnil : forall st, slice_contents st nil_slice = []).
  { intros st. unfold slice_contents. cbn [nil_slice arr off len].
    now destruct (arrays st !! 0%nat). }
  assert (Hidx : idxs_of s' (length (views s)) = Some []).
  { unfold idxs_of. rewrite Hv. cbn [nix ix_Idxs]. now rewrite Hnil. }
  assert (Hget : get_view (length (views s)) s' = Ok (nix, s'))
    by (unfold get_view; now rewrite Hv).
  exists (length (views s)), s'.
  split; [apply NewIdxTable_nil|]. split; [exact Hidx|].
  split; [reflexivity|]. split; [reflexivity|].
  split; [unfold Len; now rewrite (bind_ok _ _ _ _ _ Hget)|].
  split.
  { intros f. exists s'. split; [|exact Hidx].
    unfold Filter. now rewrite (bind_ok _ _ _ _ _ Hget). }
  split.
  { intros colIdxs ascending. eexists. split.
    - unfold SortCols. apply (Sort_short_ok s' _ nix _ Hv). cbn. lia.
    - unfold idxs_of. cbn [views].
      rewrite list_lookup_insert_eq by (now apply lookup_lt_Some in Hv).
      cbn [ix_Idxs nix]. now rewrite Hnil. }
  split.
  { unfold NewTable. rewrite (bind_ok _ _ _ _ _ Hget). reflexivity. }
  split.
  { intros colIdx ini fn. unfold AggCol. rewrite (bind_ok _ _ _ _ _ Hget). reflexivity. }
  intros colIdx ascending. unfold SortCol. rewrite (bind_ok _ _ _ _ _ Hget). reflexivity.
Qed.

(** ** [CopyFrom] *)

Lemma write_at_0_all (a vs : list Z) : length vs = length a -> write_at a 0 vs = vs.
Proof.
  intros H. unfold write_at. rewrite take_0. cbn [app].
  rewrite drop_ge by lia. apply app_nil_r.
Qed.

Lemma CopyFrom_ok (s : Store) (p oix : ptr) (ix o : IdxTable) :
  views s !! p = Some ix ->
  views s !! oix = Some o ->
  p <> oix ->
  wf_slice s (ix_Idxs o) ->
  CopyFrom p oix s
  = Ok (tt, {| arrays := arrays s ++ [slice_contents s (ix_Idxs o)];
               tables := tables s;
               views := <[p := {| ix_Table := ix_Table o;
                                  ix_Idxs := {| arr := length (arrays s); off := 0%nat;
                                                len := len (ix_Idxs o);
                                                cap := len (ix_Idxs o) |};
                                  ix_lessFunc := ix_lessFunc ix |}]> (views s) |}).
Proof.
  intros Hp Ho Hne Hwf.
  assert (Hlt : (p < length (views s))%nat) by (now apply lookup_lt_Some in Hp).
  pose proof (slice_contents_length s _ Hwf) as Hlen.
  unfold CopyFrom, set_Table, set_Idxs, make, copy_ints, get_view, set_view, bind, ret.
  repeat (cbn [views arrays tables ix_Table ix_Idxs ix_lessFunc arr off len cap];
          rewrite ?Ho, ?Hp, ?list_lookup_insert_eq, ?list_insert_insert_eq,
            ?lookup_snoc_last, ?insert_snoc_last
            by (rewrite ?length_insert; exact Hlt);
          rewrite ?(list_lookup_insert_ne (views s) p oix) by exact Hne).
  rewrite (slice_contents_alloc s (ix_Idxs o)) by exact Hwf.
  rewrite take_ge by lia.
  rewrite write_at_0_all by (now rewrite length_replicate).
  reflexivity.
Qed.

Lemma CopyFrom_self_ok (s : Store) (p : ptr) (ix : IdxTable) :
  views s !! p = Some ix ->
  CopyFrom p p s
  = Ok (tt, {| arrays := arrays s ++ [replicate (len (ix_Idxs ix)) 0];
               tables := tables s;
               views := <[p := {| ix_Table := ix_Table ix;
                                  ix_Idxs := {| arr := length (arrays s); off := 0%nat;
                                                len := len (ix_Idxs ix);
                                                cap := len (ix_Idxs ix) |};
                                  ix_lessFunc := ix_lessFunc ix |}]> (views s) |}).
Proof.
  intros Hp.
  assert (Hlt : (p < length (views s))%nat) by (now apply lookup_lt_Some in Hp).
  unfold CopyFrom, set_Table, set_Idxs, make, copy_ints, get_view, set_view, bind, ret.
  repeat (cbn [views arrays tables ix_Table ix_Idxs ix_lessFunc arr off len cap];
          rewrite ?Hp, ?list_lookup_insert_eq, ?list_insert_insert_eq,
            ?lookup_snoc_last, ?insert_snoc_last
            by (rewrite ?length_insert; exact Hlt)).
  unfold slice_contents. cbn [arrays arr off len].
  rewrite lookup_snoc_last, drop_0.
  rewrite take_ge by (rewrite length_take, length_replicate; lia).
  rewrite take_ge by (rewrite length_replicate; lia).
  rewrite write_at_0_all by reflexivity.
  reflexivity.
Qed.

(** X9: [CopyFrom] from another view gives the receiver the table and a
    copy of the indexes of the other view, in a new backing array; the
    receiver keeps its own comparator, and the other view, the tables and
    the arrays that existed are left as they were. *)
Theorem CopyFrom_copies_table_and_indexes
  (s : Store) (p oix : ptr) (ix o : IdxTable) :
  views s !! p = Some ix ->
  views s !! oix = Some o ->
  p <> oix ->
  wf_slice s (ix_Idxs o) ->
  exists s' ix',
    CopyFrom p oix s = Ok (tt, s') /\
    views s' !! p = Some ix' /\
    ix_Table ix' = ix_Table o /\
    ix_lessFunc ix' = ix_lessFunc ix /\
    idxs_of s' p = idxs_of s oix /\
    arrays s !! arr (ix_Idxs ix') = None /\
    (forall b a, arrays s !! b = Some a -> arrays s' !! b = Some a) /\
    tables s' = tables s /\
    (forall q, q <> p -> views s' !! q = views s !! q).
Proof.
  intros Hp Ho Hne Hwf.
  assert (Hlt : (p < length (views s))%nat) by (now apply lookup_lt_Some in Hp).
  eexists _, _. split; [exact (CopyFrom_ok s p oix ix o Hp Ho Hne Hwf)|].
  cbn [views arrays tables].
  split; [apply list_lookup_insert_eq; exact Hlt|].
  split; [reflexivity|]. split; [reflexivity|].
  split.
  { unfold idxs_of. cbn [views]. rewrite list_lookup_insert_eq by exact Hlt.
    rewrite Ho. f_equal. unfold slice_contents at 1. cbn [ix_Idxs arrays arr off len].
    rewrite lookup_snoc_last, drop_0. apply take_ge.
    rewrite slice_contents_length by exact Hwf. lia. }
  split; [cbn [ix_Idxs arr]; apply lookup_ge_None; lia|].
  split; [intros b a Hb; now apply lookup_app_l_Some|].
  split; [reflexivity|].
  intros q Hq. apply list_lookup_insert_ne. auto.
Qed.

Lemma CopyFrom_copies_table_and_indexes_witness :
  1%nat <> 0%nat /\
  wf_slice sTwo {| arr := 0%nat; off := 0%nat; len := 2%nat; cap := 2%nat |} /\
  exists s' ix',
    CopyFrom 1%nat 0%nat sTwo = Ok (tt, s') /\
    views s' !! 1%nat = Some ix' /\
    ix_Table ix' = Some 0%nat /\
    ix_lessFunc ix' = Some never_less /\
    idxs_of s' 1%nat = idxs_of sTwo 0%nat /\
    arrays sTwo !! arr (ix_Idxs ix') = None /\
    (forall b a, arrays sTwo !! b = Some a -> arrays s' !! b = Some a) /\
    tables s' = tables sTwo /\
    (forall q, q <> 1%nat -> views s' !! q = views sTwo !! q).
Proof.
  assert (Hwf : wf_slice sTwo {| arr := 0%nat; off := 0%nat; len := 2%nat; cap := 2%nat |})
    by (split; simpl; [lia|right; eexists; split; [reflexivity|simpl; lia]]).
  assert (Hne : 1%nat <> 0%nat) by lia.
  split; [exact Hne|]. split; [exact Hwf|].
  exact (CopyFrom_copies_table_and_indexes sTwo 1%nat 0%nat _ _ eq_refl eq_refl Hne Hwf).
Defined.

(** X10: [CopyFrom] of a view from itself does not keep the indexes: the
    view gets a new index slice of the same length before the copy is
    made, so the copy reads the new slice and every index ends up 0. *)
Theorem CopyFrom_itself_zeroes_the_indexes (s : Store) (p : ptr) (ix : IdxTable) :
  views s !! p = Some ix ->
  exists s' ix',
    CopyFrom p p s = Ok (tt, s') /\
    idxs_of s' p = Some (replicate (len (ix_Idxs ix)) 0) /\
    views s' !! p = Some ix' /\
    ix_Table ix' = ix_Table ix /\
    (forall b a, arrays s !! b = Some a -> arrays s' !! b = Some a).
Proof.
  intros Hp.
  assert (Hlt : (p < length (views s))%nat) by (now apply lookup_lt_Some in Hp).
  eexists _, _. split; [exact (CopyFrom_self_ok s p ix Hp)|].
  cbn [views arrays].
  split.
  { unfold idxs_of. cbn [views]. rewrite list_lookup_insert_eq by exact Hlt.
    f_equal. unfold slice_contents. cbn [ix_Idxs arrays arr off len].
    rewrite lookup_snoc_last, drop_0. apply take_ge.
    rewrite length_replicate. lia. }
  split; [apply list_lookup_insert_eq; exact Hlt|].
  split; [reflexivity|].
  intros b a Hb. now apply lookup_app_l_Some.
Qed.

Lemma CopyFrom_itself_zeroes_the_indexes_witness :
  exists s' ix',
    CopyFrom 0%nat 0%nat sCells = Ok (tt, s') /\
    idxs_of sCells 0%nat = Some [1; 0; 1] /\
    idxs_of s' 0%nat = Some [0; 0; 0] /\
    views s' !! 0%nat = Some ix' /\
    ix_Table ix' = Some 0%nat /\
    (forall b a, arrays sCells !! b = Some a -> arrays s' !! b = Some a).
Proof.
  destruct (CopyFrom_itself_zeroes_the_indexes sCells 0%nat _ eq_refl)
    as (s' & ix' & Hrun & Hidx & Hv & Ht & Ha).
  exists s', ix'. split; [exact Hrun|]. split; [reflexivity|].
  split; [exact Hidx|]. split; [exact Hv|]. split; [exact Ht|exact Ha].
Defined.

(** ** [Filter] after [Filter] *)

Lemma Filter_ok (s : Store) (p : ptr) (ix : IdxTable) (f : FilterFunc) :
  views s !! p = Some ix ->
  wf_slice s (ix_Idxs ix) ->
  exists s' ix',
    Filter p f s = Ok (tt, s') /\
    frame p s s' /\
    views s' !! p = Some ix' /\
    wf_slice s' (ix_Idxs ix') /\
    table_at s' (ix_Table ix') = table_at s (ix_Table ix) /\
    slice_contents s' (ix_Idxs ix')
    = List.filter (f (table_at s (ix_Table ix))) (slice_contents s (ix_Idxs ix)).
Proof.
  intros Hv Hwf.
  destruct (Filter_loop_spec p f (len (ix_Idxs ix)) s ix Hv Hwf (le_n _))
    as (s' & ix' & Hrun & Hfr & Hv' & Hwf' & Hc).
  exists s', ix'.
  split.
  { unfold Filter. now rewrite (bind_ok _ _ s ix s) by (unfold get_view; now rewrite Hv). }
  split; [exact Hfr|]. split; [exact Hv'|]. split; [exact Hwf'|].
  split; [exact (frame_table_at p s s' ix ix' Hfr Hv Hv')|].
  rewrite Hc, take_ge, drop_ge, app_nil_r; auto;
    rewrite slice_contents_length by exact Hwf; lia.
Qed.

Lemma filter_filter_andb {A} (f g : A -> bool) (l : list A) :
  List.filter g (List.filter f l) = List.filter (fun x => f x && g x) l.
Proof.
  induction l as [|x l IH]; [reflexivity|]. cbn [List.filter].
  destruct (f x); cbn [List.filter andb]; [destruct (g x)|]; now rewrite IH.
Qed.

Lemma filter_length_le {A} (f : A -> bool) (l : list A) :
  (length (List.filter f l) <= length l)%nat.
Proof.
  induction l as [|x l IH]; [reflexivity|]. cbn [List.filter].
  destruct (f x); cbn [length]; lia.
Qed.

(** X11: two filters in a row keep exactly the rows that pass both
    predicates, in their previous order, and the order of the two calls
    does not matter; the table is left as it was. *)
Theorem Filter_twice_keeps_rows_passing_both
  (s : Store) (p : ptr) (ix : IdxTable) (f g : FilterFunc) (old : list Z) :
  views s !! p = Some ix ->
  wf_slice s (ix_Idxs ix) ->
  idxs_of s p = Some old ->
  exists s1 s2 s1' s2',
    Filter p f s = Ok (tt, s1) /\ Filter p g s1 = Ok (tt, s2) /\
    Filter p g s = Ok (tt, s1') /\ Filter p f s1' = Ok (tt, s2') /\
    idxs_of s2 p
    = Some (List.filter (fun row => f (table_at s (ix_Table ix)) row
                                    && g (table_at s (ix_Table ix)) row) old) /\
    idxs_of s2' p = idxs_of s2 p /\
    tables s2 = tables s.
Proof.
  intros Hv Hwf Hold.
  unfold idxs_of in Hold. rewrite Hv in Hold. injection Hold as <-.
  destruct (Filter_ok s p ix f Hv Hwf) as (s1 & ix1 & R1 & F1 & V1 & W1 & T1 & C1).
  destruct (Filter_ok s1 p ix1 g V1 W1) as (s2 & ix2 & R2 & F2 & V2 & W2 & T2 & C2).
  destruct (Filter_ok s p ix g Hv Hwf) as (s1' & ix1' & R1' & F1' & V1' & W1' & T1' & C1').
  destruct (Filter_ok s1' p ix1' f V1' W1') as (s2' & ix2' & R2' & F2' & V2' & W2' & T2' & C2').
  exists s1, s2, s1', s2'.
  split; [exact R1|]. split; [exact R2|]. split; [exact R1'|]. split; [exact R2'|].
  split; [unfold idxs_of; rewrite V2, C2, T1, C1; now rewrite filter_filter_andb|].
  split.
  { unfold idxs_of. rewrite V2', C2', T1', C1', V2, C2, T1, C1, !filter_filter_andb.
    f_equal. apply List.filter_ext. intros a. apply andb_comm. }
  destruct F1 as (Ht1 & _), F2 as (Ht2 & _). congruence.
Qed.

Lemma Filter_twice_keeps_rows_passing_both_witness :
  wf_slice s7 {| arr := 0%nat; off := 0%nat; len := 7%nat; cap := 7%nat |} /\
  exists s1 s2 s1' s2',
    Filter 0%nat (fun _ row => 1 <? row) s7 = Ok (tt, s1) /\
    Filter 0%nat (fun _ row => row <? 5) s1 = Ok (tt, s2) /\
    Filter 0%nat (fun _ row => row <? 5) s7 = Ok (tt, s1') /\
    Filter 0%nat (fun _ row => 1 <? row) s1' = Ok (tt, s2') /\
    idxs_of s2 0%nat = Some [2; 3; 4] /\
    idxs_of s2' 0%nat = idxs_of s2 0%nat /\
    tables s2 = tables s7.
Proof.
  assert (Hwf : wf_slice s7 {| arr := 0%nat; off := 0%nat; len := 7%nat; cap := 7%nat |})
    by (split; simpl; [lia|right; eexists; split; [reflexivity|simpl; lia]]).
  split; [exact Hwf|].
  exact (Filter_twice_keeps_rows_passing_both s7 0%nat _
           (fun _ row => 1 <? row) (fun _ row => row <? 5) [0; 1; 2; 3; 4; 5; 6]
           eq_refl Hwf eq_refl).
Defined.

(** ** The nearest row *)

Lemma SFltb_irrefl x : SFltb x x = false.
Proof.
  unfold SFltb, SFcompare. destruct x as [s|s| |s m e]; try reflexivity.
  - now destruct s.
  - destruct s; rewrite Z.compare_refl, Pos.compare_cont_refl; reflexivity.
Qed.

Lemma SFltb_finite_pos m1 e1 m2 e2 :
  SFltb (S754_finite false m1 e1) (S754_finite false m2 e2) = true
  <-> (e1 < e2 \/ (e1 = e2 /\ (m1 < m2)%positive)).
Proof.
  unfold SFltb, SFcompare.
  destruct (Z.compare_spec e1 e2) as [He|He|He].
  - fold (Pos.compare m1 m2). destruct (Pos.compare_spec m1 m2); split; intros H0;
      try discriminate; try reflexivity; try lia.
  - split; [intros _; lia|reflexivity].
  - split; [discriminate|lia].
Qed.

Lemma SFltb_finite_neg m1 e1 m2 e2 :
  SFltb (S754_finite true m1 e1) (S754_finite true m2 e2) = true
  <-> (e2 < e1 \/ (e1 = e2 /\ (m2 < m1)%positive)).
Proof.
  unfold SFltb, SFcompare.
  destruct (Z.compare_spec e1 e2) as [He|He|He].
  - fold (Pos.compare m1 m2).
    destruct (Pos.compare_spec m1 m2); cbn [CompOpp]; split; intros H0;
      try discriminate; try reflexivity; try lia.
  - split; [discriminate|lia].
  - split; [intros _; lia|reflexivity].
Qed.

(** [<] on floats is transitive (NaN is less than nothing and nothing is
    less than NaN). *)
Lemma SFltb_trans x y z : SFltb x y = true -> SFltb y z = true -> SFltb x z = true.
Proof.
  destruct x as [sx|sx| |sx mx ex], y as [sy|sy| |sy my ey], z as [sz|sz| |sz mz ez];
    try discriminate; try reflexivity;
    try (destruct sx; try discriminate; try reflexivity);
    try (destruct sy; try discriminate; try reflexivity);
    try (destruct sz; try discriminate; try reflexivity);
    try (intros _ H; exact H); try (intros H _; exact H).
  all: rewrite ?SFltb_finite_pos, ?SFltb_finite_neg; lia.
Qed.

(** A value less than [y] is less than every value that is neither less
    than [y] nor NaN. *)
Lemma SFltb_below x y z :
  SFltb x y = true -> SFltb z y = false -> is_NaN z = false -> SFltb x z = true.
Proof.
  destruct x as [sx|sx| |sx mx ex], y as [sy|sy| |sy my ey], z as [sz|sz| |sz mz ez];
    try discriminate; try reflexivity;
    try (destruct sx; try discriminate; try reflexivity);
    try (destruct sy; try discriminate; try reflexivity);
    try (destruct sz; try discriminate; try reflexivity);
    try (intros H _ _; exact H).
  all: rewrite <- ?Bool.not_true_iff_false, ?SFltb_finite_pos, ?SFltb_finite_neg; lia.
Qed.

Lemma SFltb_NaN x y : is_NaN x = true -> SFltb x y = false.
Proof. destruct x; try discriminate. reflexivity. Qed.

Section ClosestLoop.
Context {F : Type} (ltb : F -> F -> bool) (isnan : F -> bool)
  (mfun : list F -> list F -> F).
Hypothesis ltb_irrefl : forall x, ltb x x = false.
Hypothesis ltb_trans : forall x y z, ltb x y = true -> ltb y z = true -> ltb x z = true.
Hypothesis ltb_below :
  forall x y z, ltb x y = true -> ltb z y = false -> isnan z = false -> ltb x z = true.
Hypothesis ltb_nan : forall x y, isnan x = true -> ltb x y = false.
Variables (pvals cvals : list F) (csz : nat) (maxv : F).

(** One more row examined. *)
Lemma closest_step ri ci minv :
  closest ltb isnan maxv (row_metric mfun pvals cvals csz) ri ci minv ->
  closest ltb isnan maxv (row_metric mfun pvals cvals csz) (S ri)
    (if ltb (row_metric mfun pvals cvals csz ri) minv then Z.of_nat ri else ci)
    (if ltb (row_metric mfun pvals cvals csz ri) minv
     then row_metric mfun pvals cvals csz ri else minv).
Proof.
  set (v := row_metric mfun pvals cvals csz).
  intros Hc. destruct (ltb (v ri) minv) eqn:Hlt.
  - right. exists ri.
    assert (Hmax : ltb (v ri) maxv = true).
    { destruct Hc as [(_ & -> & _)|(r & _ & _ & _ & Hm & _)]; [exact Hlt|].
      exact (ltb_trans _ _ _ Hlt Hm). }
    assert (Hold : forall k, (k < ri)%nat -> ltb (v k) minv = false).
    { destruct Hc as [(_ & -> & H)|(r & _ & _ & _ & _ & H & _)]; exact H. }
    split; [reflexivity|]. split; [lia|]. split; [reflexivity|].
    split; [exact Hmax|]. split.
    + intros k Hk. destruct (Nat.eq_dec k ri) as [->|Hne]; [apply ltb_irrefl|].
      destruct (ltb (v k) (v ri)) eqn:Hk'; [|reflexivity].
      rewrite <- (Hold k ltac:(lia)). symmetry. exact (ltb_trans _ _ _ Hk' Hlt).
    + intros k Hk. destruct (isnan (v k)) eqn:Hn; [now right|left].
      exact (ltb_below _ _ _ Hlt (Hold k Hk) Hn).
  - destruct Hc as [(-> & -> & H)|(r & -> & Hr & -> & Hm & H & Hfirst)].
    + left. split; [reflexivity|]. split; [reflexivity|].
      intros k Hk. destruct (Nat.eq_dec k ri) as [->|Hne]; [exact Hlt|apply H; lia].
    + right. exists r. split; [reflexivity|]. split; [lia|]. split; [reflexivity|].
      split; [exact Hm|]. split; [|exact Hfirst].
      intros k Hk. destruct (Nat.eq_dec k ri) as [->|Hne]; [exact Hlt|apply H; lia].
Qed.

Lemma row_loop_closest :
  forall n ri ci minv log,
    ((ri + n) * csz <= length cvals)%nat ->
    closest ltb isnan maxv (row_metric mfun pvals cvals csz) ri ci minv ->
    exists ci' minv',
      Metric.outcome (Metric.row_loop ltb mfun pvals cvals csz n ri ci minv log)
      = Ok (ci', minv') /\
      closest ltb isnan maxv (row_metric mfun pvals cvals csz) (ri + n) ci' minv'.
Proof.
  induction n as [|n IH]; intros ri ci minv log Hlen Hc; cbn [Metric.row_loop].
  - exists ci, minv. rewrite Nat.add_0_r. split; [reflexivity|exact Hc].
  - unfold subslice.
    assert (Hb : ((ri * csz <=? ri * csz + csz) && (ri * csz + csz <=? length cvals))%nat
                 = true).
    { apply andb_true_iff. split; apply Nat.leb_le; nia. }
    rewrite Hb.
    replace (ri * csz + csz - ri * csz)%nat with csz by lia.
    fold (row_metric mfun pvals cvals csz ri).
    pose proof (closest_step ri ci minv Hc) as Hs.
    replace (ri + S n)%nat with (S ri + n)%nat by lia.
    destruct (ltb (row_metric mfun pvals cvals csz ri) minv);
      apply IH; try exact Hs; nia.
Qed.

(** The description leaves no choice: two results that both fit it are
    the same row with the same value. *)
Lemma closest_unique (v : nat -> F) rows ci minv ci' minv' :
  closest ltb isnan maxv v rows ci minv ->
  closest ltb isnan maxv v rows ci' minv' ->
  ci' = ci /\ minv' = minv.
Proof.
  assert (Hlt : forall r1 r2,
             (r1 < r2)%nat -> (r2 < rows)%nat ->
             ltb (v r1) maxv = true ->
             (forall ri, (ri < rows)%nat -> ltb (v ri) (v r1) = false) ->
             (forall ri, (ri < r2)%nat -> ltb (v r2) (v ri) = true \/ isnan (v ri) = true) ->
             False).
  { intros r1 r2 H12 H2 Hm Hleast Hfirst.
    destruct (Hfirst r1 H12) as [Hl|Hn].
    - rewrite (Hleast r2 H2) in Hl. discriminate.
    - rewrite (ltb_nan _ _ Hn) in Hm. discriminate. }
  intros [(-> & -> & H1)|(r1 & -> & Hr1 & -> & Hm1 & Hl1 & Hf1)]
         [(-> & -> & H2)|(r2 & -> & Hr2 & -> & Hm2 & Hl2 & Hf2)].
  - auto.
  - rewrite (H1 r2 Hr2) in Hm2. discriminate.
  - rewrite (H2 r1 Hr1) in Hm1. discriminate.
  - destruct (Nat.lt_trichotomy r1 r2) as [H|[->|H]]; [exfalso|auto|exfalso].
    + exact (Hlt r1 r2 H Hr2 Hm1 Hl1 Hf2).
    + exact (Hlt r2 r1 H Hr1 Hm2 Hl2 Hf1).
Qed.
End ClosestLoop.

Lemma closest_start {F} (ltb : F -> F -> bool) (isnan : F -> bool) (maxv : F)
    (v : nat -> F) :
  closest ltb isnan maxv v 0 (-1) maxv.
Proof. left. split; [reflexivity|]. split; [reflexivity|]. intros ri Hri. lia. Qed.

(** X12: on a column with rows and a probe of the cell size,
    [ClosestRow64] returns the first row whose metric value is the least,
    with that value: no row has a lesser value, and every row before it
    has a greater value or NaN (so of two rows with equal values, [-0] and
    [+0] included, the earlier is returned).  A row whose value is NaN or
    not below the largest finite float64 is never chosen, and when there
    is no other row the result is row -1 with the largest finite float64.
    No other result fits this description. *)
Theorem ClosestRow64_returns_first_least_row
  (probe col : Metric.Tensor) (mfun : list float64 -> list float64 -> float64)
  (rows : nat) :
  Metric.Dim col 0 = Ok rows -> rows <> 0%nat ->
  (Metric.Len col / rows)%nat = Metric.Len probe ->
  exists ci minv,
    Metric.outcome (Metric.ClosestRow64 probe col mfun) = Ok (ci, minv) /\
    closest F64.ltb is_NaN F64.MaxFloat64
      (row_metric mfun (Metric.Floats probe) (Metric.Floats col) (Metric.Len probe))
      rows ci minv /\
    forall ci' minv',
      closest F64.ltb is_NaN F64.MaxFloat64
        (row_metric mfun (Metric.Floats probe) (Metric.Floats col) (Metric.Len probe))
        rows ci' minv' ->
      ci' = ci /\ minv' = minv.
Proof.
  intros Hd Hr He.
  unfold Metric.ClosestRow64, Metric.int_div. rewrite Hd.
  destruct (Nat.eqb_spec rows 0); [contradiction|].
  destruct (Nat.eqb_spec (Metric.Len col / rows) (Metric.Len probe)); [|contradiction].
  cbn [negb]. cbv zeta.
  pose proof (div_mul_le (Metric.Len col) rows Hr) as Hle.
  rewrite He in *.
  assert (Hrun : exists ci minv,
             Metric.outcome
               (Metric.row_loop F64.ltb mfun (Metric.Floats probe) (Metric.Floats col)
                  (Metric.Len probe) rows 0 (-1) F64.MaxFloat64 [])
             = Ok (ci, minv) /\
             closest F64.ltb is_NaN F64.MaxFloat64
               (row_metric mfun (Metric.Floats probe) (Metric.Floats col)
                  (Metric.Len probe)) (0 + rows) ci minv).
  { apply (row_loop_closest F64.ltb is_NaN mfun SFltb_irrefl SFltb_trans SFltb_below).
    - unfold Metric.Len in *. lia.
    - apply closest_start. }
  destruct Hrun as (ci & minv & Hrun & Hc). exists ci, minv.
  split.
  { unfold Metric.Values.
    destruct (Metric.is_Float64 probe), (Metric.is_Float64 col); exact Hrun. }
  split; [exact Hc|].
  intros ci' minv' Hc'.
  exact (closest_unique F64.ltb is_NaN SFltb_NaN F64.MaxFloat64 _ _ _ _ _ _ Hc Hc').
Qed.

Lemma ClosestRow64_returns_first_least_row_witness :
  Metric.Dim col_zeros 0 = Ok 2%nat /\ 2%nat <> 0%nat /\
  (Metric.Len col_zeros / 2)%nat = Metric.Len probe1 /\
  Metric.outcome (Metric.ClosestRow64 probe1 col_zeros cell_value)
  = Ok (0, S754_zero true) /\
  exists ci minv,
    Metric.outcome (Metric.ClosestRow64 probe1 col_zeros cell_value) = Ok (ci, minv) /\
    closest F64.ltb is_NaN F64.MaxFloat64
      (row_metric cell_value (Metric.Floats probe1) (Metric.Floats col_zeros)
         (Metric.Len probe1))
      2 ci minv /\
    forall ci' minv',
      closest F64.ltb is_NaN F64.MaxFloat64
        (row_metric cell_value (Metric.Floats probe1) (Metric.Floats col_zeros)
           (Metric.Len probe1))
        2 ci' minv' ->
      ci' = ci /\ minv' = minv.
Proof.
  assert (H2 : 2%nat <> 0%nat) by lia.
  split; [reflexivity|]. split; [exact H2|]. split; [reflexivity|].
  split; [reflexivity|].
  exact (ClosestRow64_returns_first_least_row probe1 col_zeros cell_value
           2 eq_refl H2 eq_refl).
Defined.

(** X13: the same for [ClosestRow32], with float32 values and the largest
    finite float32: the first row whose metric value is the least, every
    row before it having a greater value or NaN, or row -1 when no value
    is below the largest finite float32; no other result fits. *)
Theorem ClosestRow32_returns_first_least_row
  (probe col : Metric.Float32) (mfun : list float32 -> list float32 -> float32)
  (rows : nat) :
  Metric.Dim32 col 0 = Ok rows -> rows <> 0%nat ->
  (Metric.Len32 col / rows)%nat = Metric.Len32 probe ->
  exists ci minv,
    Metric.outcome (Metric.ClosestRow32 probe col mfun) = Ok (ci, minv) /\
    closest F32.ltb is_NaN F32.MaxFloat32
      (row_metric mfun (Metric.Values32 probe) (Metric.Values32 col) (Metric.Len32 probe))
      rows ci minv /\
    forall ci' minv',
      closest F32.ltb is_NaN F32.MaxFloat32
        (row_metric mfun (Metric.Values32 probe) (Metric.Values32 col)
           (Metric.Len32 probe))
        rows ci' minv' ->
      ci' = ci /\ minv' = minv.
Proof.
  intros Hd Hr He.
  unfold Metric.ClosestRow32, Metric.int_div. rewrite Hd.
  destruct (Nat.eqb_spec rows 0); [contradiction|].
  destruct (Nat.eqb_spec (Metric.Len32 col / rows) (Metric.Len32 probe)); [|contradiction].
  cbn [negb]. cbv iota.
  pose proof (div_mul_le (Metric.Len32 col) rows Hr) as Hle.
  rewrite He in *.
  destruct (row_loop_closest F32.ltb is_NaN mfun SFltb_irrefl SFltb_trans SFltb_below
              (Metric.Values32 probe) (Metric.Values32 col) (Metric.Len32 probe)
              F32.MaxFloat32 rows 0%nat (-1) F32.MaxFloat32 [])
    as (ci & minv & Hrun & Hc).
  { unfold Metric.Len32 in *. lia. }
  { apply closest_start. }
  exists ci, minv. split; [exact Hrun|]. split; [exact Hc|].
  intros ci' minv' Hc'.
  exact (closest_unique F32.ltb is_NaN SFltb_NaN F32.MaxFloat32 _ _ _ _ _ _ Hc Hc').
Qed.

Lemma ClosestRow32_returns_first_least_row_witness :
  Metric.Dim32 col3x2_32 0 = Ok 3%nat /\ 3%nat <> 0%nat /\
  (Metric.Len32 col3x2_32 / 3)%nat = Metric.Len32 probe32 /\
  exists ci minv,
    Metric.outcome (Metric.ClosestRow32 probe32 col3x2_32 (sq_dist F32.prec F32.emax))
    = Ok (ci, minv) /\
    closest F32.ltb is_NaN F32.MaxFloat32
      (row_metric (sq_dist F32.prec F32.emax) (Metric.Values32 probe32)
         (Metric.Values32 col3x2_32) (Metric.Len32 probe32))
      3 ci minv /\
    forall ci' minv',
      closest F32.ltb is_NaN F32.MaxFloat32
        (row_metric (sq_dist F32.prec F32.emax) (Metric.Values32 probe32)
           (Metric.Values32 col3x2_32) (Metric.Len32 probe32))
        3 ci' minv' ->
      ci' = ci /\ minv' = minv.
Proof.
  assert (H3 : 3%nat <> 0%nat) by lia.
  split; [reflexivity|]. split; [exact H3|]. split; [reflexivity|].
  exact (ClosestRow32_returns_first_least_row probe32 col3x2_32
           (sq_dist F32.prec F32.emax) 3 eq_refl H3 eq_refl).
Defined.

(** ** [AggCol] and [NewTable] on a row that the table does not have *)

Lemma agg_single_app cl fn l1 l2 :
  forall ag, agg_single cl fn (l1 ++ l2) ag
             = rbind (agg_single cl fn l1 ag) (agg_single cl fn l2).
Proof.
  induction l1 as [|x l1 IH]; intros ag; cbn [app agg_single rbind]; [reflexivity|].
  destruct (agg_step cl fn x 0 ag); cbn [rbind]; [apply IH|reflexivity].
Qed.

Lemma agg_multi_app cl fn csz l1 l2 :
  forall ag, agg_multi cl fn csz (l1 ++ l2) ag
             = rbind (agg_multi cl fn csz l1 ag) (agg_multi cl fn csz l2).
Proof.
  induction l1 as [|x l1 IH]; intros ag; cbn [app agg_multi rbind]; [reflexivity|].
  cbv zeta. destruct (agg_cells cl fn _ (length ag) 0 ag); cbn [rbind]; [apply IH|reflexivity].
Qed.

Lemma agg_step_out_of_range cl fn k j ag :
  k < 0 \/ Z.of_nat (length (elems cl)) <= k ->
  agg_step cl fn k j ag = Err IndexOutOfRange.
Proof.
  intros Hk. unfold agg_step, FloatVal1D. now rewrite index_out_of_range.
Qed.

Lemma wrap64_in_int64 z : in_int64 (wrap64 z).
Proof.
  unfold in_int64, wrap64.
  pose proof (Z.mod_pos_bound (z + 2 ^ 63) (2 ^ 64) ltac:(lia)). lia.
Qed.

(** The offset of an index that is not a row lies outside the column,
    unless the product overflows. *)
Lemma missing_row_offset (rows csz : nat) (bad : Z) :
  (0 < csz)%nat ->
  bad < 0 \/ Z.of_nat rows <= bad ->
  in_int64 (bad * Z.of_nat csz) ->
  in_int64 bad /\
  (wrap64 (bad * Z.of_nat csz) < 0
   \/ Z.of_nat (rows * csz) <= wrap64 (bad * Z.of_nat csz)).
Proof.
  intros Hpos Hbad Hin. rewrite (wrap64_small _ Hin).
  split; [unfold in_int64 in *; nia|]. destruct Hbad; [left|right]; nia.
Qed.

Lemma AggCol_offset_outside
  (s : Store) (p : ptr) (ix : IdxTable) (t : Table) (cl : Column) (colIdx : nat)
  (ini : float64) (fn : AggFunc) (pre post : list Z) (bad : Z) :
  views s !! p = Some ix ->
  table_at s (ix_Table ix) = Some t ->
  Cols t !! colIdx = Some cl ->
  wf_column (Rows t) cl ->
  Z.of_nat (length (elems cl)) <= 2 ^ 63 ->
  (0 < snd (RowCellSize cl))%nat ->
  slice_contents s (ix_Idxs ix) = pre ++ bad :: post ->
  valid_rows t pre ->
  in_int64 bad ->
  wrap64 (bad * Z.of_nat (snd (RowCellSize cl))) < 0
  \/ Z.of_nat (length (elems cl)) <= wrap64 (bad * Z.of_nat (snd (RowCellSize cl))) ->
  AggCol p (Z.of_nat colIdx) ini fn s = Err IndexOutOfRange.
Proof.
  intros Hv Ht Hc Hwf Hfits Hpos Hidx Hpre Hint Hoff.
  pose proof (valid_rows_flat_in_range t cl pre Hwf Hpre) as Hr.
  unfold AggCol.
  rewrite (bind_ok _ _ s ix s) by (unfold get_view; now rewrite Hv).
  rewrite (bind_ok _ _ s t s) by (unfold deref_table; now rewrite Ht).
  rewrite (bind_ok _ _ s cl s) by (apply lift_ok; now apply index_ok).
  cbv zeta. set (csz := snd (RowCellSize cl)) in *.
  rewrite (bind_ok _ _ s (slice_contents s (ix_Idxs ix)) s) by reflexivity.
  rewrite Hidx.
  destruct (Nat.eqb_spec csz 1) as [E1|E1].
  - rewrite E1 in *. cbn [replicate]. unfold lift.
    rewrite agg_single_app, (agg_single_spec cl fn pre ini Hr).
    cbn [rbind agg_single].
    replace (bad * Z.of_nat 1) with bad in Hoff by lia.
    rewrite (wrap64_small _ Hint) in Hoff.
    rewrite agg_step_out_of_range by exact Hoff. reflexivity.
  - unfold lift. rewrite agg_multi_app.
    destruct (agg_multi_spec cl fn Hfits csz pre (replicate csz ini))
      as (ag' & Hrun & Hl & _); [apply length_replicate|exact Hr|].
    rewrite Hrun. cbn [rbind agg_multi]. cbv zeta. rewrite Hl.
    destruct csz as [|k]; [lia|]. cbn [agg_cells].
    replace (wrap64 (bad * Z.of_nat (S k)) + Z.of_nat 0)
      with (wrap64 (bad * Z.of_nat (S k))) by lia.
    rewrite (wrap64_small _ (wrap64_in_int64 _)).
    rewrite agg_step_out_of_range by exact Hoff. reflexivity.
Qed.

(** X14: [AggCol] does not check the indexes of the view: it reads the
    cell of an index [srw] at the 64-bit offset [srw * csz].  In a column
    whose cells are not empty, the first index whose offset, after the
    wrap-around of the product, lies outside the column makes it panic
    with index out of range, whatever was aggregated before; no result is
    returned.  Every index that is not a row of the table (one added by
    [AddIndex], say) and whose product [srw * csz] does not overflow is
    such an index.  (An index whose product wraps into the column is not
    covered: nothing outside the column is read for it.) *)
Theorem AggCol_row_out_of_range
  (s : Store) (p : ptr) (ix : IdxTable) (t : Table) (cl : Column) (colIdx : nat)
  (ini : float64) (fn : AggFunc) (pre post : list Z) (bad : Z) :
  views s !! p = Some ix ->
  table_at s (ix_Table ix) = Some t ->
  Cols t !! colIdx = Some cl ->
  wf_column (Rows t) cl ->
  Z.of_nat (length (elems cl)) <= 2 ^ 63 ->
  (0 < snd (RowCellSize cl))%nat ->
  idxs_of s p = Some (pre ++ bad :: post) ->
  valid_rows t pre ->
  (in_int64 bad ->
   wrap64 (bad * Z.of_nat (snd (RowCellSize cl))) < 0
   \/ Z.of_nat (length (elems cl)) <= wrap64 (bad * Z.of_nat (snd (RowCellSize cl))) ->
   AggCol p (Z.of_nat colIdx) ini fn s = Err IndexOutOfRange) /\
  (bad < 0 \/ Z.of_nat (Rows t) <= bad ->
   in_int64 (bad * Z.of_nat (snd (RowCellSize cl))) ->
   AggCol p (Z.of_nat colIdx) ini fn s = Err IndexOutOfRange).
Proof.
  intros Hv Ht Hc Hwf Hfits Hpos Hidx Hpre.
  unfold idxs_of in Hidx. rewrite Hv in Hidx. injection Hidx as Hidx.
  split.
  - intros Hint Hoff.
    exact (AggCol_offset_outside s p ix t cl colIdx ini fn pre post bad
             Hv Ht Hc Hwf Hfits Hpos Hidx Hpre Hint Hoff).
  - intros Hbad Hin.
    destruct (missing_row_offset (Rows t) _ bad Hpos Hbad Hin) as (Hint & Hoff).
    apply (AggCol_offset_outside s p ix t cl colIdx ini fn pre post bad
             Hv Ht Hc Hwf Hfits Hpos Hidx Hpre Hint).
    destruct Hwf as (_ & Hl). rewrite Hl. exact Hoff.
Qed.

Lemma AggCol_row_out_of_range_witness :
  wf_column (Rows tAB) colA /\
  Z.of_nat (length (elems colA)) <= 2 ^ 63 /\
  (0 < snd (RowCellSize colA))%nat /\
  valid_rows tAB [0] /\
  (5 < 0 \/ Z.of_nat (Rows tAB) <= 5) /\
  in_int64 (5 * Z.of_nat (snd (RowCellSize colA))) /\
  AggCol 0%nat (Z.of_nat 0) F64.zero sum_agg sBad = Err IndexOutOfRange.
Proof.
  assert (Hwf : wf_column (Rows tAB) colA) by (split; reflexivity).
  assert (Hfit : Z.of_nat (length (elems colA)) <= 2 ^ 63)
    by (simpl; lia).
  assert (Hpos : (0 < snd (RowCellSize colA))%nat) by (simpl; lia).
  assert (Hpre : valid_rows tAB [0]) by (repeat constructor; simpl; lia).
  assert (Hbad : 5 < 0 \/ Z.of_nat (Rows tAB) <= 5) by (right; simpl; lia).
  assert (Hin : in_int64 (5 * Z.of_nat (snd (RowCellSize colA))))
    by (unfold in_int64; simpl; lia).
  split; [exact Hwf|]. split; [exact Hfit|]. split; [exact Hpos|].
  split; [exact Hpre|]. split; [exact Hbad|]. split; [exact Hin|].
  exact (proj2 (AggCol_row_out_of_range sBad 0%nat _ tAB colA 0%nat
                  F64.zero sum_agg [0] [1] 5
                  eq_refl eq_refl eq_refl Hwf Hfit Hpos eq_refl Hpre) Hbad Hin).
Defined.

Section CopyBadRow.
Variables (ci : nat) (scl : Column) (rows : nat) (bad : Z) (post : list Z).
Let csz := product (CellShape scl).
Hypothesis Hsrc : length (elems scl) = (rows * csz)%nat.
Hypothesis Hfit : Z.of_nat (length (elems scl)) <= 2 ^ 63.
Hypothesis Hoff :
  wrap64 (bad * Z.of_nat csz) < 0
  \/ Z.of_nat (length (elems scl)) < wrap64 (bad * Z.of_nat csz) + Z.of_nat csz.

(** The copy loop of one column stops at the first index whose cell does
    not lie inside the source column. *)
Lemma copy_rows_bad_row :
  forall pre i tcl log,
    Forall (fun row => 0 <= row < Z.of_nat rows) pre ->
    ((i + length pre) * csz <= length (elems tcl))%nat ->
    Z.of_nat (length (elems tcl)) <= 2 ^ 63 ->
    copy_rows ci scl csz (pre ++ bad :: post) i tcl log = Err IndexOutOfRange.
Proof.
  induction pre as [|srw rest IH]; intros i tcl log Hv Hlen Hfit'.
  - cbn [app copy_rows]. cbv zeta.
    unfold CopyCellsFrom.
    destruct ((0 <=? Z.of_nat csz) && (0 <=? wrap64 (bad * Z.of_nat csz))
              && (wrap64 (bad * Z.of_nat csz) + Z.of_nat csz
                  <=? Z.of_nat (length (elems scl)))
              && (0 <=? wrap64 (Z.of_nat i * Z.of_nat csz))
              && (wrap64 (Z.of_nat i * Z.of_nat csz) + Z.of_nat csz
                  <=? Z.of_nat (length (elems tcl)))) eqn:E; [|reflexivity].
    exfalso. rewrite !andb_true_iff, !Z.leb_le in E. lia.
  - inversion_clear Hv as [|? ? Hrow Hrest]. cbn [length] in Hlen.
    cbn [app copy_rows]. cbv zeta.
    assert (Hi : (i * csz + csz <= length (elems tcl))%nat) by nia.
    assert (Hs : (Z.to_nat srw * csz + csz <= length (elems scl))%nat).
    { rewrite Hsrc.
      assert ((Z.to_nat srw + 1) * csz <= rows * csz)%nat by (apply Nat.mul_le_mono_r; lia).
      lia. }
    assert (Es : srw * Z.of_nat csz = Z.of_nat (Z.to_nat srw * csz)) by lia.
    assert (Ei : Z.of_nat i * Z.of_nat csz = Z.of_nat (i * csz)) by lia.
    assert (Hz : csz = 0%nat -> (i * csz = 0 /\ Z.to_nat srw * csz = 0)%nat) by nia.
    rewrite Es, Ei, !wrap64_small by (unfold in_int64; lia).
    unfold CopyCellsFrom.
    replace ((0 <=? Z.of_nat csz)
             && (0 <=? Z.of_nat (Z.to_nat srw * csz))
             && (Z.of_nat (Z.to_nat srw * csz) + Z.of_nat csz <=? Z.of_nat (length (elems scl)))
             && (0 <=? Z.of_nat (i * csz))
             && (Z.of_nat (i * csz) + Z.of_nat csz <=? Z.of_nat (length (elems tcl))))
      with true.
    2:{ symmetry. rewrite !andb_true_iff, !Z.leb_le. lia. }
    cbn [rbind].
    apply IH; [exact Hrest| |]; cbn [elems];
      rewrite !length_app, !length_take, !length_drop; lia.
Qed.
End CopyBadRow.

Lemma NewTable_offset_outside
  (s : Store) (p : ptr) (ix : IdxTable) (t : Table) (cl : Column) (rest : list Column)
  (pre post : list Z) (bad : Z) :
  views s !! p = Some ix ->
  wf_slice s (ix_Idxs ix) ->
  table_at s (ix_Table ix) = Some t ->
  Cols t = cl :: rest ->
  wf_column (Rows t) cl ->
  Z.of_nat (length (elems cl)) <= 2 ^ 63 ->
  Z.of_nat (len (ix_Idxs ix) * product (CellShape cl)) <= 2 ^ 63 ->
  slice_contents s (ix_Idxs ix) = pre ++ bad :: post ->
  valid_rows t pre ->
  wrap64 (bad * Z.of_nat (product (CellShape cl))) < 0
  \/ Z.of_nat (length (elems cl))
     < wrap64 (bad * Z.of_nat (product (CellShape cl))) + Z.of_nat (product (CellShape cl)) ->
  NewTable p s = Err IndexOutOfRange.
Proof.
  intros Hv Hwfs Ht Hcols (_ & Hsrc) Hfit Hfit' Hidx Hpre Hoff.
  pose proof (slice_contents_length s _ Hwfs) as Hlen.
  rewrite Hidx, length_app in Hlen. cbn [length] in Hlen.
  unfold NewTable.
  rewrite (bind_ok _ _ s ix s) by (unfold get_view; now rewrite Hv).
  cbv zeta.
  rewrite (bind_ok _ _ s t s) by (unfold deref_table; now rewrite Ht).
  destruct (Nat.eqb_spec (len (ix_Idxs ix)) 0); [lia|].
  rewrite (bind_ok _ _ s (slice_contents s (ix_Idxs ix)) s) by reflexivity.
  apply bind_err. unfold lift.
  rewrite Hidx. unfold New, Schema. rewrite Hcols.
  cbn [map Cols copy_cols].
  rewrite (index_ok (cl :: rest) 0 cl eq_refl). cbn [rbind]. cbv zeta.
  change (snd (RowCellSize (new_column (len (ix_Idxs ix)) (col_schema cl))))
    with (product (CellShape cl)).
  rewrite (copy_rows_bad_row 0 cl (Rows t) bad post Hsrc Hfit Hoff pre); auto.
  - cbn [new_column elems col_schema sc_CellShape]. rewrite length_replicate. nia.
  - cbn [new_column elems col_schema sc_CellShape]. now rewrite length_replicate.
Qed.

(** X15: [NewTable] does not check the indexes of the view either: it
    copies the cell of an index [srw] from the 64-bit offset [srw * csz].
    With the first column, the first index whose cell, at the offset after
    the wrap-around of the product, does not lie inside the column makes
    it panic with index out of range, and no table is produced.  When the
    cells of that column are not empty, every index that is not a row of
    the table and whose product [srw * csz] does not overflow is such an
    index.  (An index whose product wraps into the column is not
    covered.) *)
Theorem NewTable_row_out_of_range
  (s : Store) (p : ptr) (ix : IdxTable) (t : Table) (cl : Column) (rest : list Column)
  (pre post : list Z) (bad : Z) :
  views s !! p = Some ix ->
  wf_slice s (ix_Idxs ix) ->
  table_at s (ix_Table ix) = Some t ->
  Cols t = cl :: rest ->
  wf_column (Rows t) cl ->
  Z.of_nat (length (elems cl)) <= 2 ^ 63 ->
  Z.of_nat (len (ix_Idxs ix) * product (CellShape cl)) <= 2 ^ 63 ->
  idxs_of s p = Some (pre ++ bad :: post) ->
  valid_rows t pre ->
  (wrap64 (bad * Z.of_nat (product (CellShape cl))) < 0
   \/ Z.of_nat (length (elems cl))
      < wrap64 (bad * Z.of_nat (product (CellShape cl)))
        + Z.of_nat (product (CellShape cl)) ->
   NewTable p s = Err IndexOutOfRange) /\
  ((0 < product (CellShape cl))%nat ->
   bad < 0 \/ Z.of_nat (Rows t) <= bad ->
   in_int64 (bad * Z.of_nat (product (CellShape cl))) ->
   NewTable p s = Err IndexOutOfRange).
Proof.
  intros Hv Hwfs Ht Hcols Hwf Hfit Hfit' Hidx Hpre.
  unfold idxs_of in Hidx. rewrite Hv in Hidx. injection Hidx as Hidx.
  split.
  - intros Hoff.
    exact (NewTable_offset_outside s p ix t cl rest pre post bad
             Hv Hwfs Ht Hcols Hwf Hfit Hfit' Hidx Hpre Hoff).
  - intros Hpos Hbad Hin.
    destruct (missing_row_offset (Rows t) _ bad Hpos Hbad Hin) as (_ & Hoff).
    apply (NewTable_offset_outside s p ix t cl rest pre post bad
             Hv Hwfs Ht Hcols Hwf Hfit Hfit' Hidx Hpre).
    destruct Hwf as (_ & Hl). rewrite Hl. destruct Hoff; [left|right]; lia.
Qed.

Lemma NewTable_row_out_of_range_witness :
  wf_slice sBad {| arr := 0%nat; off := 0%nat; len := 3%nat; cap := 3%nat |} /\
  wf_column (Rows tAB) colA /\
  valid_rows tAB [0] /\
  (0 < product (CellShape colA))%nat /\
  (5 < 0 \/ Z.of_nat (Rows tAB) <= 5) /\
  in_int64 (5 * Z.of_nat (product (CellShape colA))) /\
  NewTable 0%nat sBad = Err IndexOutOfRange.
Proof.
  assert (Hwfs : wf_slice sBad {| arr := 0%nat; off := 0%nat; len := 3%nat; cap := 3%nat |})
    by (split; simpl; [lia|right; eexists; split; [reflexivity|simpl; lia]]).
  assert (Hwf : wf_column (Rows tAB) colA) by (split; reflexivity).
  assert (Hfit : Z.of_nat (length (elems colA)) <= 2 ^ 63)
    by (simpl; lia).
  assert (Hfit' : Z.of_nat (3 * product (CellShape colA)) <= 2 ^ 63)
    by (simpl; lia).
  assert (Hpos : (0 < product (CellShape colA))%nat) by (simpl; lia).
  assert (Hpre : valid_rows tAB [0]) by (repeat constructor; simpl; lia).
  assert (Hbad : 5 < 0 \/ Z.of_nat (Rows tAB) <= 5) by (right; simpl; lia).
  assert (Hin : in_int64 (5 * Z.of_nat (product (CellShape colA))))
    by (unfold in_int64; simpl; lia).
  split; [exact Hwfs|]. split; [exact Hwf|]. split; [exact Hpre|].
  split; [exact Hpos|]. split; [exact Hbad|]. split; [exact Hin|].
  exact (proj2 (NewTable_row_out_of_range sBad 0%nat _ tAB colA
                  [numcol "B" [2; 1]] [0] [1] 5
                  eq_refl Hwfs eq_refl eq_refl Hwf Hfit Hfit' eq_refl Hpre)
           Hpos Hbad Hin).
Defined.

(** ** [sort.Sort] on two interfaces that answer alike *)

Section Simulation.
Variable R : Store -> Store -> Prop.
Variables data1 data2 : sort.Interface.
Hypothesis HLess : forall i j, sim R (sort.Less data1 i j) (sort.Less data2 i j).
Hypothesis HSwap : forall i j, sim R (sort.Swap data1 i j) (sort.Swap data2 i j).
Hypothesis HLen : sim R (sort.Len data1) (sort.Len data2).

Lemma sim_ret {A} (a : A) : sim R (ret a) (ret a).
Proof. intros s1 s2 H. cbn. auto. Qed.

Lemma sim_bind {A B} (m1 m2 : M A) (k1 k2 : A -> M B) :
  sim R m1 m2 -> (forall a, sim R (k1 a) (k2 a)) -> sim R (bind m1 k1) (bind m2 k2).
Proof.
  intros Hm Hk s1 s2 H. specialize (Hm s1 s2 H). unfold bind.
  destruct (m1 s1) as [[a1 s1']|e1], (m2 s2) as [[a2 s2']|e2]; try contradiction.
  - destruct Hm as [-> HR]. exact (Hk a2 s1' s2' HR).
  - exact Hm.
Qed.

(** Follows the two computations in step. *)
Ltac sim_go :=
  repeat first
    [ match goal with |- sim _ (ret _) (ret _) => apply sim_ret end
    | match goal with |- sim _ (sort.Less _ _ _) (sort.Less _ _ _) => apply HLess end
    | match goal with |- sim _ (sort.Swap _ _ _) (sort.Swap _ _ _) => apply HSwap end
    | match goal with |- sim _ (bind _ _) (bind _ _) => apply sim_bind; [|intros ?] end
    | match goal with
      | |- sim _ (if ?b then _ else _) (if ?b then _ else _) => destruct b
      end
    | progress cbv zeta ].

Lemma insert_down_sim a j : sim R (sort.insert_down data1 a j) (sort.insert_down data2 a j).
Proof.
  induction j as [|j IH]; cbn [sort.insert_down]; sim_go. exact IH.
Qed.

Lemma insertion_loop_sim a n :
  forall i, sim R (sort.insertion_loop data1 a n i) (sort.insertion_loop data2 a n i).
Proof.
  induction n as [|n IH]; intros i; cbn [sort.insertion_loop]; sim_go.
  - apply insert_down_sim.
  - apply IH.
Qed.

Lemma shell_pass_sim n :
  forall i, sim R (sort.shell_pass data1 n i) (sort.shell_pass data2 n i).
Proof.
  induction n as [|n IH]; intros i; cbn [sort.shell_pass]; sim_go; apply IH.
Qed.

Lemma siftDown_loop_sim hi first fuel :
  forall root, sim R (sort.siftDown_loop data1 fuel root hi first)
                     (sort.siftDown_loop data2 fuel root hi first).
Proof.
  induction fuel as [|fuel IH]; intros root; cbn [sort.siftDown_loop]; sim_go; apply IH.
Qed.

Lemma heap_build_sim hi first n :
  sim R (sort.heap_build data1 n hi first) (sort.heap_build data2 n hi first).
Proof.
  induction n as [|n IH]; cbn [sort.heap_build]; sim_go; [|exact IH].
  apply siftDown_loop_sim.
Qed.

Lemma heap_pop_sim lo first n :
  sim R (sort.heap_pop data1 n lo first) (sort.heap_pop data2 n lo first).
Proof.
  induction n as [|n IH]; cbn [sort.heap_pop]; sim_go; [|exact IH].
  apply siftDown_loop_sim.
Qed.

Lemma heapSort_sim a b : sim R (sort.heapSort data1 a b) (sort.heapSort data2 a b).
Proof.
  unfold sort.heapSort. sim_go; [apply heap_build_sim|apply heap_pop_sim].
Qed.

Lemma medianOfThree_sim m1 m0 m2 :
  sim R (sort.medianOfThree data1 m1 m0 m2) (sort.medianOfThree data2 m1 m0 m2).
Proof. unfold sort.medianOfThree. sim_go. Qed.

Lemma skip_less_sim pivot n :
  forall a, sim R (sort.skip_less data1 pivot n a) (sort.skip_less data2 pivot n a).
Proof.
  induction n as [|n IH]; intros a; cbn [sort.skip_less]; sim_go. apply IH.
Qed.

Lemma skip_not_greater_sim pivot n :
  forall b, sim R (sort.skip_not_greater data1 pivot n b)
                  (sort.skip_not_greater data2 pivot n b).
Proof.
  induction n as [|n IH]; intros b; cbn [sort.skip_not_greater]; sim_go. apply IH.
Qed.

Lemma skip_greater_sim pivot n :
  forall c, sim R (sort.skip_greater data1 pivot n c) (sort.skip_greater data2 pivot n c).
Proof.
  induction n as [|n IH]; intros c; cbn [sort.skip_greater]; sim_go. apply IH.
Qed.

Lemma skip_equal_down_sim pivot n :
  forall b, sim R (sort.skip_equal_down data1 pivot n b)
                  (sort.skip_equal_down data2 pivot n b).
Proof.
  induction n as [|n IH]; intros b; cbn [sort.skip_equal_down]; sim_go. apply IH.
Qed.

Lemma partition_loop_sim pivot fuel :
  forall b c, sim R (sort.partition_loop data1 fuel pivot b c)
                    (sort.partition_loop data2 fuel pivot b c).
Proof.
  induction fuel as [|fuel IH]; intros b c; cbn [sort.partition_loop]; sim_go;
    first [apply skip_not_greater_sim | apply skip_greater_sim | apply IH].
Qed.

Lemma protect_loop_sim pivot fuel :
  forall a b, sim R (sort.protect_loop data1 fuel pivot a b)
                    (sort.protect_loop data2 fuel pivot a b).
Proof.
  induction fuel as [|fuel IH]; intros a b; cbn [sort.protect_loop]; sim_go;
    first [apply skip_equal_down_sim | apply skip_less_sim | apply IH].
Qed.

Lemma doPivot_sim lo hi : sim R (sort.doPivot data1 lo hi) (sort.doPivot data2 lo hi).
Proof.
  unfold sort.doPivot. sim_go;
    first [ apply medianOfThree_sim | apply skip_less_sim
          | apply partition_loop_sim | apply protect_loop_sim ].
Qed.

Lemma quickSort_sim maxDepth :
  forall a b, sim R (sort.quickSort data1 maxDepth a b) (sort.quickSort data2 maxDepth a b).
Proof.
  induction maxDepth as [|d IH]; intros a b; cbn [sort.quickSort]; sim_go;
    first [ apply heapSort_sim | apply shell_pass_sim | apply insertion_loop_sim
          | apply doPivot_sim | apply IH ].
Qed.

Lemma Sort_sim : sim R (sort.Sort data1) (sort.Sort data2).
Proof.
  unfold sort.Sort. apply sim_bind; [exact HLen|]. intros n. apply quickSort_sim.
Qed.

End Simulation.

(** ** [SortCol] and [SortCols] of one column *)

Section TwoComparators.
Variables (p : ptr) (f g : LessFunc).

Lemma slice_get_cases sl i s :
  (exists v, forall s2, arrays s2 = arrays s -> slice_get sl i s2 = Ok (v, s2)) \/
  (forall s2, arrays s2 = arrays s -> slice_get sl i s2 = Err IndexOutOfRange).
Proof.
  unfold slice_get.
  destruct (i <? len sl)%nat; [|right; reflexivity].
  destruct (arrays s !! arr sl) as [a|] eqn:Ea.
  - destruct (a !! (off sl + i)%nat) as [v|] eqn:Ev.
    + left. exists v. intros s2 ->. now rewrite Ea, Ev.
    + right. intros s2 ->. now rewrite Ea, Ev.
  - right. intros s2 ->. now rewrite Ea.
Qed.

Lemma slice_set_cases sl k v s :
  (exists arrs, forall s2, arrays s2 = arrays s ->
     slice_set sl k v s2
     = Ok (tt, {| arrays := arrs; tables := tables s2; views := views s2 |})) \/
  (forall s2, arrays s2 = arrays s -> slice_set sl k v s2 = Err IndexOutOfRange).
Proof.
  unfold slice_set.
  destruct (k <? len sl)%nat; [|right; reflexivity].
  destruct (arrays s !! arr sl) as [a|] eqn:Ea.
  - destruct (off sl + k <? length a)%nat eqn:El.
    + left. eexists. intros s2 E. rewrite E, Ea, El. reflexivity.
    + right. intros s2 ->. now rewrite Ea, El.
  - right. intros s2 ->. now rewrite Ea.
Qed.

Lemma Less_sim i j : sim (same_but_comparator p f g) (Less p i j) (Less p i j).
Proof.
  intros s1 s2 (Ha & Ht & ix1 & ix2 & V1 & V2 & ET & EI & L1 & L2 & Hfg).
  unfold Less.
  rewrite (bind_ok _ _ s1 ix1 s1) by (unfold get_view; now rewrite V1).
  rewrite (bind_ok _ _ s2 ix2 s2) by (unfold get_view; now rewrite V2).
  rewrite (bind_ok _ _ s1 (table_at s1 (ix_Table ix1)) s1) by reflexivity.
  rewrite (bind_ok _ _ s2 (table_at s1 (ix_Table ix1)) s2)
    by (unfold read_table, table_at; now rewrite <- ET, Ht).
  rewrite <- EI, L1, L2.
  destruct (slice_get_cases (ix_Idxs ix1) i s1) as [(vi & Hi)|Hi].
  2:{ rewrite !(bind_err _ _ _ _ (Hi _ eq_refl)), !(bind_err _ _ _ _ (Hi s2 (eq_sym Ha))).
      reflexivity. }
  rewrite (bind_ok _ _ _ _ _ (Hi s1 eq_refl)), (bind_ok _ _ _ _ _ (Hi s2 (eq_sym Ha))).
  destruct (slice_get_cases (ix_Idxs ix1) j s1) as [(vj & Hj)|Hj].
  2:{ rewrite !(bind_err _ _ _ _ (Hj _ eq_refl)), !(bind_err _ _ _ _ (Hj s2 (eq_sym Ha))).
      reflexivity. }
  rewrite (bind_ok _ _ _ _ _ (Hj s1 eq_refl)), (bind_ok _ _ _ _ _ (Hj s2 (eq_sym Ha))).
  unfold lift. rewrite <- Hfg.
  destruct (f (table_at s1 (ix_Table ix1)) vi vj); [|reflexivity].
  split; [reflexivity|].
  split; [exact Ha|]. split; [exact Ht|]. exists ix1, ix2. auto 10.
Qed.

Lemma Swap_sim i j : sim (same_but_comparator p f g) (Swap p i j) (Swap p i j).
Proof.
  intros s1 s2 (Ha & Ht & ix1 & ix2 & V1 & V2 & ET & EI & L1 & L2 & Hfg).
  unfold Swap.
  rewrite (bind_ok _ _ s1 ix1 s1) by (unfold get_view; now rewrite V1).
  rewrite (bind_ok _ _ s2 ix2 s2) by (unfold get_view; now rewrite V2).
  rewrite <- EI.
  destruct (slice_get_cases (ix_Idxs ix1) j s1) as [(vj & Hj)|Hj].
  2:{ rewrite !(bind_err _ _ _ _ (Hj _ eq_refl)), !(bind_err _ _ _ _ (Hj s2 (eq_sym Ha))).
      reflexivity. }
  rewrite (bind_ok _ _ _ _ _ (Hj s1 eq_refl)), (bind_ok _ _ _ _ _ (Hj s2 (eq_sym Ha))).
  destruct (slice_get_cases (ix_Idxs ix1) i s1) as [(vi & Hi)|Hi].
  2:{ rewrite !(bind_err _ _ _ _ (Hi _ eq_refl)), !(bind_err _ _ _ _ (Hi s2 (eq_sym Ha))).
      reflexivity. }
  rewrite (bind_ok _ _ _ _ _ (Hi s1 eq_refl)), (bind_ok _ _ _ _ _ (Hi s2 (eq_sym Ha))).
  destruct (slice_set_cases (ix_Idxs ix1) i vj s1) as [(arrs1 & H1)|H1].
  2:{ rewrite !(bind_err _ _ _ _ (H1 _ eq_refl)), !(bind_err _ _ _ _ (H1 s2 (eq_sym Ha))).
      reflexivity. }
  rewrite (bind_ok _ _ _ _ _ (H1 s1 eq_refl)), (bind_ok _ _ _ _ _ (H1 s2 (eq_sym Ha))).
  set (s1' := {| arrays := arrs1; tables := tables s1; views := views s1 |}).
  set (s2' := {| arrays := arrs1; tables := tables s2; views := views s2 |}).
  destruct (slice_set_cases (ix_Idxs ix1) j vi s1') as [(arrs2 & H2)|H2].
  2:{ rewrite (H2 s1' eq_refl), (H2 s2' eq_refl). reflexivity. }
  rewrite (H2 s1' eq_refl), (H2 s2' eq_refl).
  split; [reflexivity|].
  split; [reflexivity|]. split; [exact Ht|].
  exists ix1, ix2. cbn [views tables s1' s2']. auto 10.
Qed.

Lemma Len_sim : sim (same_but_comparator p f g) (Len p) (Len p).
Proof.
  intros s1 s2 (Ha & Ht & ix1 & ix2 & V1 & V2 & ET & EI & L1 & L2 & Hfg).
  unfold Len, bind, get_view, ret. rewrite V1, V2, EI.
  split; [reflexivity|].
  split; [exact Ha|]. split; [exact Ht|]. exists ix1, ix2. auto 10.
Qed.

(** [Sort] with two comparators that answer alike on the table of the
    view goes the same way. *)
Lemma Sort_two_comparators (s : Store) (ix : IdxTable) :
  views s !! p = Some ix ->
  (forall x y, f (table_at s (ix_Table ix)) x y = g (table_at s (ix_Table ix)) x y) ->
  same_sort_outcome p (Sort p f s) (Sort p g s).
Proof.
  intros Hv Hfg.
  assert (Hlt : (p < length (views s))%nat) by (now apply lookup_lt_Some in Hv).
  unfold Sort.
  rewrite (bind_ok _ _ s tt _ (set_lessFunc_ok p s ix f Hv)).
  rewrite (bind_ok _ _ s tt _ (set_lessFunc_ok p s ix g Hv)).
  match goal with
  | |- same_sort_outcome _ (_ ?s1) (_ ?s2) =>
      assert (HR : same_but_comparator p f g s1 s2)
  end.
  { split; [reflexivity|]. split; [reflexivity|].
    eexists _, _. cbn [views].
    split; [apply list_lookup_insert_eq; exact Hlt|].
    split; [apply list_lookup_insert_eq; exact Hlt|].
    cbn [ix_Table ix_Idxs ix_lessFunc]. auto 10. }
  pose proof (Sort_sim (same_but_comparator p f g) (as_Interface p) (as_Interface p)
                Less_sim Swap_sim Len_sim _ _ HR) as Hs.
  unfold same_sort_outcome.
  destruct (sort.Sort (as_Interface p) _) as [[[] s1']|e1],
           (sort.Sort (as_Interface p) _) as [[[] s2']|e2]; try contradiction;
    [|exact Hs].
  destruct Hs as (_ & Ha & Ht & ix1 & ix2 & V1 & V2 & ET & EI & _).
  split; [|split; assumption].
  unfold idxs_of, slice_contents. now rewrite V1, V2, EI, Ha.
Qed.
End TwoComparators.

(** On an existing column, the comparator of [SortCol] answers as that of
    [SortCols] of that column alone. *)
Lemma SortCol_less_one_column (t : Table) (colIdx : Z) (cl : Column) (ascending : bool) :
  index (Cols t) colIdx = Ok cl ->
  forall x y, SortCol_less cl ascending (Some t) x y
              = SortCols_less [colIdx] ascending (Some t) x y.
Proof.
  intros Hc x y. unfold SortCol_less. cbn [SortCols_less rbind]. rewrite Hc. cbn [rbind].
  unfold cmp2.
  destruct (ColType cl), ascending.
  - destruct (StringVal1D cl x) as [a|]; [|reflexivity].
    destruct (StringVal1D cl y) as [b|]; [|reflexivity]. cbn [rbind].
    destruct (str_lt a b); [reflexivity|]. now destruct (str_gt a b).
  - destruct (StringVal1D cl x) as [a|]; [|reflexivity].
    destruct (StringVal1D cl y) as [b|]; [|reflexivity]. cbn [rbind].
    destruct (str_gt a b); [reflexivity|]. now destruct (str_lt a b).
  - destruct (FloatVal1D cl x) as [a|]; [|reflexivity].
    destruct (FloatVal1D cl y) as [b|]; [|reflexivity]. cbn [rbind].
    now destruct (F64.ltb a b).
  - destruct (FloatVal1D cl x) as [a|]; [|reflexivity].
    destruct (FloatVal1D cl y) as [b|]; [|reflexivity]. cbn [rbind].
    destruct (F64.gtb a b); [reflexivity|]. now destruct (F64.ltb a b).
Qed.

(** X16: on a column that the table has, [SortCol] goes exactly as
    [SortCols] with that column as the only key: the same indexes
    afterwards, or the same panic.  (The repeated test in the ascending
    numeric branch of [SortCols] makes no difference when there is one
    key.) *)
Theorem SortCol_is_SortCols_of_one_column
  (s : Store) (p : ptr) (ix : IdxTable) (t : Table) (colIdx : Z) (cl : Column)
  (ascending : bool) :
  views s !! p = Some ix ->
  table_at s (ix_Table ix) = Some t ->
  index (Cols t) colIdx = Ok cl ->
  same_sort_outcome p (SortCol p colIdx ascending s) (SortCols p [colIdx] ascending s).
Proof.
  intros Hv Ht Hc. unfold SortCol, SortCols.
  rewrite (bind_ok _ _ s ix s) by (unfold get_view; now rewrite Hv).
  rewrite (bind_ok _ _ s t s) by (unfold deref_table; now rewrite Ht).
  rewrite (bind_ok _ _ s cl s) by (now apply lift_ok).
  apply (Sort_two_comparators p _ _ s ix Hv).
  rewrite Ht. now apply SortCol_less_one_column.
Qed.

Lemma SortCol_is_SortCols_of_one_column_witness :
  index (Cols t7) 0 = Ok (numcol "k" [2; 1; 0; 0; 0; 0; 1]) /\
  same_sort_outcome 0%nat (SortCol 0%nat 0 true s7) (SortCols 0%nat [0] true s7).
Proof.
  split; [reflexivity|].
  exact (SortCol_is_SortCols_of_one_column s7 0%nat _ t7 0 _ true eq_refl eq_refl eq_refl).
Defined.

(** ** [SetTable], and [sort.Sort] on a view that has no comparator *)

(** X17: [SetTable] on an existing view replaces the table and makes the
    indexes [0, 1, ..., Rows-1] of the new table, in a new backing array
    (one that the store did not have); with nil it empties the view.  The comparator of the view, the other
    views, the tables and the arrays that existed are left as they were. *)
Theorem SetTable_resets_the_view (s : Store) (p : ptr) (ix : IdxTable) :
  views s !! p = Some ix ->
  (forall tp t,
      tables s !! tp = Some t ->
      exists s' ix',
        SetTable p (Some tp) s = Ok (tt, s') /\
        views s' !! p = Some ix' /\
        ix_Table ix' = Some tp /\ ix_lessFunc ix' = ix_lessFunc ix /\
        idxs_of s' p = Some (identity_idxs (Rows t)) /\
        (forall b a, arrays s !! b = Some a -> arrays s' !! b = Some a) /\
        tables s' = tables s /\
        (forall q, q <> p -> views s' !! q = views s !! q) /\
        arrays s !! arr (ix_Idxs ix') = None) /\
  (exists s' ix',
      SetTable p None s = Ok (tt, s') /\
      views s' !! p = Some ix' /\
      ix_Table ix' = None /\ ix_lessFunc ix' = ix_lessFunc ix /\
      idxs_of s' p = Some [] /\
      arrays s' = arrays s /\ tables s' = tables s /\
      (forall q, q <> p -> views s' !! q = views s !! q)).
Proof.
  intros Hv.
  assert (Hlt : (p < length (views s))%nat) by (now apply lookup_lt_Some in Hv).
  assert (Hset : forall et,
             set_Table p et s
             = Ok (tt, {| arrays := arrays s; tables := tables s;
                          views := <[p := {| ix_Table := et; ix_Idxs := ix_Idxs ix;
                                             ix_lessFunc := ix_lessFunc ix |}]> (views s) |})).
  { intros et. unfold set_Table, bind, get_view, set_view. rewrite Hv.
    cbv beta iota. now rewrite Hv. }
  split.
  - intros tp t Ht. unfold SetTable.
    rewrite (bind_ok _ _ _ _ _ (Hset (Some tp))).
    eexists _, _. split.
    { apply (Sequential_ok _ p {| ix_Table := Some tp; ix_Idxs := ix_Idxs ix;
                                  ix_lessFunc := ix_lessFunc ix |} t).
      - cbn [views]. apply list_lookup_insert_eq. exact Hlt.
      - exact Ht. }
    cbn [views arrays tables ix_Table ix_Idxs ix_lessFunc].
    rewrite list_insert_insert_eq.
    split; [apply list_lookup_insert_eq; exact Hlt|].
    split; [reflexivity|]. split; [reflexivity|].
    split.
    { unfold idxs_of. cbn [views]. rewrite list_lookup_insert_eq by exact Hlt.
      unfold slice_contents. cbn [ix_Idxs arr off len arrays].
      rewrite lookup_snoc_last, drop_0. f_equal. apply take_ge.
      unfold identity_idxs. rewrite length_map, length_seq. lia. }
    split; [intros b a Hb; now apply lookup_app_l_Some|].
    split; [reflexivity|].
    split; [intros q Hq; apply list_lookup_insert_ne; auto|].
    cbn [ix_Idxs arr]. apply lookup_ge_None. lia.
  - unfold SetTable.
    rewrite (bind_ok _ _ _ _ _ (Hset None)).
    eexists _, _. split.
    { apply (Sequential_nil _ p {| ix_Table := None; ix_Idxs := ix_Idxs ix;
                                   ix_lessFunc := ix_lessFunc ix |}).
      - cbn [views]. apply list_lookup_insert_eq. exact Hlt.
      - reflexivity. }
    cbn [views arrays tables ix_Table ix_Idxs ix_lessFunc].
    rewrite list_insert_insert_eq.
    split; [apply list_lookup_insert_eq; exact Hlt|].
    split; [reflexivity|]. split; [reflexivity|].
    split.
    { unfold idxs_of. cbn [views]. rewrite list_lookup_insert_eq by exact Hlt.
      unfold slice_contents. cbn [ix_Idxs nil_slice arr off len arrays].
      now destruct (arrays s !! 0%nat). }
    split; [reflexivity|]. split; [reflexivity|].
    intros q Hq. apply list_lookup_insert_ne. auto.
Qed.

Lemma SetTable_resets_the_view_witness :
  (forall tp t,
      tables sCells !! tp = Some t ->
      exists s' ix',
        SetTable 0%nat (Some tp) sCells = Ok (tt, s') /\
        views s' !! 0%nat = Some ix' /\
        ix_Table ix' = Some tp /\ ix_lessFunc ix' = None /\
        idxs_of s' 0%nat = Some (identity_idxs (Rows t)) /\
        (forall b a, arrays sCells !! b = Some a -> arrays s' !! b = Some a) /\
        tables s' = tables sCells /\
        (forall q, q <> 0%nat -> views s' !! q = views sCells !! q) /\
        arrays sCells !! arr (ix_Idxs ix') = None) /\
  (exists s' ix',
      SetTable 0%nat None sCells = Ok (tt, s') /\
      views s' !! 0%nat = Some ix' /\
      ix_Table ix' = None /\ ix_lessFunc ix' = None /\
      idxs_of s' 0%nat = Some [] /\
      arrays s' = arrays sCells /\ tables s' = tables sCells /\
      (forall q, q <> 0%nat -> views s' !! q = views sCells !! q)).
Proof.
  destruct (SetTable_resets_the_view sCells 0%nat _ eq_refl) as [Hsome Hnil].
  split; [exact Hsome|exact Hnil].
Defined.

(** X18: a view is a [sort.Interface], but its [Less] needs the
    comparator that only [Sort] sets.  [sort.Sort] called on a view that
    was never sorted panics with a nil dereference as soon as the view
    has two rows; on a view of at most one row it returns, no comparison
    being made. *)
Theorem sort_Sort_without_comparator (s : Store) (p : ptr) (ix : IdxTable) :
  views s !! p = Some ix ->
  wf_slice s (ix_Idxs ix) ->
  ix_lessFunc ix = None ->
  ((2 <= len (ix_Idxs ix))%nat -> sort.Sort (as_Interface p) s = Err NilDereference) /\
  ((len (ix_Idxs ix) <= 1)%nat -> sort.Sort (as_Interface p) s = Ok (tt, s)).
Proof.
  intros Hv Hwf Hnone. split; intros Hn.
  - apply (sort_Sort_first_compare (as_Interface p) s (len (ix_Idxs ix))).
    + exact (Len_idle s p ix Hv).
    + intros i j Hi Hj. cbn [as_Interface sort.Less]. unfold Less.
      rewrite (bind_ok _ _ s ix s) by (unfold get_view; now rewrite Hv).
      rewrite (bind_ok _ _ s (table_at s (ix_Table ix)) s) by reflexivity.
      destruct (slice_get_ok s _ Hwf i Hi) as (vi & Hgi & _).
      destruct (slice_get_ok s _ Hwf j Hj) as (vj & Hgj & _).
      rewrite (bind_ok _ _ s vi s) by exact Hgi.
      rewrite (bind_ok _ _ s vj s) by exact Hgj.
      now rewrite Hnone.
    + exact Hn.
  - apply (sort_Sort_short (as_Interface p) s (len (ix_Idxs ix))); [|exact Hn].
    exact (Len_idle s p ix Hv).
Qed.

Lemma sort_Sort_without_comparator_witness :
  wf_slice sAB {| arr := 0%nat; off := 0%nat; len := 2%nat; cap := 2%nat |} /\
  ((2 <= 2)%nat -> sort.Sort (as_Interface 0%nat) sAB = Err NilDereference) /\
  ((2 <= 1)%nat -> sort.Sort (as_Interface 0%nat) sAB = Ok (tt, sAB)).
Proof.
  assert (Hwf : wf_slice sAB {| arr := 0%nat; off := 0%nat; len := 2%nat; cap := 2%nat |})
    by (split; simpl; [lia|right; eexists; split; [reflexivity|simpl; lia]]).
  split; [exact Hwf|].
  exact (sort_Sort_without_comparator sAB 0%nat _ eq_refl Hwf eq_refl).
Defined.

(** ** The comparators as orders *)

Lemma str_lt_asym a b : str_lt a b = true -> str_lt b a = false.
Proof.
  unfold str_lt, String.ltb. rewrite (String.compare_antisym b a).
  now destruct (String.compare a b).
Qed.

Lemma F64_ltb_asym a b : F64.ltb a b = true -> F64.ltb b a = false.
Proof.
  unfold F64.ltb. intros H. destruct (SFltb b a) eqn:E; [|reflexivity].
  rewrite <- (SFltb_irrefl a). symmetry. exact (SFltb_trans _ _ _ H E).
Qed.

Lemma SortCol_less_asymmetric cl ascending et : asymmetric (SortCol_less cl ascending et).
Proof.
  intros i j. unfold SortCol_less, cmp2.
  destruct (ColType cl), ascending.
  - destruct (StringVal1D cl i) as [a|]; [|discriminate].
    destruct (StringVal1D cl j) as [b|]; [|discriminate]. cbn [rbind].
    intros H. injection H as H. now rewrite (str_lt_asym a b H).
  - destruct (StringVal1D cl i) as [a|]; [|discriminate].
    destruct (StringVal1D cl j) as [b|]; [|discriminate]. cbn [rbind].
    unfold str_gt. fold (str_lt b a). fold (str_lt a b).
    intros H. injection H as H. now rewrite (str_lt_asym b a H).
  - destruct (FloatVal1D cl i) as [a|]; [|discriminate].
    destruct (FloatVal1D cl j) as [b|]; [|discriminate]. cbn [rbind].
    intros H. injection H as H. now rewrite (F64_ltb_asym a b H).
  - destruct (FloatVal1D cl i) as [a|]; [|discriminate].
    destruct (FloatVal1D cl j) as [b|]; [|discriminate]. cbn [rbind].
    unfold F64.gtb. fold (F64.ltb b a). fold (F64.ltb a b).
    intros H. injection H as H. now rewrite (F64_ltb_asym b a H).
Qed.

Lemma SortCols_less_asymmetric (t : Table) (ascending : bool) :
  forall colIdxs,
    keys_tested_both_ways t colIdxs ascending ->
    asymmetric (SortCols_less colIdxs ascending (Some t)).
Proof.
  induction colIdxs as [|ci rest IH]; intros Hk i j H.
  - discriminate.
  - assert (Hrest : keys_tested_both_ways t rest ascending).
    { destruct Hk as [Hd|Hs]; [now left|right]. now inversion Hs. }
    specialize (IH Hrest i j).
    cbn [SortCols_less rbind] in H |- *.
    destruct (index (Cols t) ci) as [cl|] eqn:Hc; cbn [rbind] in H |- *; [|discriminate].
    destruct (ColType cl) eqn:Ety.
    + (* a string key *)
      unfold cmp2 in H |- *.
      destruct (StringVal1D cl i) as [a|]; [|destruct ascending; discriminate].
      destruct (StringVal1D cl j) as [b|]; [|destruct ascending; discriminate].
      cbn [rbind] in H |- *. unfold str_gt in H |- *.
      fold (str_lt a b) in H |- *. fold (str_lt b a) in H |- *.
      pose proof (str_lt_asym a b) as H1. pose proof (str_lt_asym b a) as H2.
      destruct ascending, (str_lt a b), (str_lt b a); cbn [rbind] in H |- *;
        try discriminate; try reflexivity; try (exact (IH H));
        try (specialize (H1 eq_refl); discriminate).
    + (* a numeric key *)
      destruct ascending.
      { destruct Hk as [Hd|Hs]; [discriminate|].
        inversion Hs as [|? ? Hty _]. rewrite (Hty cl Hc) in Ety. discriminate. }
      unfold cmp2 in H |- *.
      destruct (FloatVal1D cl i) as [a|]; [|discriminate].
      destruct (FloatVal1D cl j) as [b|]; [|discriminate].
      cbn [rbind] in H |- *. unfold F64.gtb in H |- *.
      fold (F64.ltb a b) in H |- *. fold (F64.ltb b a) in H |- *.
      pose proof (F64_ltb_asym a b) as H1. pose proof (F64_ltb_asym b a) as H2.
      destruct (F64.ltb a b), (F64.ltb b a); cbn [rbind] in H |- *;
        try discriminate; try reflexivity; try (exact (IH H));
        try (specialize (H1 eq_refl); discriminate).
Qed.

(** X19: the comparators are asymmetric wherever both directions are
    tested.  No two rows are each less than the other under the
    comparator of [SortCol], nor under that of [SortCols] when the order
    is descending or the keys are string columns; so no row is less than
    itself.  (The ascending numeric branch of [SortCols] tests the same
    direction twice and is left out.) *)
Theorem sort_comparators_are_asymmetric
  (t : Table) (colIdxs : list Z) (ascending : bool) :
  keys_tested_both_ways t colIdxs ascending ->
  asymmetric (SortCols_less colIdxs ascending (Some t)) /\
  (forall i, SortCols_less colIdxs ascending (Some t) i i <> Ok true) /\
  (forall cl asc et, asymmetric (SortCol_less cl asc et)) /\
  (forall cl asc et i, SortCol_less cl asc et i i <> Ok true).
Proof.
  intros Hk.
  pose proof (SortCols_less_asymmetric t ascending colIdxs Hk) as Ha.
  split; [exact Ha|]. split.
  { intros i H. pose proof (Ha i i H) as H'. rewrite H in H'. discriminate. }
  split; [intros cl asc et; apply SortCol_less_asymmetric|].
  intros cl asc et i H.
  pose proof (SortCol_less_asymmetric cl asc et i i H) as H'. rewrite H in H'. discriminate.
Qed.

Lemma sort_comparators_are_asymmetric_witness :
  keys_tested_both_ways tAB [0; 1] false /\
  asymmetric (SortCols_less [0; 1] false (Some tAB)) /\
  (forall i, SortCols_less [0; 1] false (Some tAB) i i <> Ok true) /\
  (forall cl asc et, asymmetric (SortCol_less cl asc et)) /\
  (forall cl asc et i, SortCol_less cl asc et i i <> Ok true).
Proof.
  assert (Hk : keys_tested_both_ways tAB [0; 1] false) by (left; reflexivity).
  split; [exact Hk|].
  exact (sort_comparators_are_asymmetric tAB [0; 1] false Hk).
Defined.

(** ** [Filter], then [NewTable] and [AggCol] *)

Lemma Forall_List_filter {A} (P : A -> Prop) (f : A -> bool) (l : list A) :
  Forall P l -> Forall P (List.filter f l).
Proof.
  induction 1 as [|x l Hx Hl IH]; cbn [List.filter]; [constructor|].
  destruct (f x); [constructor|]; assumption.
Qed.

Lemma fits_int64_le (t : Table) (n m : nat) :
  (n <= m)%nat -> fits_int64 t m -> fits_int64 t n.
Proof.
  intros Hnm. unfold fits_int64. intros H. eapply Forall_impl; [exact H|].
  cbv beta. intros cl (H1 & H2). split; [exact H1|]. nia.
Qed.

(** X20: after [Filter], [NewTable] and [AggCol] see exactly the rows
    that passed.  On a view of valid rows of a well-formed table,
    [Filter] followed by [NewTable] gives a table whose columns hold the
    cells of the passing rows, in their previous order; [Filter] followed
    by [AggCol] aggregates over the passing rows only. *)
Theorem Filter_then_NewTable_and_AggCol
  (s : Store) (p : ptr) (ix : IdxTable) (t : Table) (f : FilterFunc) (old : list Z)
  (colIdx : nat) (cl : Column) (ini : float64) (fn : AggFunc) :
  views s !! p = Some ix ->
  wf_slice s (ix_Idxs ix) ->
  table_at s (ix_Table ix) = Some t ->
  wf_table t ->
  idxs_of s p = Some old ->
  valid_rows t old ->
  fits_int64 t (length old) ->
  Cols t !! colIdx = Some cl ->
  exists s1 q log s2,
    Filter p f s = Ok (tt, s1) /\
    NewTable p s1 = Ok ((q, log), s2) /\
    tables s2 !! q
    = Some {| Cols := map (materialised (List.filter (f (Some t)) old)) (Cols t);
              Rows := length (List.filter (f (Some t)) old) |} /\
    AggCol p (Z.of_nat colIdx) ini fn s1
    = Ok (aggregate cl fn (snd (RowCellSize cl)) (List.filter (f (Some t)) old) ini, s1).
Proof.
  intros Hv Hwf Ht Hwt Hold Hvalid Hfits Hc.
  unfold idxs_of in Hold. rewrite Hv in Hold. injection Hold as <-.
  destruct (Filter_ok s p ix f Hv Hwf) as (s1 & ix1 & R1 & F1 & V1 & W1 & T1 & C1).
  rewrite Ht in T1, C1.
  set (new := List.filter (f (Some t)) (slice_contents s (ix_Idxs ix))) in *.
  assert (Hvalid1 : valid_rows t (slice_contents s1 (ix_Idxs ix1))).
  { rewrite C1. now apply Forall_List_filter. }
  assert (Hlen1 : len (ix_Idxs ix1) = length new).
  { rewrite <- C1. symmetry. now apply slice_contents_length. }
  assert (Hfits1 : fits_int64 t (len (ix_Idxs ix1))).
  { apply (fits_int64_le t _ _ (filter_length_le (f (Some t)) _)) in Hfits.
    now rewrite Hlen1. }
  exists s1. eexists _, _, _.
  split; [exact R1|].
  split; [exact (NewTable_ok s1 p ix1 t V1 W1 T1 Hwt Hvalid1 Hfits1)|].
  split.
  { cbn [tables]. rewrite lookup_snoc_last, C1, Hlen1. reflexivity. }
  rewrite <- C1.
  apply (AggCol_ok s1 p ix1 t cl colIdx ini fn V1 T1 Hc).
  - pose proof (proj1 (Forall_lookup _ _) Hfits colIdx cl Hc) as (Hf & _). exact Hf.
  - apply (valid_rows_flat_in_range t cl); [|exact Hvalid1].
    exact (proj1 (Forall_lookup _ _) Hwt colIdx cl Hc).
Qed.

Lemma Filter_then_NewTable_and_AggCol_witness :
  wf_slice s7 {| arr := 0%nat; off := 0%nat; len := 7%nat; cap := 7%nat |} /\
  wf_table t7 /\
  valid_rows t7 [0; 1; 2; 3; 4; 5; 6] /\
  fits_int64 t7 (length [0; 1; 2; 3; 4; 5; 6]) /\
  exists s1 q log s2,
    Filter 0%nat (fun _ row => 1 <? row) s7 = Ok (tt, s1) /\
    NewTable 0%nat s1 = Ok ((q, log), s2) /\
    tables s2 !! q
    = Some {| Cols := map (materialised
                             (List.filter (fun row => 1 <? row) [0; 1; 2; 3; 4; 5; 6]))
                          (Cols t7);
              Rows := length (List.filter (fun row => 1 <? row) [0; 1; 2; 3; 4; 5; 6]) |} /\
    AggCol 0%nat (Z.of_nat 0) F64.zero sum_agg s1
    = Ok (aggregate (numcol "k" [2; 1; 0; 0; 0; 0; 1]) sum_agg
            (snd (RowCellSize (numcol "k" [2; 1; 0; 0; 0; 0; 1])))
            (List.filter (fun row => 1 <? row) [0; 1; 2; 3; 4; 5; 6]) F64.zero, s1).
Proof.
  assert (Hwf : wf_slice s7 {| arr := 0%nat; off := 0%nat; len := 7%nat; cap := 7%nat |})
    by (split; simpl; [lia|right; eexists; split; [reflexivity|simpl; lia]]).
  assert (Hwt : wf_table t7) by (repeat constructor).
  assert (Hvalid : valid_rows t7 [0; 1; 2; 3; 4; 5; 6])
    by (repeat constructor; simpl; lia).
  assert (Hfits : fits_int64 t7 (length [0; 1; 2; 3; 4; 5; 6]))
    by (repeat constructor; simpl; lia).
  split; [exact Hwf|]. split; [exact Hwt|]. split; [exact Hvalid|]. split; [exact Hfits|].
  exact (Filter_then_NewTable_and_AggCol s7 0%nat _ t7 (fun _ row => 1 <? row)
           [0; 1; 2; 3; 4; 5; 6] 0%nat _ F64.zero sum_agg
           eq_refl Hwf eq_refl Hwt eq_refl Hvalid Hfits eq_refl).
Defined.
